(** * Verification of mypy's expression-to-type translator and of mypyc's
      pre-build visitor

    The development embeds two source files:

    - [mypy/exprtotype.py]  (module [ExprToType]): the function
      [expr_to_unanalyzed_type] and its helper [_extract_argument_name];
    - [mypyc/irbuild/prebuildvisitor.py] (module [PreBuild]): the class
      [PreBuildVisitor] and the two functions recognising single-dispatch
      registration decorators.

    Definitions come first, the theorems about them follow in the modules
    [ExprToTypeFacts] and [PreBuildFacts], the further facts in
    [ExprToTypeExtra] and [PreBuildExtra], and closure capture for every
    source unit in [PreBuildClosure]. *)

From Stdlib Require Import ZArith String List Lia.
From stdpp Require Import base option list gmap sets strings.

Local Open Scope string_scope.
Set Warnings "-register-all".

(* ===================================================================== *)
(** * Part I: mypy/exprtotype.py                                          *)
(* ===================================================================== *)

Module ExprToType.

(** ** Syntax nodes (the part of mypy.nodes the translator inspects) *)

(** Every node is a [Context]: it carries a line and a column. *)
Record Context := mkContext { line : Z; column : Z }.

(** [RefExpr.fullname] is filled in by semantic analysis and is [None]
    before that, hence the option. *)
Inductive Expression :=
| NameExpr (ctx : Context) (name : string) (fullname : option string)
| MemberExpr (ctx : Context) (expr : Expression) (name : string)
             (fullname : option string)
| IndexExpr (ctx : Context) (base index : Expression)
| TupleExpr (ctx : Context) (items : list Expression)
| ListExpr (ctx : Context) (items : list Expression)
| CallExpr (ctx : Context) (callee : Expression) (args : list Expression)
           (arg_names : list (option string))
| OpExpr (ctx : Context) (op : string) (left right : Expression)
| UnaryExpr (ctx : Context) (op : string) (expr : Expression)
| IntExpr (ctx : Context) (value : Z)
| FloatExpr (ctx : Context)
| ComplexExpr (ctx : Context)
| StrExpr (ctx : Context) (value : string) (from_python_3 : bool)
| BytesExpr (ctx : Context) (value : string)
| UnicodeExpr (ctx : Context) (value : string)
| EllipsisExpr (ctx : Context)
| OtherExpr (ctx : Context).   (* any node class the translator has no case for *)

(** ** Type descriptors (the part of mypy.types the translator builds) *)

(** [RawExpressionType.literal_value : Optional[Union[int, str, bool]]]. *)
Inductive LiteralValue :=
| LitInt (z : Z)
| LitBool (b : bool)
| LitStr (s : string).

Inductive TypeOfAny := unannotated.

(** Each constructor stands for the call of the class of that name, with
    the arguments the translator passes. The classes themselves are code
    of [mypy.types], which is not among the sources here. Modelled from
    the spec: a descriptor holds the arguments it was built from; for
    [UnionType] these are the operands in order ("ordered sequence of
    exactly 2 Type Descriptor", built as "UnionType(translate(left),
    translate(right))"). *)
Inductive ProperType :=
| UnboundType (name : string) (args : list ProperType) (line column : Z)
              (empty_tuple_index : bool)
| TypeList (items : list ProperType) (line column : Z)
| RawExpressionType (literal_value : option LiteralValue)
                    (base_type_name : string) (line column : Z)
| CallableArgument (typ : ProperType) (name : option string)
                   (constructor : string) (line column : Z)
| EllipsisType (line : Z)
| AnyType (type_of_any : TypeOfAny)
| UnionType (items : list ProperType).

(** [mypy.options.Options]: only [python_version] is read. *)
Record Options := mkOptions { python_version : Z * Z }.

(** Python's ordering of pairs of integers: [v >= w]. *)
Definition version_ge (v w : Z * Z) : bool :=
  (w.1 <? v.1)%Z || ((v.1 =? w.1)%Z && (w.2 <=? v.2)%Z).

(** ** Exceptions *)

(** [TypeTranslationError] is the module's own exception; [IndexError] is
    what Python raises for [args[0]] on an empty list and for
    [expr.arg_names[i]] past the end. *)
Inductive Exception := TypeTranslationError | IndexError.

Inductive result (A : Type) :=
| Ok (a : A)
| Raise (e : Exception).
Arguments Ok {A} a.
Arguments Raise {A} e.

(** Sequencing: an exception raised by the first computation propagates.
    With these instances [x ← m; k] is stdpp's notation for it. *)
#[global] Instance result_bind : MBind result := fun A B k m =>
  match m with
  | Ok a => k a
  | Raise e => Raise e
  end.
#[global] Instance result_ret : MRet result := fun A a => Ok a.

Definition succeeds {A} (m : result A) : Prop := exists a, m = Ok a.

(** [[f(x) for x in xs]]: evaluation from left to right, the first
    exception wins. *)
Section MapResult.
Context {A B : Type} (f : A -> result B).

Fixpoint map_result (xs : list A) : result (list B) :=
  match xs with
  | [] => Ok []
  | x :: xs' => y ← f x; ys ← map_result xs'; Ok (y :: ys)
  end.
End MapResult.

(** ** _extract_argument_name *)

Definition _extract_argument_name (expr : Expression) : result (option string) :=
  match expr with
  | NameExpr _ name _ =>
      if decide (name = "None") then Ok None else Raise TypeTranslationError
  | StrExpr _ value _ => Ok (Some value)
  | UnicodeExpr _ value => Ok (Some value)
  | _ => Raise TypeTranslationError
  end.

(** Modelled from the spec: [get_member_expr_fullname] lives in mypy.nodes,
    which is not part of the sources at hand. The spec describes it as
    reducing a member-access chain to a dotted full name, and as failing
    when the chain does not reduce to a dotted name. *)
Fixpoint get_member_expr_fullname (expr : Expression) : option string :=
  match expr with
  | MemberExpr _ e name _ =>
      match e with
      | NameExpr _ initial _ => Some (initial ++ "." ++ name)
      | MemberExpr _ _ _ _ =>
          match get_member_expr_fullname e with
          | Some initial => Some (initial ++ "." ++ name)
          | None => None
          end
      | _ => None
      end
  | _ => None
  end.

(** [isinstance(e, ListExpr)] for an optional parent. *)
Definition is_ListExpr (p : option Expression) : bool :=
  match p with
  | Some (ListExpr _ _) => true
  | _ => false
  end.

(** [isinstance(e, RefExpr) and e.fullname in ['typing.Annotated',
    'typing_extensions.Annotated']]. *)
Definition is_annotated_ref (e : Expression) : bool :=
  match e with
  | NameExpr _ _ (Some fn) | MemberExpr _ _ _ (Some fn) =>
      bool_decide (fn = "typing.Annotated")
      || bool_decide (fn = "typing_extensions.Annotated")
  | _ => false
  end.

(** [options and options.python_version >= (3, 10)]. *)
Definition union_syntax_enabled (options : option Options) : bool :=
  match options with
  | Some o => version_ge (python_version o) (3, 10)%Z
  | None => false
  end.

(** The callee chain of a [CallExpr]: the [while True] loop collecting
    [names]; the result is the list in the order of the appends. *)
Fixpoint callee_names (c : Expression) : result (list string) :=
  match c with
  | NameExpr _ name _ => Ok [name]
  | MemberExpr _ e name _ => ns ← callee_names e; Ok (name :: ns)
  | _ => Raise TypeTranslationError
  end.

(** ['.'.join(names)]. *)
Fixpoint join_dot (names : list string) : string :=
  match names with
  | [] => ""
  | [n] => n
  | n :: ns => n ++ "." ++ join_dot ns
  end.

(** [isinstance(typ.literal_value, int)]: [bool] is a subclass of [int]
    in Python, so a boolean literal passes the test too. *)
Definition isinstance_int (v : option LiteralValue) : bool :=
  match v with
  | Some (LitInt _) | Some (LitBool _) => true
  | _ => false
  end.

(** [typ.literal_value *= -1] on a value that passed [isinstance_int]:
    [True * -1 == -1] and [False * -1 == 0] are plain integers. *)
Definition times_minus_one (v : option LiteralValue) : option LiteralValue :=
  match v with
  | Some (LitInt z) => Some (LitInt (z * -1))
  | Some (LitBool b) => Some (LitInt ((if b then 1 else 0) * -1))
  | other => other
  end.

(** The argument list of a subscription: the items of a tuple index, or
    the index alone. *)
Definition index_args (index : Expression) : list Expression :=
  match index with
  | TupleExpr _ items => items
  | _ => [index]
  end.

(** The [for i, arg in enumerate(expr.args)] loop of the CallableArgument
    case. [name] and [typ] are the loop's two variables; [typ = None]
    stands for [typ is default_type] (the translator returns fresh objects
    only, so nothing else is identical to [default_type]). *)
Section CallableArgumentLoop.
Variable translate_arg : Expression -> result ProperType.
Variable arg_names : list (option string).

Fixpoint callable_argument_loop (i : nat) (args : list Expression)
    (name : option string) (typ : option ProperType)
    : result (option string * option ProperType) :=
  match args with
  | [] => Ok (name, typ)
  | arg :: rest =>
      match arg_names !! i with
      | None => Raise IndexError
      | Some (Some kw) =>
          if decide (kw = "name") then
            match name with
            | Some _ => Raise TypeTranslationError          (* Two names *)
            | None =>
                n ← _extract_argument_name arg;
                callable_argument_loop (S i) rest n typ
            end
          else if decide (kw = "type") then
            match typ with
            | Some _ => Raise TypeTranslationError          (* Two types *)
            | None =>
                t ← translate_arg arg;
                callable_argument_loop (S i) rest name (Some t)
            end
          else Raise TypeTranslationError
      | Some None =>
          match i with
          | 0 =>
              t ← translate_arg arg;
              callable_argument_loop (S i) rest name (Some t)
          | 1 =>
              n ← _extract_argument_name arg;
              callable_argument_loop (S i) rest n typ
          | _ => Raise TypeTranslationError
          end
      end
  end.
End CallableArgumentLoop.

(** ** expr_to_unanalyzed_type *)

Section Translator.
(** [mypy.fastparse.parse_type_string] is an external collaborator (the
    parser of forward-reference strings); it is total and returns a type
    descriptor. Arguments: the string, the fallback name, line, column
    and [assume_str_is_unicode]. *)
Variable parse_type_string : string -> string -> Z -> Z -> bool -> ProperType.

Fixpoint expr_to_unanalyzed_type (expr : Expression) (options : option Options)
    (_parent : option Expression) {struct expr} : result ProperType :=
  match expr with
  | NameExpr c name _ =>
      if decide (name = "True") then
        Ok (RawExpressionType (Some (LitBool true)) "builtins.bool" (line c) (column c))
      else if decide (name = "False") then
        Ok (RawExpressionType (Some (LitBool false)) "builtins.bool" (line c) (column c))
      else Ok (UnboundType name [] (line c) (column c) false)
  | MemberExpr c _ _ _ =>
      match get_member_expr_fullname expr with
      | Some fullname =>
          if decide (fullname = "") then Raise TypeTranslationError
          else Ok (UnboundType fullname [] (line c) (column c) false)
      | None => Raise TypeTranslationError
      end
  | IndexExpr c base index =>
      b ← expr_to_unanalyzed_type base options (Some expr);
      match b with
      | UnboundType bname bargs bline bcolumn bempty =>
          match bargs with
          | _ :: _ => Raise TypeTranslationError
          | [] =>
              if is_annotated_ref base then
                (* [args[0]], with [args = index_args index] *)
                match index with
                | TupleExpr _ items =>
                    match items with
                    | [] => Raise IndexError
                    | a :: _ => expr_to_unanalyzed_type a options (Some expr)
                    end
                | _ => expr_to_unanalyzed_type index options (Some expr)
                end
              else
                new_args ←
                  match index with
                  | TupleExpr _ items =>
                      map_result (fun a => expr_to_unanalyzed_type a options (Some expr)) items
                  | _ =>
                      t ← expr_to_unanalyzed_type index options (Some expr);
                      Ok [t]
                  end;
                Ok (UnboundType bname new_args bline bcolumn
                      (match new_args with [] => true | _ => bempty end))
          end
      | _ => Raise TypeTranslationError
      end
  | OpExpr c op l r =>
      if bool_decide (op = "|") && union_syntax_enabled options then
        tl ← expr_to_unanalyzed_type l options None;
        tr ← expr_to_unanalyzed_type r options None;
        Ok (UnionType [tl; tr])
      else Raise TypeTranslationError
  | CallExpr c callee args arg_names =>
      if is_ListExpr _parent then
        names ← callee_names callee;
        let arg_const := join_dot (rev names) in
        nt ← callable_argument_loop
                (fun a => expr_to_unanalyzed_type a options (Some expr))
                arg_names 0 args None None;
        Ok (CallableArgument (default (AnyType unannotated) nt.2) nt.1 arg_const
              (line c) (column c))
      else Raise TypeTranslationError
  | ListExpr c items =>
      ts ← map_result (fun t => expr_to_unanalyzed_type t options (Some expr)) items;
      Ok (TypeList ts (line c) (column c))
  | StrExpr c value from_python_3 =>
      Ok (parse_type_string value "builtins.str" (line c) (column c) from_python_3)
  | BytesExpr c value =>
      Ok (parse_type_string value "builtins.bytes" (line c) (column c) false)
  | UnicodeExpr c value =>
      Ok (parse_type_string value "builtins.unicode" (line c) (column c) true)
  | UnaryExpr c op e =>
      typ ← expr_to_unanalyzed_type e options None;
      match typ with
      | RawExpressionType literal_value base_type_name tline tcolumn =>
          if isinstance_int literal_value && bool_decide (op = "-") then
            Ok (RawExpressionType (times_minus_one literal_value) base_type_name
                  tline tcolumn)
          else Raise TypeTranslationError
      | _ => Raise TypeTranslationError
      end
  | IntExpr c value =>
      Ok (RawExpressionType (Some (LitInt value)) "builtins.int" (line c) (column c))
  | FloatExpr c =>
      Ok (RawExpressionType None "builtins.float" (line c) (column c))
  | ComplexExpr c =>
      Ok (RawExpressionType None "builtins.complex" (line c) (column c))
  | EllipsisExpr c => Ok (EllipsisType (line c))
  | TupleExpr _ _ | OtherExpr _ => Raise TypeTranslationError
  end.
End Translator.

(** ** Closed examples *)

(** An instance of the string sub-parser for closed examples: the answer
    [parse_type_string] gives for a string that does not parse as a type,
    [RawExpressionType(expr_string, expr_fallback_name, line, column)]. *)
Definition parse_type_string_raw (s fallback : string) (l c : Z) (_ : bool) : ProperType :=
  RawExpressionType (Some (LitStr s)) fallback l c.

Definition at_ (l c : Z) : Context := mkContext l c.

(** ** Notions used in the further facts *)

(** [at_least r1 r2]: whenever [r1] returns a value, [r2] returns the
    same value. *)
Definition at_least {A} (r1 r2 : result A) : Prop :=
  forall a, r1 = Ok a -> r2 = Ok a.

(** The nodes without sub-expressions the translator looks into. *)
Definition leaf (e : Expression) : bool :=
  match e with
  | NameExpr _ _ _ | IntExpr _ _ | FloatExpr _ | ComplexExpr _ | StrExpr _ _ _
  | BytesExpr _ _ | UnicodeExpr _ _ | EllipsisExpr _ | OtherExpr _ => true
  | _ => false
  end.

Definition is_CallableArgument (t : ProperType) : bool :=
  match t with
  | CallableArgument _ _ _ _ _ => true
  | _ => false
  end.

Definition is_UnboundType (t : ProperType) : bool :=
  match t with
  | UnboundType _ _ _ _ _ => true
  | _ => false
  end.

Definition is_TupleExpr (e : Expression) : bool :=
  match e with
  | TupleExpr _ _ => true
  | _ => false
  end.

End ExprToType.

(* ===================================================================== *)
(** * Part II: mypyc/irbuild/prebuildvisitor.py                           *)
(* ===================================================================== *)

Module PreBuild.
Local Open Scope list_scope.

(** ** The syntax tree the visitor walks *)

(** Nodes are Python objects, compared and hashed by identity: an [ident]
    stands for the address of a [FuncItem], [Var] or [TypeInfo] object. *)
Abbreviation ident := positive.

(** What [RefExpr.node] may point to. A [Decorator] is given by the
    identity of its [func]. *)
Inductive SymbolNode :=
| VarSym (v : ident)
| FuncDefSym (f : ident)
| DecoratorSym (func : ident)
| TypeInfoSym (info : ident)
| OtherSym.

#[global] Instance SymbolNode_eq_dec : EqDecision SymbolNode.
Proof. solve_decision. Defined.

#[global] Instance SymbolNode_countable : Countable SymbolNode.
Proof.
  refine (inj_countable'
    (fun s => match s with
              | VarSym v => inl (inl v)
              | FuncDefSym f => inl (inr f)
              | DecoratorSym f => inr (inl f)
              | TypeInfoSym t => inr (inr (Some t))
              | OtherSym => inr (inr None)
              end)
    (fun c => match c with
              | inl (inl v) => VarSym v
              | inl (inr f) => FuncDefSym f
              | inr (inl f) => DecoratorSym f
              | inr (inr (Some t)) => TypeInfoSym t
              | inr (inr None) => OtherSym
              end) _).
  intros []; reflexivity.
Defined.

(** Modelled from the spec: [mypy.types.get_proper_type] and [Instance] are
    not part of the sources at hand. The spec asks for "an annotation
    resolving to a concrete named type"; the field below is the type of a
    variable after that resolution: an [Instance] of a [TypeInfo], or
    anything else. *)
Inductive ProperType :=
| Instance (type_ : ident)
| OtherType.

Record Var := mkVar { var_ident : ident; var_type : option ProperType }.

Definition get_proper_type (t : option ProperType) : option ProperType := t.

Record Argument_ (N : Type) := mkArgument {
  variable : Var;
  initializer : option N
}.
Arguments mkArgument {N} _ _.
Arguments variable {N} _.
Arguments initializer {N} _.

(** [OtherNode] stands for every statement and expression class the
    visitor does not override: the base traverser visits its children in
    order. *)
Inductive Node :=
| NameExpr (name : string) (node : option SymbolNode)
| MemberExpr (expr : Node) (name : string) (node : option SymbolNode)
| CallExpr (callee : Node) (args : list Node)
| FuncDef (item : FuncItem)
| LambdaExpr (item : FuncItem)
| Decorator (func : FuncItem) (var : Var) (decorators : list Node)
| OtherNode (children : list Node)
with FuncItem :=
| mkFuncItem (id : ident) (arguments : list (Argument_ Node)) (body : list Node).

Abbreviation Argument := (Argument_ Node).

Definition func_id (f : FuncItem) : ident :=
  match f with mkFuncItem id _ _ => id end.
Definition arguments (f : FuncItem) : list Argument :=
  match f with mkFuncItem _ args _ => args end.
Definition body (f : FuncItem) : list Node :=
  match f with mkFuncItem _ _ b => b end.

(** ** Recognising single-dispatch registrations *)

Record RegisteredImpl := mkRegisteredImpl {
  singledispatch_func : ident;
  dispatch_type : ident
}.

Definition registered_impl_from_possible_register_call
    (expr : Node) (dispatch_type : ident) : option RegisteredImpl :=
  match expr with
  | MemberExpr (NameExpr _ (Some (DecoratorSym func))) name _ =>
      if decide (name = "register") then Some (mkRegisteredImpl func dispatch_type)
      else None
  | _ => None
  end.

(** [e.node] when [isinstance(e, RefExpr)]. *)
Definition ref_node (e : Node) : option (option SymbolNode) :=
  match e with
  | NameExpr _ node | MemberExpr _ _ node => Some node
  | _ => None
  end.

Definition get_singledispatch_register_call_info
    (decorator : Node) (func : FuncItem) : option RegisteredImpl :=
  match decorator with
  | CallExpr callee [arg] =>
      match ref_node arg with
      | Some node =>
          match node with
          | Some (TypeInfoSym dispatch_type) =>
              match callee with
              | MemberExpr _ _ _ =>
                  registered_impl_from_possible_register_call callee dispatch_type
              | _ => None
              end
          | _ => None
          end
      | None => None
      end
  | MemberExpr _ _ _ =>
      match arguments func with
      | [] => None
      | arg0 :: _ =>
          match get_proper_type (var_type (variable arg0)) with
          | Some (Instance info) =>
              registered_impl_from_possible_register_call decorator info
          | _ => None
          end
      end
  | _ => None
  end.

(** ** The visitor's state *)

(** The attributes set up by [__init__]. [funcs] is the stack of open
    functions, its top is the last element. *)
Record PreBuildVisitor := mkPreBuildVisitor {
  free_variables : gmap ident (gset SymbolNode);
  symbols_to_funcs : gmap SymbolNode ident;
  funcs : list ident;
  prop_setters : gset ident;
  encapsulating_funcs : gmap ident (list ident);
  nested_funcs : gmap ident ident;
  funcs_to_decorators : gmap ident (list Node);
  singledispatch_impls : gmap ident (list (ident * ident))
}.

Definition __init__ : PreBuildVisitor :=
  mkPreBuildVisitor ∅ ∅ [] ∅ ∅ ∅ ∅ ∅.

Definition set_free_variables v (st : PreBuildVisitor) :=
  mkPreBuildVisitor v (symbols_to_funcs st) (funcs st) (prop_setters st)
    (encapsulating_funcs st) (nested_funcs st) (funcs_to_decorators st)
    (singledispatch_impls st).
Definition set_symbols_to_funcs v (st : PreBuildVisitor) :=
  mkPreBuildVisitor (free_variables st) v (funcs st) (prop_setters st)
    (encapsulating_funcs st) (nested_funcs st) (funcs_to_decorators st)
    (singledispatch_impls st).
Definition set_funcs v (st : PreBuildVisitor) :=
  mkPreBuildVisitor (free_variables st) (symbols_to_funcs st) v (prop_setters st)
    (encapsulating_funcs st) (nested_funcs st) (funcs_to_decorators st)
    (singledispatch_impls st).
Definition set_prop_setters v (st : PreBuildVisitor) :=
  mkPreBuildVisitor (free_variables st) (symbols_to_funcs st) (funcs st) v
    (encapsulating_funcs st) (nested_funcs st) (funcs_to_decorators st)
    (singledispatch_impls st).
Definition set_encapsulating_funcs v (st : PreBuildVisitor) :=
  mkPreBuildVisitor (free_variables st) (symbols_to_funcs st) (funcs st)
    (prop_setters st) v (nested_funcs st) (funcs_to_decorators st)
    (singledispatch_impls st).
Definition set_nested_funcs v (st : PreBuildVisitor) :=
  mkPreBuildVisitor (free_variables st) (symbols_to_funcs st) (funcs st)
    (prop_setters st) (encapsulating_funcs st) v (funcs_to_decorators st)
    (singledispatch_impls st).
Definition set_funcs_to_decorators v (st : PreBuildVisitor) :=
  mkPreBuildVisitor (free_variables st) (symbols_to_funcs st) (funcs st)
    (prop_setters st) (encapsulating_funcs st) (nested_funcs st) v
    (singledispatch_impls st).
Definition set_singledispatch_impls v (st : PreBuildVisitor) :=
  mkPreBuildVisitor (free_variables st) (symbols_to_funcs st) (funcs st)
    (prop_setters st) (encapsulating_funcs st) (nested_funcs st)
    (funcs_to_decorators st) v.

(** [d.setdefault(k, set()).add(x)] and [d.setdefault(k, []).append(x)]
    (the latter is also what [d[k].append(x)] does on a
    [defaultdict(list)]). *)
Definition setdefault_add (k : ident) (x : SymbolNode)
    (d : gmap ident (gset SymbolNode)) : gmap ident (gset SymbolNode) :=
  <[k := default ∅ (d !! k) ∪ {[x]}]> d.
Definition setdefault_append {A} (k : ident) (x : A)
    (d : gmap ident (list A)) : gmap ident (list A) :=
  <[k := default [] (d !! k) ++ [x]]> d.

(** ** is_parent *)

(** The recursion of [is_parent] follows [nested_funcs] links; [fuel]
    bounds the number of calls, [None] means the bound was reached. *)
Fixpoint is_parent_fuel (fuel : nat) (nested : gmap ident ident)
    (fitem child : ident) : option bool :=
  match fuel with
  | O => None
  | S fuel' =>
      match nested !! child with
      | Some parent =>
          if decide (parent = fitem) then Some true
          else is_parent_fuel fuel' nested fitem parent
      | None => Some false
      end
  end.

(** [is_parent] with the bound [size nested_funcs + 1]: a chain of links
    that is longer has more links than the map has entries. [None] stands
    for a recursion that does not come to an end within the bound (in
    Python, one that ends in a [RecursionError]). *)
Definition is_parent (st : PreBuildVisitor) (fitem child : ident) : option bool :=
  is_parent_fuel (S (size (nested_funcs st))) (nested_funcs st) fitem child.

(** ** The visitor monad: state passing; [None] is a call that does not
    return normally. *)

Definition M (A : Type) : Type := PreBuildVisitor -> option (A * PreBuildVisitor).

#[global] Instance M_ret : MRet M := fun A a st => Some (a, st).
#[global] Instance M_bind : MBind M := fun A B k m st =>
  match m st with
  | Some (a, st') => k a st'
  | None => None
  end.

Definition modify (f : PreBuildVisitor -> PreBuildVisitor) : M unit :=
  fun st => Some (tt, f st).

(** [for x in xs: f(x)], collecting the nodes as the loop leaves them. *)
Section ForEach.
Context {A B : Type} (f : A -> M B).

Fixpoint for_each (xs : list A) : M (list B) :=
  match xs with
  | [] => mret []
  | x :: xs' => y ← f x; ys ← for_each xs'; mret (y :: ys)
  end.

(** The same loop over the elements that [skip] does not hold of. *)
Fixpoint for_each_unless (skip : A -> bool) (xs : list A) : M (list B) :=
  match xs with
  | [] => mret []
  | x :: xs' =>
      if skip x then for_each_unless skip xs'
      else y ← f x; ys ← for_each_unless skip xs'; mret (y :: ys)
  end.
End ForEach.

(** ** visit_symbol_node, add_free_variable, visit_name_expr, visit_var *)

Definition add_free_variable (symbol : SymbolNode) : M unit := fun st =>
  match symbols_to_funcs st !! symbol with
  | Some func =>
      Some (tt, set_free_variables (setdefault_add func symbol (free_variables st)) st)
  | None => None     (* KeyError; the only caller has just looked the key up *)
  end.

Definition visit_symbol_node (symbol : SymbolNode) : M unit := fun st =>
  match last (funcs st) with
  | None => Some (tt, st)
  | Some top =>
      match symbols_to_funcs st !! symbol with
      | Some orig_func =>
          match is_parent st top orig_func with
          | None => None
          | Some true =>
              Some (tt,
                set_free_variables (setdefault_add top symbol (free_variables st))
                  (set_symbols_to_funcs (<[symbol := top]> (symbols_to_funcs st)) st))
          | Some false =>
              match is_parent st orig_func top with
              | None => None
              | Some true => add_free_variable symbol st
              | Some false => Some (tt, st)
              end
          end
      | None =>
          Some (tt, set_symbols_to_funcs (<[symbol := top]> (symbols_to_funcs st)) st)
      end
  end.

Definition visit_name_expr (node : option SymbolNode) : M unit :=
  match node with
  | Some (VarSym v) => visit_symbol_node (VarSym v)
  | Some (FuncDefSym f) => visit_symbol_node (FuncDefSym f)
  | _ => mret tt
  end.

Definition visit_var (var : Var) : M unit :=
  visit_symbol_node (VarSym (var_ident var)).

(** ** visit_func *)

(** Lines 102 to 110: registration of a nested function, and the push. *)
Definition enter_func (func : ident) (st : PreBuildVisitor) : PreBuildVisitor :=
  let st1 :=
    match last (funcs st) with
    | Some top =>
        set_nested_funcs (<[func := top]> (nested_funcs st))
          (set_encapsulating_funcs
             (setdefault_append top func (encapsulating_funcs st)) st)
    | None => st
    end in
  set_funcs (funcs st1 ++ [func]) st1.

(** [self.funcs.pop()]. The stack is not empty here: the function was
    pushed, and what is visited in between leaves the stack as it found
    it ([visit_facts_both] in [PreBuildFacts]). *)
Definition leave_func (st : PreBuildVisitor) : PreBuildVisitor :=
  set_funcs (removelast (funcs st)) st.

(** ** visit_decorator *)

Definition is_setter (d : Node) : bool :=
  match d with
  | MemberExpr _ name _ => bool_decide (name = "setter")
  | _ => false
  end.

Definition is_register (func : FuncItem) (d : Node) : bool :=
  bool_decide (is_Some (get_singledispatch_register_call_info d func)).

Abbreviation not_register func := (fun d : Node => is_register func d = false).

(** The loop of lines 74 to 79 from index [i] on: the updated
    [singledispatch_impls] and the indices appended to [removed]. *)
Fixpoint register_loop (func : FuncItem) (i : nat) (ds : list Node)
    (impls : gmap ident (list (ident * ident))) (removed : list nat)
    : gmap ident (list (ident * ident)) * list nat :=
  match ds with
  | [] => (impls, removed)
  | d :: ds' =>
      match get_singledispatch_register_call_info d func with
      | Some impl =>
          register_loop func (S i) ds'
            (setdefault_append (singledispatch_func impl)
               (dispatch_type impl, func_id func) impls)
            (removed ++ [i])
      | None => register_loop func (S i) ds' impls removed
      end
  end.

(** [for i in reversed(removed): del decorators[i]]. *)
Definition delete_reversed (removed : list nat) (decorators : list Node) : list Node :=
  fold_left (fun l i => delete i l) (rev removed) decorators.

(** ** The traversal *)

(** The methods of the visitor call each other through [self] and
    [node.accept(self)]; in this section [visit] stands for
    [node.accept(self)] and [visit_func] for [self.visit_func]. *)
Section Methods.
Variable visit : Node -> M Node.
Variable visit_func : FuncItem -> M FuncItem.

(** Modelled from the spec: [TraverserVisitor] (mypy.traverser) is not
    part of the sources at hand. The spec has the nodes visited "in
    their natural nesting order ... depth-first": the base
    [visit_decorator] visits the function, then the decorator's variable,
    then the decorators in order. *)
Definition super_visit_decorator (func : FuncItem) (var : Var)
    (decorators : list Node) : M Node :=
  func' ← visit_func func;
  _ ← visit_var var;
  decorators' ← for_each visit decorators;
  mret (Decorator func' var decorators').

(** [PreBuildVisitor.visit_decorator]. The node it returns is the
    [Decorator] object as the call leaves it: [del dec.decorators[i]]
    changes the list of the node itself, and [funcs_to_decorators] is
    given that same list. *)
Definition visit_decorator (func : FuncItem) (var : Var)
    (decorators : list Node) : M Node :=
  match decorators with
  | [] => super_visit_decorator func var decorators
  | d0 :: _ =>
      if is_setter d0 then
        _ ← modify (fun st =>
               set_prop_setters (prop_setters st ∪ {[func_id func]}) st);
        super_visit_decorator func var decorators
      else
        fun st =>
          let (impls, removed) :=
            register_loop func 0 decorators (singledispatch_impls st) [] in
          let st1 := set_singledispatch_impls impls st in
          let remaining := delete_reversed removed decorators in
          match remaining with
          | [] => Some (Decorator func var remaining, st1)
          | _ :: _ =>
              super_visit_decorator func var remaining
                (set_funcs_to_decorators
                   (<[func_id func := remaining]> (funcs_to_decorators st1)) st1)
          end
  end.
End Methods.

(** Modelled from the spec: the base traverser (mypy.traverser, not part
    of the sources at hand) visits the children of a node depth-first, in
    order; for a function, the initializers of the arguments, then the
    argument variables, then the body. The cases [FuncDef], [LambdaExpr],
    [Decorator] and [NameExpr] are the methods [PreBuildVisitor]
    overrides.

    In the [Decorator] case the loop over the remaining decorators is
    written as a loop over the original list that skips the registration
    decorators, which is what makes the recursion structural;
    [visit_Decorator] below shows that the case is [visit_decorator]. *)
Fixpoint visit (n : Node) {struct n} : M Node :=
  match n with
  | NameExpr name node => _ ← visit_name_expr node; mret n
  | MemberExpr e name node => e' ← visit e; mret (MemberExpr e' name node)
  | CallExpr callee args =>
      args' ← for_each visit args;
      callee' ← visit callee;
      mret (CallExpr callee' args')
  | FuncDef item => item' ← visit_func item; mret (FuncDef item')
  | LambdaExpr item => item' ← visit_func item; mret (LambdaExpr item')
  | Decorator func var decorators =>
      match decorators with
      | [] => super_visit_decorator visit visit_func func var decorators
      | d0 :: _ =>
          if is_setter d0 then
            _ ← modify (fun st =>
                   set_prop_setters (prop_setters st ∪ {[func_id func]}) st);
            super_visit_decorator visit visit_func func var decorators
          else
            fun st =>
              let (impls, removed) :=
                register_loop func 0 decorators (singledispatch_impls st) [] in
              let st1 := set_singledispatch_impls impls st in
              let remaining := delete_reversed removed decorators in
              match remaining with
              | [] => Some (Decorator func var remaining, st1)
              | _ :: _ =>
                  (func' ← visit_func func;
                   _ ← visit_var var;
                   decorators' ← for_each_unless visit (is_register func) decorators;
                   mret (Decorator func' var decorators'))
                    (set_funcs_to_decorators
                       (<[func_id func := remaining]> (funcs_to_decorators st1)) st1)
              end
      end
  | OtherNode children =>
      children' ← for_each visit children;
      mret (OtherNode children')
  end

(** [PreBuildVisitor.visit_func], with the base [visit_func] inlined
    between the push and the pop. *)
with visit_func (func : FuncItem) {struct func} : M FuncItem :=
  match func with
  | mkFuncItem id args body =>
      _ ← modify (enter_func id);
      args' ← for_each
                (fun arg : Argument =>
                   match initializer arg with
                   | Some init =>
                       init' ← visit init;
                       mret (mkArgument (variable arg) (Some init'))
                   | None => mret arg
                   end) args;
      _ ← for_each (fun arg : Argument => visit_var (variable arg)) args;
      body' ← for_each visit body;
      _ ← modify leave_func;
      mret (mkFuncItem id args' body')
  end.

(** [visit_func_def] and [visit_lambda_expr] both call [visit_func]. *)
Definition visit_func_def := visit_func.
Definition visit_lambda_expr := visit_func.

(** The whole pass over a source unit. *)
Definition analyze (unit : Node) : option (Node * PreBuildVisitor) :=
  visit unit __init__.

(** ** The points of the traversal *)

(** The traversal as a machine that makes one move at a time: a
    configuration is the state of the visitor together with the work that
    is left, the calls still to be made, in order. The configurations the
    machine goes through from [initial unit] are the points of the pass
    over [unit]; [visit_steps] (in [PreBuildFacts]) shows that the machine
    and [visit] compute the same states. *)
Inductive Task :=
| TVisit (n : Node)            (* n.accept(self) *)
| TVisitFunc (f : FuncItem)    (* self.visit_func(f) *)
| TVisitVar (v : Var)          (* self.visit_var(v) *)
| TPop.                        (* self.funcs.pop() *)

Definition Config : Type := list Task * PreBuildVisitor.

Definition initial (unit : Node) : Config := ([TVisit unit], __init__).

Definition initializer_tasks (args : list Argument) : list Task :=
  omap (fun arg : Argument => TVisit <$> initializer arg) args.

Definition super_visit_decorator_tasks (func : FuncItem) (var : Var)
    (decorators : list Node) : list Task :=
  TVisitFunc func :: TVisitVar var :: map TVisit decorators.

Definition step (c : Config) : option Config :=
  let st := c.2 in
  match c.1 with
  | [] => None
  | TVisit n :: k =>
      match n with
      | NameExpr _ node =>
          match visit_name_expr node st with
          | Some (_, st') => Some (k, st')
          | None => None
          end
      | MemberExpr e _ _ => Some (TVisit e :: k, st)
      | CallExpr callee args => Some (map TVisit args ++ TVisit callee :: k, st)
      | FuncDef item | LambdaExpr item => Some (TVisitFunc item :: k, st)
      | Decorator func var decorators =>
          match decorators with
          | [] => Some (super_visit_decorator_tasks func var decorators ++ k, st)
          | d0 :: _ =>
              if is_setter d0 then
                Some (super_visit_decorator_tasks func var decorators ++ k,
                      set_prop_setters (prop_setters st ∪ {[func_id func]}) st)
              else
                let (impls, removed) :=
                  register_loop func 0 decorators (singledispatch_impls st) [] in
                let st1 := set_singledispatch_impls impls st in
                let remaining := delete_reversed removed decorators in
                match remaining with
                | [] => Some (k, st1)
                | _ :: _ =>
                    Some (super_visit_decorator_tasks func var remaining ++ k,
                          set_funcs_to_decorators
                            (<[func_id func := remaining]> (funcs_to_decorators st1)) st1)
                end
          end
      | OtherNode children => Some (map TVisit children ++ k, st)
      end
  | TVisitFunc f :: k =>
      Some (initializer_tasks (arguments f)
              ++ map (fun arg : Argument => TVisitVar (variable arg)) (arguments f)
              ++ map TVisit (body f) ++ TPop :: k,
            enter_func (func_id f) st)
  | TVisitVar v :: k =>
      match visit_var v st with
      | Some (_, st') => Some (k, st')
      | None => None
      end
  | TPop :: k => Some (k, leave_func st)
  end.

(** [steps c c']: the machine gets from [c] to [c'] in some number of
    moves. *)
Inductive steps : Config -> Config -> Prop :=
| steps_refl c : steps c c
| steps_step c c' c'' : step c = Some c' -> steps c' c'' -> steps c c''.

(** A configuration with work left and no move: a call that does not
    return. *)
Definition stuck (c : Config) : Prop := c.1 ≠ [] /\ step c = None.

(** The configuration after [n] moves, if the machine can make them. *)
Fixpoint run (n : nat) (c : Config) : option Config :=
  match n with
  | 0 => Some c
  | S n' =>
      match step c with
      | Some c' => run n' c'
      | None => None
      end
  end.

(** ** Identities in a tree *)

(** The identities of the functions and lambdas of a tree, in the order
    of the traversal. In a syntax tree every function is one object, so
    the list has no duplicates. *)
Fixpoint func_ids (n : Node) : list ident :=
  match n with
  | NameExpr _ _ => []
  | MemberExpr e _ _ => func_ids e
  | CallExpr callee args => flat_map func_ids args ++ func_ids callee
  | FuncDef item | LambdaExpr item => func_ids_of item
  | Decorator func _ decorators => func_ids_of func ++ flat_map func_ids decorators
  | OtherNode children => flat_map func_ids children
  end
with func_ids_of (f : FuncItem) : list ident :=
  match f with
  | mkFuncItem id args body =>
      id :: flat_map (fun arg : Argument =>
                        match initializer arg with
                        | Some init => func_ids init
                        | None => []
                        end) args
         ++ flat_map func_ids body
  end.

(** The functions of the work that is left. *)
Definition task_ids (t : Task) : list ident :=
  match t with
  | TVisit n => func_ids n
  | TVisitFunc f => func_ids_of f
  | TVisitVar _ | TPop => []
  end.

Definition pending (k : list Task) : list ident := flat_map task_ids k.

(** ** The ancestor relation of the spec *)

(** "F is an ancestor of G iff following [nested_of] links from G reaches
    F in finitely many steps". *)
Inductive ancestor (nested : gmap ident ident) (F : ident) : ident -> Prop :=
| ancestor_parent G : nested !! G = Some F -> ancestor nested F G
| ancestor_link G parent :
    nested !! G = Some parent -> ancestor nested F parent -> ancestor nested F G.

(** ** The tree after the pass *)

Section MapUnless.
Context {A B : Type} (f : A -> B) (skip : A -> bool).

(** [map f] over the elements that [skip] does not hold of. *)
Fixpoint map_unless (xs : list A) : list B :=
  match xs with
  | [] => []
  | x :: xs' => if skip x then map_unless xs' else f x :: map_unless xs'
  end.
End MapUnless.

(** What [visit] does to the tree it walks, read off its [Decorator]
    case: a decorator list that is not headed by a setter loses its
    registration decorators; when none is left, the node is not walked any
    further. Everything else is as before. *)
Fixpoint after_pass (n : Node) : Node :=
  match n with
  | NameExpr _ _ => n
  | MemberExpr e name node => MemberExpr (after_pass e) name node
  | CallExpr callee args => CallExpr (after_pass callee) (map after_pass args)
  | FuncDef item => FuncDef (after_pass_func item)
  | LambdaExpr item => LambdaExpr (after_pass_func item)
  | Decorator func var decorators =>
      match decorators with
      | [] => Decorator (after_pass_func func) var []
      | d0 :: _ =>
          if is_setter d0 then
            Decorator (after_pass_func func) var (map after_pass decorators)
          else
            match filter (not_register func) decorators with
            | [] => Decorator func var []
            | _ :: _ =>
                Decorator (after_pass_func func) var
                  (map_unless after_pass (is_register func) decorators)
            end
      end
  | OtherNode children => OtherNode (map after_pass children)
  end
with after_pass_func (f : FuncItem) : FuncItem :=
  match f with
  | mkFuncItem id args body =>
      mkFuncItem id
        (map (fun arg : Argument =>
                match initializer arg with
                | Some init => mkArgument (variable arg) (Some (after_pass init))
                | None => arg
                end) args)
        (map after_pass body)
  end.

(** Whether some decorator list of the tree holds a registration. *)
Fixpoint has_registration (n : Node) : bool :=
  match n with
  | NameExpr _ _ => false
  | MemberExpr e _ _ => has_registration e
  | CallExpr callee args => has_registration callee || existsb has_registration args
  | FuncDef item | LambdaExpr item => has_registration_func item
  | Decorator func _ decorators =>
      existsb (is_register func) decorators
      || has_registration_func func
      || existsb has_registration decorators
  | OtherNode children => existsb has_registration children
  end
with has_registration_func (f : FuncItem) : bool :=
  match f with
  | mkFuncItem _ args body =>
      existsb (fun arg : Argument =>
                 match initializer arg with
                 | Some init => has_registration init
                 | None => false
                 end) args
      || existsb has_registration body
  end.

(** [singledispatch_impls] only grows, and its lists only at the end. *)
Definition impls_extend (m m' : gmap ident (list (ident * ident))) : Prop :=
  forall key l, m !! key = Some l -> exists l', m' !! key = Some (l ++ l').

(** ** Relations and measures of the proofs *)

(** The indices [register_loop] appends, from position [i] on. *)
Fixpoint register_indices (func : FuncItem) (i : nat) (ds : list Node) : list nat :=
  match ds with
  | [] => []
  | d :: ds' =>
      if is_register func d then i :: register_indices func (S i) ds'
      else register_indices func (S i) ds'
  end.

(** The outcome of a computation [r] started in the configuration [c],
    on the machine: when the computation returns with state [st'] the
    machine gets to the work left [k] with the same state; when it does
    not return, the machine gets stuck. *)
Definition outcome {A} (r : option (A * PreBuildVisitor)) (c : Config)
    (k : list Task) : Prop :=
  match r with
  | Some (_, st') => steps c (k, st')
  | None => exists c', steps c c' /\ stuck c'
  end.

(** [sim m ts]: the tasks [ts] make the machine do what [m] does. *)
Definition sim {A} (m : M A) (ts : list Task) : Prop :=
  forall st k, outcome (m st) (ts ++ k, st) k.


(** [entered] is the set of the functions pushed so far and [rank] the
    depth at which each was pushed: no function of the work that is left
    is in [entered], the open functions are, and every link of
    [nested_funcs] goes from a function to one of lower rank that was
    pushed before it. *)
Record Inv (c : Config) (entered : gset ident) (rank : ident -> nat) : Prop := {
  inv_nodup : NoDup (pending c.1);
  inv_fresh : forall f, f ∈ pending c.1 -> f ∉ entered;
  inv_funcs : forall f, f ∈ funcs c.2 -> f ∈ entered;
  inv_links : forall child parent,
    nested_funcs c.2 !! child = Some parent ->
    child ∈ entered /\ parent ∈ entered /\ rank parent < rank child
}.

Definition invariant (c : Config) : Prop := exists entered rank, Inv c entered rank.

(** [unchanged_outside ids st st']: from [st] to [st'] the stack of open
    functions is the same, [singledispatch_impls] has only grown, and
    [funcs_to_decorators] is the same at every function not in [ids]. *)
Definition unchanged_outside (ids : list ident) (st st' : PreBuildVisitor) : Prop :=
  funcs st' = funcs st
  /\ impls_extend (singledispatch_impls st) (singledispatch_impls st')
  /\ forall f0, f0 ∉ ids ->
       funcs_to_decorators st' !! f0 = funcs_to_decorators st !! f0.

(** ** Example source units *)

(** [def outer(): x = 1; def inner(): return x]. The assignment and the
    return statement are [OtherNode]s; the assignment has its right-hand
    side visited before its target. *)
Definition closure_unit (outer inner x : ident) : Node :=
  OtherNode
    [FuncDef
       (mkFuncItem outer []
          [OtherNode [OtherNode []; NameExpr "x" (Some (VarSym x))];
           FuncDef
             (mkFuncItem inner [] [OtherNode [NameExpr "x" (Some (VarSym x))]])])].

(** [@d1 @f.register(int) def g(arg): ...], with [f] a decorated
    dispatcher and [int] a class. [f] is function 1, [g] function 2, [int]
    class 7. *)
Definition register_call : Node :=
  CallExpr (MemberExpr (NameExpr "f" (Some (DecoratorSym 1))) "register" None)
           [NameExpr "int" (Some (TypeInfoSym 7))].

Definition decorated_g (decorators : list Node) : Node :=
  Decorator (mkFuncItem 2 [mkArgument (mkVar 20 None) None] [])
            (mkVar 21 None) decorators.

Definition registered_unit : Node :=
  OtherNode [decorated_g [NameExpr "d1" None; register_call]].

(** [def h(): @f.register(int) def g(arg): ...], with [h] function 5. *)
Definition nested_registered_unit : Node :=
  OtherNode [FuncDef (mkFuncItem 5 [] [decorated_g [register_call]])].

(** [x.setter], the head decorator of a property setter. *)
Definition setter_access : Node :=
  MemberExpr (NameExpr "x" None) "setter" None.

(** The state inside function 2, nested in function 1 which owns
    variable 10. *)
Definition inner_open_state : PreBuildVisitor :=
  mkPreBuildVisitor ∅ {[VarSym 10 := 1%positive]} [1%positive; 2%positive] ∅
    {[1%positive := [2%positive]]} {[2%positive := 1%positive]} ∅ ∅.

(** ** Notions used in the further facts *)

(** What one move of the machine does to the state: a symbol is visited,
    a function is entered, the stack is popped, or the maps of the
    nesting and of the free variables are left alone. *)
Inductive effect (k : list Task) (st st' : PreBuildVisitor) : Prop :=
| effect_symbol symbol u :
    visit_symbol_node symbol st = Some (u, st') -> effect k st st'
| effect_enter f k' :
    k = TVisitFunc f :: k' -> st' = enter_func (func_id f) st -> effect k st st'
| effect_leave : st' = leave_func st -> effect k st st'
| effect_other :
    funcs st' = funcs st -> nested_funcs st' = nested_funcs st ->
    encapsulating_funcs st' = encapsulating_funcs st ->
    free_variables st' = free_variables st ->
    symbols_to_funcs st' = symbols_to_funcs st -> effect k st st'.

(** [encapsulating_funcs] is the inverse of [nested_funcs], and lists
    every nested function once. *)
Definition children_inverse (st : PreBuildVisitor) : Prop :=
  (forall child parent,
     nested_funcs st !! child = Some parent <->
     exists children, encapsulating_funcs st !! parent = Some children
                      /\ child ∈ children)
  /\ (forall parent children,
        encapsulating_funcs st !! parent = Some children -> NoDup children).

(** The stack of open functions is a chain of [nested_funcs] links that
    starts at a function without parent. *)
Definition stack_chain (st : PreBuildVisitor) : Prop :=
  NoDup (funcs st)
  /\ (forall f, funcs st !! 0 = Some f -> nested_funcs st !! f = None)
  /\ (forall i parent child,
        funcs st !! i = Some parent -> funcs st !! S i = Some child ->
        nested_funcs st !! child = Some parent).

(** Only functions that have a nested function have free variables, and
    a free variable of a function is owned by that function or by one
    that encloses it. *)
Definition free_variables_sound (st : PreBuildVisitor) : Prop :=
  forall F vars,
    free_variables st !! F = Some vars ->
    (exists child, nested_funcs st !! child = Some F)
    /\ (forall symbol, symbol ∈ vars ->
        exists owner, symbols_to_funcs st !! symbol = Some owner
                      /\ (owner = F \/ ancestor (nested_funcs st) owner F)).

(** Free variables and owners are never taken back. *)
Definition symbols_grow (st st' : PreBuildVisitor) : Prop :=
  (forall F vars,
     free_variables st !! F = Some vars ->
     exists vars', free_variables st' !! F = Some vars' /\ vars ⊆ vars')
  /\ (forall symbol,
        is_Some (symbols_to_funcs st !! symbol) ->
        is_Some (symbols_to_funcs st' !! symbol)).

(** The registrations among [ds] whose dispatcher is [key], as the pairs
    the loop of [visit_decorator] appends, in the order of the decorators. *)
Definition registrations (func : FuncItem) (key : ident) (ds : list Node)
    : list (ident * ident) :=
  omap (fun d =>
          match get_singledispatch_register_call_info d func with
          | Some impl =>
              if decide (singledispatch_func impl = key)
              then Some (dispatch_type impl, func_id func) else None
          | None => None
          end) ds.

(** ** Source units with a closure *)




















End PreBuild.

(* ===================================================================== *)
(** * Facts about the translator                                          *)
(* ===================================================================== *)

Module ExprToTypeFacts.
Import ExprToType.

Section Facts.
Variable parse_type_string : string -> string -> Z -> Z -> bool -> ProperType.

Abbreviation translate := (expr_to_unanalyzed_type parse_type_string).

(** The subscription case in the shape of the source: [args] is computed
    first, then either [args[0]] is translated (Annotated) or all of
    [args] are. *)
Lemma translate_IndexExpr c base index options parent :
  translate (IndexExpr c base index) options parent =
    (b ← translate base options (Some (IndexExpr c base index));
     match b with
     | UnboundType bname bargs bline bcolumn bempty =>
         if bool_decide (bargs ≠ []) then Raise TypeTranslationError
         else if is_annotated_ref base then
           match index_args index with
           | [] => Raise IndexError
           | a :: _ => translate a options (Some (IndexExpr c base index))
           end
         else
           new_args ← map_result
                        (fun a => translate a options (Some (IndexExpr c base index)))
                        (index_args index);
           Ok (UnboundType bname new_args bline bcolumn
                 (if bool_decide (new_args = []) then true else bempty))
     | _ => Raise TypeTranslationError
     end).
Proof.
  cbn [expr_to_unanalyzed_type].
  destruct (translate base options (Some (IndexExpr c base index))) as [b|x];
    [|reflexivity].
  cbn [mbind result_bind].
  destruct b as [n bargs l col e| | | | | |]; try reflexivity.
  destruct bargs as [|b0 bargs]; [|reflexivity].
  rewrite bool_decide_eq_false_2 by (intros H; apply H; reflexivity).
  destruct (is_annotated_ref base).
  - destruct index; reflexivity.
  - assert (Hfinal : forall r : result (list ProperType),
      (new_args ← r;
       Ok (UnboundType n new_args l col
             match new_args with [] => true | _ :: _ => e end)) =
      (new_args ← r;
       Ok (UnboundType n new_args l col
             (if bool_decide (new_args = []) then true else e)))).
    { intros [[|t ts]|x]; reflexivity. }
    rewrite Hfinal. clear Hfinal.
    destruct index; cbn [index_args map_result]; try reflexivity;
      match goal with
      | |- context [translate ?e options ?p] =>
          destruct (translate e options p); reflexivity
      end.
Qed.


(** ** Re-subscription (claim C2) *)

(** The guard of the subscription case: a base with at least one
    argument is rejected. *)
Lemma resubscription_with_args_raises c base index options parent
    bname b0 bargs bline bcolumn bempty :
  translate base options (Some (IndexExpr c base index)) =
    Ok (UnboundType bname (b0 :: bargs) bline bcolumn bempty) ->
  translate (IndexExpr c base index) options parent = Raise TypeTranslationError.
Proof.
  intros Hb. rewrite translate_IndexExpr, Hb. reflexivity.
Qed.

(** The example of the spec, [A[int][str]], is rejected. *)
Lemma resubscription_example c1 c2 c3 c4 c5 options parent :
  translate
    (IndexExpr c1 (IndexExpr c2 (NameExpr c3 "A" None) (NameExpr c4 "int" None))
               (NameExpr c5 "str" None)) options parent
  = Raise TypeTranslationError.
Proof. reflexivity. Qed.

(** C2 (the code at the failing input): [A[()][str]] re-subscripts a
    descriptor that was already subscripted, by the empty tuple, and the
    translator accepts it: the guard looks at [args] only, which the
    empty-tuple subscription left empty. The result carries one argument
    and still has [empty_tuple_index] set. *)
Theorem C2_resubscription_after_empty_tuple_accepted c1 c2 c3 c4 c5 options parent :
  expr_to_unanalyzed_type parse_type_string
    (IndexExpr c2 (NameExpr c3 "A" None) (TupleExpr c4 [])) options
    (Some (IndexExpr c1 (IndexExpr c2 (NameExpr c3 "A" None) (TupleExpr c4 []))
                     (NameExpr c5 "str" None)))
    = Ok (UnboundType "A" [] (line c3) (column c3) true)
  /\ expr_to_unanalyzed_type parse_type_string
       (IndexExpr c1 (IndexExpr c2 (NameExpr c3 "A" None) (TupleExpr c4 []))
                  (NameExpr c5 "str" None)) options parent
     = Ok (UnboundType "A" [UnboundType "str" [] (line c5) (column c5) false]
             (line c3) (column c3) true).
Proof. split; reflexivity. Qed.

(** ** Infix union (claim C3) *)

Lemma union_syntax_enabled_spec options :
  union_syntax_enabled options = true <->
  exists o, options = Some o /\
    ((3 < (python_version o).1)%Z \/
     ((python_version o).1 = 3%Z /\ (10 <= (python_version o).2)%Z)).
Proof.
  destruct options as [[[major minor]]|]; cbn.
  - unfold version_ge; cbn. split.
    + intros H. exists (mkOptions (major, minor)). split; [reflexivity|]. cbn. lia.
    + intros (o & [= <-] & H). cbn in H. lia.
  - split; [discriminate|]. intros (o & H & _). discriminate.
Qed.

(** C3: for all operands [l] and [r], translating [l | r] yields
    [UnionType([translate(l), translate(r)])] (an exception of an operand
    propagating, left operand first) when a language version
    [(major, minor)] is supplied and is at least (3, 10) in the order of
    Python's tuples; with no version, or with a version below (3, 10), it
    raises [TypeTranslationError]. Hence, for operands that translate to
    [tl] and [tr], the translation succeeds, with [UnionType([tl, tr])],
    exactly when a version is supplied and is at least (3, 10). *)
Theorem C3_infix_union_version_gate c l r options parent :
  (forall major minor,
     options = Some (mkOptions (major, minor)) ->
     (3 < major \/ (major = 3 /\ 10 <= minor))%Z ->
     expr_to_unanalyzed_type parse_type_string (OpExpr c "|" l r) options parent =
       (tl ← translate l options None;
        tr ← translate r options None;
        Ok (UnionType [tl; tr])))
  /\ (options = None ->
      expr_to_unanalyzed_type parse_type_string (OpExpr c "|" l r) options parent
        = Raise TypeTranslationError)
  /\ (forall major minor,
        options = Some (mkOptions (major, minor)) ->
        (major < 3 \/ (major = 3 /\ minor < 10))%Z ->
        expr_to_unanalyzed_type parse_type_string (OpExpr c "|" l r) options parent
          = Raise TypeTranslationError)
  /\ (forall tl tr,
        translate l options None = Ok tl ->
        translate r options None = Ok tr ->
        (expr_to_unanalyzed_type parse_type_string (OpExpr c "|" l r) options parent
           = Ok (UnionType [tl; tr])
         <-> exists major minor,
               options = Some (mkOptions (major, minor))
               /\ (3 < major \/ (major = 3 /\ 10 <= minor))%Z)
        /\ (succeeds
              (expr_to_unanalyzed_type parse_type_string (OpExpr c "|" l r)
                 options parent)
            <-> exists major minor,
                  options = Some (mkOptions (major, minor))
                  /\ (3 < major \/ (major = 3 /\ 10 <= minor))%Z)).
Proof.
  assert (Hgate : union_syntax_enabled options = true <->
            exists major minor,
              options = Some (mkOptions (major, minor))
              /\ (3 < major \/ (major = 3 /\ 10 <= minor))%Z).
  { rewrite union_syntax_enabled_spec. split.
    - intros ([[major minor]] & -> & H). by exists major, minor.
    - intros (major & minor & -> & H). by eexists. }
  cbn [expr_to_unanalyzed_type].
  rewrite bool_decide_eq_true_2 by reflexivity. cbn [andb].
  split; [|split; [|split]].
  - intros major minor Ho Hv.
    assert (Hon : union_syntax_enabled options = true) by (apply Hgate; eauto).
    by rewrite Hon.
  - intros ->. reflexivity.
  - intros major minor Ho Hv.
    assert (Hoff : union_syntax_enabled options = false).
    { apply not_true_is_false. intros Hon.
      apply Hgate in Hon as (major' & minor' & Ho' & Hv').
      rewrite Ho in Ho'. injection Ho' as <- <-. lia. }
    by rewrite Hoff.
  - intros tl tr Hl Hr. rewrite Hl, Hr. rewrite <- Hgate.
    destruct (union_syntax_enabled options); cbn.
    + split; split; try reflexivity. intros _. eexists; reflexivity.
    + split; split; try discriminate. intros [a Ha]. discriminate.
Qed.

(** ** Subscription by a tuple (claim C4) *)


(** ** Unary minus (claim C5) *)

(** The unary case in one equation: the operand is translated first (its
    exception propagates), and the result is negated when it is a
    [RawExpressionType] whose literal passes [isinstance(_, int)] and the
    operator is [-]. *)
Lemma translate_UnaryExpr c op e options parent :
  translate (UnaryExpr c op e) options parent =
    (typ ← translate e options None;
     match typ with
     | RawExpressionType lv b l col =>
         if isinstance_int lv && bool_decide (op = "-")
         then Ok (RawExpressionType (times_minus_one lv) b l col)
         else Raise TypeTranslationError
     | _ => Raise TypeTranslationError
     end).
Proof. reflexivity. Qed.

Lemma times_minus_one_int z :
  times_minus_one (Some (LitInt z)) = Some (LitInt (- z)).
Proof. unfold times_minus_one. do 2 f_equal. lia. Qed.

(** [-True]: Python's [bool] is an [int], so the literal is negated to
    the integer [-1] while the base type name stays [builtins.bool]. *)
Remark negated_True c c0 fn options parent :
  translate (UnaryExpr c "-" (NameExpr c0 "True" fn)) options parent =
    Ok (RawExpressionType (Some (LitInt (-1))) "builtins.bool" (line c0) (column c0)).
Proof. reflexivity. Qed.

(** C5, as amended: [-IntLiteral(v)] translates to the integer literal
    [-v]; more generally [-e] succeeds whenever [e] translates to a
    [RawExpressionType] holding an integer [n], and yields the same
    descriptor holding [-n] (so a doubly negated literal is accepted).
    Every other operator fails, and so does every operand whose
    translation raises or is not a [RawExpressionType] holding an integer
    or a boolean (a float literal, for one). *)
Theorem C5_unary_minus_on_integer_literal c op e options parent :
  (forall c' v,
     translate (UnaryExpr c "-" (IntExpr c' v)) options parent =
       Ok (RawExpressionType (Some (LitInt (- v))) "builtins.int" (line c') (column c')))
  /\ (forall n b l col,
       translate e options None = Ok (RawExpressionType (Some (LitInt n)) b l col) ->
       translate (UnaryExpr c "-" e) options parent =
         Ok (RawExpressionType (Some (LitInt (- n))) b l col))
  /\ (op ≠ "-" -> ¬ succeeds (translate (UnaryExpr c op e) options parent))
  /\ (forall x, translate e options None = Raise x ->
       translate (UnaryExpr c op e) options parent = Raise x)
  /\ (forall t, translate e options None = Ok t ->
       (forall lv b l col, t = RawExpressionType lv b l col -> isinstance_int lv = false) ->
       translate (UnaryExpr c op e) options parent = Raise TypeTranslationError)
  /\ (forall c',
       translate (UnaryExpr c op (FloatExpr c')) options parent
         = Raise TypeTranslationError).
Proof.
  repeat split.
  - intros c' v. rewrite translate_UnaryExpr.
    cbn -[times_minus_one]. rewrite times_minus_one_int. reflexivity.
  - intros n b l col He. rewrite translate_UnaryExpr, He.
    cbn -[times_minus_one]. rewrite times_minus_one_int. reflexivity.
  - intros Hop [a Ha]. rewrite translate_UnaryExpr in Ha.
    destruct (translate e options None) as [t|x]; [|discriminate].
    destruct t; try discriminate.
    cbn [mbind result_bind] in Ha.
    rewrite (bool_decide_eq_false_2 _ Hop), andb_false_r in Ha. discriminate.
  - intros x He. rewrite translate_UnaryExpr, He. reflexivity.
  - intros t He Ht. rewrite translate_UnaryExpr, He. cbn.
    destruct t; try reflexivity.
    rewrite (Ht _ _ _ _ eq_refl). reflexivity.
Qed.

(** ** CallableArgument construction (claim C6) *)

(** A second [type=] keyword is always rejected: the loop variable [typ]
    is no longer the default once a type has been supplied. *)
Lemma loop_second_type_raises tr arg_names i arg rest name t :
  arg_names !! i = Some (Some "type") ->
  callable_argument_loop tr arg_names i (arg :: rest) name (Some t)
    = Raise TypeTranslationError.
Proof. intros H. cbn. rewrite H. reflexivity. Qed.

(** A second [name=] keyword is rejected when the name held so far is a
    string. *)
Lemma loop_second_name_raises tr arg_names i arg rest n typ :
  arg_names !! i = Some (Some "name") ->
  callable_argument_loop tr arg_names i (arg :: rest) (Some n) typ
    = Raise TypeTranslationError.
Proof. intros H. cbn. rewrite H. reflexivity. Qed.

(** A positional argument at position 2 or later is rejected. *)
Lemma loop_third_positional_raises tr arg_names i arg rest name typ :
  arg_names !! i = Some None -> 2 <= i ->
  callable_argument_loop tr arg_names i (arg :: rest) name typ
    = Raise TypeTranslationError.
Proof.
  intros H Hi. cbn. rewrite H.
  destruct i as [|[|i]]; [lia | lia | reflexivity].
Qed.

(** C6 (the code at the failing input): in [[Arg(int, None, name="y")]]
    the argument name is supplied twice, at position 1 and by keyword.
    The duplicate test is [name is not None], and the name extracted
    from the literal [None] is [None] itself, so the second name is
    accepted and overrides the first. *)
Theorem C6_second_name_after_None_accepted c c1 c2 c3 c4 c5 options parent :
  expr_to_unanalyzed_type parse_type_string
    (ListExpr c
       [CallExpr c1 (NameExpr c2 "Arg" None)
          [NameExpr c3 "int" None; NameExpr c4 "None" None; StrExpr c5 "y" true]
          [None; None; Some "name"]]) options parent
  = Ok (TypeList
          [CallableArgument (UnboundType "int" [] (line c3) (column c3) false)
             (Some "y") "Arg" (line c1) (column c1)]
          (line c) (column c)).
Proof. reflexivity. Qed.

(** The same call with a string at position 1 is rejected, as is a type
    supplied at position 0 and again by keyword. *)
Remark second_name_after_string_raises c c1 c2 c3 c4 c5 options parent :
  translate
    (ListExpr c
       [CallExpr c1 (NameExpr c2 "Arg" None)
          [NameExpr c3 "int" None; StrExpr c4 "x" true; StrExpr c5 "y" true]
          [None; None; Some "name"]]) options parent
  = Raise TypeTranslationError
  /\ translate
       (ListExpr c
          [CallExpr c1 (NameExpr c2 "Arg" None)
             [NameExpr c3 "int" None; NameExpr c4 "str" None]
             [None; Some "type"]]) options parent
     = Raise TypeTranslationError.
Proof. split; reflexivity. Qed.

End Facts.


(** Witness of C3: [int | str] translates under version (3, 10), and
    raises under version (3, 9) and with no version. *)
Lemma C3_infix_union_version_gate_witness :
  expr_to_unanalyzed_type parse_type_string_raw
    (OpExpr (at_ 1 0) "|" (NameExpr (at_ 1 0) "int" None) (NameExpr (at_ 1 6) "str" None))
    (Some (mkOptions (3, 10)%Z)) None
  = Ok (UnionType [UnboundType "int" [] 1 0 false; UnboundType "str" [] 1 6 false])
  /\ expr_to_unanalyzed_type parse_type_string_raw
       (OpExpr (at_ 1 0) "|" (NameExpr (at_ 1 0) "int" None) (NameExpr (at_ 1 6) "str" None))
       (Some (mkOptions (3, 9)%Z)) None
     = Raise TypeTranslationError
  /\ expr_to_unanalyzed_type parse_type_string_raw
       (OpExpr (at_ 1 0) "|" (NameExpr (at_ 1 0) "int" None) (NameExpr (at_ 1 6) "str" None))
       None None
     = Raise TypeTranslationError.
Proof.
  split; [|split].
  - apply (proj1 (proj2 (proj2 (proj2
             (C3_infix_union_version_gate parse_type_string_raw (at_ 1 0)
                (NameExpr (at_ 1 0) "int" None) (NameExpr (at_ 1 6) "str" None)
                (Some (mkOptions (3, 10)%Z)) None)))
             _ _ eq_refl eq_refl)).
    exists 3%Z, 10%Z. split; [reflexivity | lia].
  - apply (proj1 (proj2 (proj2
             (C3_infix_union_version_gate parse_type_string_raw (at_ 1 0)
                (NameExpr (at_ 1 0) "int" None) (NameExpr (at_ 1 6) "str" None)
                (Some (mkOptions (3, 9)%Z)) None))) 3%Z 9%Z eq_refl).
    lia.
  - apply (proj1 (proj2
             (C3_infix_union_version_gate parse_type_string_raw (at_ 1 0)
                (NameExpr (at_ 1 0) "int" None) (NameExpr (at_ 1 6) "str" None)
                None None)) eq_refl).
Defined.

(** C5 as stated fails: [-(-5)] is not of the form [-IntLiteral], and the
    translator returns the literal [5] for it. *)
Lemma C5_counterexample :
  ¬ (forall pts c op e options parent,
       (forall c' v, ¬ (op = "-" /\ e = IntExpr c' v)) ->
       expr_to_unanalyzed_type pts (UnaryExpr c op e) options parent
         = Raise TypeTranslationError).
Proof.
  intros H.
  specialize (H parse_type_string_raw (at_ 1 0) "-"
                (UnaryExpr (at_ 1 1) "-" (IntExpr (at_ 1 2) 5)) None None).
  assert (Hform : forall c' v,
            ¬ ("-" = "-" /\ UnaryExpr (at_ 1 1) "-" (IntExpr (at_ 1 2) 5) = IntExpr c' v))
    by (intros c' v [_ Habs]; discriminate).
  specialize (H Hform). vm_compute in H. discriminate.
Qed.

(** Witness of C5: the operand [-5] translates to an integer literal, so
    [-(-5)] translates to the literal [5]. *)
Lemma C5_unary_minus_on_integer_literal_witness :
  expr_to_unanalyzed_type parse_type_string_raw
    (UnaryExpr (at_ 1 0) "-" (UnaryExpr (at_ 1 1) "-" (IntExpr (at_ 1 2) 5))) None None
  = Ok (RawExpressionType (Some (LitInt (- -5))) "builtins.int" 1 2).
Proof.
  apply (proj1 (proj2 (C5_unary_minus_on_integer_literal parse_type_string_raw
                         (at_ 1 0) "-" (UnaryExpr (at_ 1 1) "-" (IntExpr (at_ 1 2) 5))
                         None None))).
  reflexivity.
Defined.

End ExprToTypeFacts.

(* ===================================================================== *)
(** * Facts about the pre-build visitor                                   *)
(* ===================================================================== *)

Module PreBuildFacts.
Import PreBuild.
Local Open Scope list_scope.

(** ** The decorator list after the deletions *)


Lemma for_each_unless_filter {A B} (f : A -> M B) (skip : A -> bool) (xs : list A) st :
  for_each_unless f skip xs st = for_each f (filter (fun x => skip x = false) xs) st.
Proof.
  revert st. induction xs as [|x xs IH]; intros st; [reflexivity|].
  cbn [for_each_unless]. destruct (skip x) eqn:Hx.
  - rewrite filter_cons_False by (rewrite Hx; discriminate). apply IH.
  - rewrite filter_cons_True by assumption. cbn [for_each].
    unfold mbind, M_bind. destruct (f x st) as [[y st1]|]; [|reflexivity].
    rewrite IH. reflexivity.
Qed.

Lemma is_register_Some func d impl :
  get_singledispatch_register_call_info d func = Some impl -> is_register func d = true.
Proof. intros H. unfold is_register. rewrite H. apply bool_decide_eq_true_2. eauto. Qed.

Lemma is_register_None func d :
  get_singledispatch_register_call_info d func = None -> is_register func d = false.
Proof.
  intros H. unfold is_register. rewrite H.
  apply bool_decide_eq_false_2. intros [x Hx]. discriminate.
Qed.

Lemma register_loop_removed func i ds impls removed :
  (register_loop func i ds impls removed).2 = removed ++ register_indices func i ds.
Proof.
  revert i impls removed. induction ds as [|d ds IH]; intros i impls removed.
  - cbn. by rewrite app_nil_r.
  - cbn [register_loop register_indices].
    destruct (get_singledispatch_register_call_info d func) as [impl|] eqn:Hd.
    + rewrite (is_register_Some _ _ _ Hd), IH, <- app_assoc. reflexivity.
    + rewrite (is_register_None _ _ Hd). apply IH.
Qed.

Lemma delete_reversed_indices func pre ds :
  delete_reversed (register_indices func (length pre) ds) (pre ++ ds)
    = pre ++ filter (not_register func) ds.
Proof.
  unfold delete_reversed.
  revert pre. induction ds as [|d ds IH]; intros pre; [reflexivity|].
  cbn [register_indices].
  assert (Hpre : S (length pre) = length (pre ++ [d]))
    by (rewrite length_app; cbn; lia).
  destruct (is_register func d) eqn:Hd.
  - cbn [rev]. rewrite fold_left_app. cbn [fold_left].
    rewrite Hpre, (cons_middle d pre ds), app_assoc, IH, <- app_assoc.
    cbn [app].
    rewrite filter_cons_False by (rewrite Hd; discriminate).
    clear. induction pre as [|p pre IHp]; [reflexivity|].
    cbn. f_equal. apply IHp.
  - rewrite Hpre, (cons_middle d pre ds), app_assoc, IH, <- app_assoc.
    cbn [app]. rewrite filter_cons_True by assumption. reflexivity.
Qed.

(** After the loop of deletions the list holds, in their order, the
    decorators that are not registrations. *)
Lemma remaining_decorators func ds impls :
  delete_reversed (register_loop func 0 ds impls []).2 ds = filter (not_register func) ds.
Proof.
  rewrite register_loop_removed. cbn [app].
  apply (delete_reversed_indices func [] ds).
Qed.

(** The [Decorator] case of [visit] is [visit_decorator]. *)
Lemma visit_Decorator func var decorators st :
  visit (Decorator func var decorators) st
    = visit_decorator visit visit_func func var decorators st.
Proof.
  cbn [visit]. unfold visit_decorator.
  destruct decorators as [|d0 ds]; [reflexivity|].
  destruct (is_setter d0); [reflexivity|].
  pose proof (remaining_decorators func (d0 :: ds) (singledispatch_impls st)) as Hrem.
  destruct (register_loop func 0 (d0 :: ds) (singledispatch_impls st) [])
    as [impls removed] eqn:Hloop.
  cbn [snd] in Hrem.
  destruct (delete_reversed removed (d0 :: ds)) as [|r rs] eqn:Hdel; [reflexivity|].
  unfold super_visit_decorator, mbind, M_bind.
  destruct (visit_func func _) as [[func' st2]|]; [|reflexivity].
  destruct (visit_var var st2) as [[[] st3]|]; [|reflexivity].
  rewrite for_each_unless_filter, <- Hrem. reflexivity.
Qed.

(** ** Induction on syntax trees *)

Section NodeInduction.
Variables (P : Node -> Prop) (Q : FuncItem -> Prop).
Hypothesis HName : forall name node, P (NameExpr name node).
Hypothesis HMember : forall e name node, P e -> P (MemberExpr e name node).
Hypothesis HCall : forall callee args,
  P callee -> Forall P args -> P (CallExpr callee args).
Hypothesis HFuncDef : forall item, Q item -> P (FuncDef item).
Hypothesis HLambda : forall item, Q item -> P (LambdaExpr item).
Hypothesis HDecorator : forall func var decorators,
  Q func -> Forall P decorators -> P (Decorator func var decorators).
Hypothesis HOther : forall children, Forall P children -> P (OtherNode children).
Hypothesis HFunc : forall id args body,
  Forall (fun arg : Argument =>
            forall init, initializer arg = Some init -> P init) args ->
  Forall P body -> Q (mkFuncItem id args body).

Fixpoint node_ind (n : Node) : P n :=
  let all := fix all (l : list Node) : Forall P l :=
    match l with
    | [] => List.Forall_nil P
    | x :: l' => List.Forall_cons P x l' (node_ind x) (all l')
    end in
  match n with
  | NameExpr name node => HName name node
  | MemberExpr e name node => HMember e name node (node_ind e)
  | CallExpr callee args => HCall callee args (node_ind callee) (all args)
  | FuncDef item => HFuncDef item (func_item_ind item)
  | LambdaExpr item => HLambda item (func_item_ind item)
  | Decorator func var ds => HDecorator func var ds (func_item_ind func) (all ds)
  | OtherNode children => HOther children (all children)
  end
with func_item_ind (f : FuncItem) : Q f :=
  let all := fix all (l : list Node) : Forall P l :=
    match l with
    | [] => List.Forall_nil P
    | x :: l' => List.Forall_cons P x l' (node_ind x) (all l')
    end in
  match f with
  | mkFuncItem id args body =>
      HFunc id args body
        ((fix all_args (l : list Argument)
            : Forall (fun arg : Argument =>
                        forall init, initializer arg = Some init -> P init) l :=
            match l with
            | [] => List.Forall_nil _
            | arg :: l' =>
                List.Forall_cons _ arg l'
                  (match arg as a return
                         forall init, initializer a = Some init -> P init with
                   | mkArgument v (Some i) =>
                       fun init (H : Some i = Some init) =>
                         eq_ind i P (node_ind i) init
                           (f_equal (fun o => match o with Some x => x | None => i end) H)
                   | mkArgument v None =>
                       fun init (H : None = Some init) =>
                         False_ind _ (eq_ind None
                           (fun o : option Node =>
                              match o with None => True | Some _ => False end)
                           I (Some init) H)
                   end)
                  (all_args l')
            end) args)
        (all body)
  end.

Lemma node_func_item_ind : (forall n, P n) /\ (forall f, Q f).
Proof. split; [exact node_ind | exact func_item_ind]. Qed.
End NodeInduction.

(** ** The machine and the recursive visitor agree *)

Lemma steps_trans c1 c2 c3 : steps c1 c2 -> steps c2 c3 -> steps c1 c3.
Proof.
  induction 1 as [|c c' c'' Hstep _ IH]; [done|].
  intros H. eapply steps_step; [exact Hstep | exact (IH H)].
Qed.

Lemma steps_one c c' : step c = Some c' -> steps c c'.
Proof. intros H. eapply steps_step; [exact H | apply steps_refl]. Qed.

Lemma outcome_step {A} (r : option (A * PreBuildVisitor)) c c' k :
  step c = Some c' -> outcome r c' k -> outcome r c k.
Proof.
  intros Hstep. unfold outcome. destruct r as [[a st']|].
  - intros H. eapply steps_step; eauto.
  - intros (c'' & H & Hstuck). exists c''. split; [|done].
    eapply steps_step; eauto.
Qed.

Lemma sim_ret {A} (a : A) : sim (mret a) [].
Proof. intros st k. cbn. apply steps_refl. Qed.

Lemma sim_bind {A B} (m : M A) (f : A -> M B) ts1 ts2 :
  sim m ts1 -> (forall a, sim (f a) ts2) -> sim (m ≫= f) (ts1 ++ ts2).
Proof.
  intros Hm Hf st k. unfold mbind, M_bind.
  specialize (Hm st (ts2 ++ k)). rewrite <- app_assoc.
  destruct (m st) as [[a st1]|]; cbn in Hm |- *.
  - specialize (Hf a st1 k).
    destruct (f a st1) as [[b st2]|]; cbn in Hf |- *.
    + eapply steps_trans; eauto.
    + destruct Hf as (c' & H & Hstuck). exists c'. split; [|done].
      eapply steps_trans; eauto.
  - exact Hm.
Qed.

Lemma sim_bind_nil_r {A B} (m : M A) (f : A -> M B) ts :
  sim m ts -> (forall a, sim (f a) []) -> sim (m ≫= f) ts.
Proof. intros Hm Hf. rewrite <- (app_nil_r ts). by apply sim_bind. Qed.

Lemma sim_modify f t :
  (forall st k, step (t :: k, st) = Some (k, f st)) -> sim (modify f) [t].
Proof. intros H st k. cbn. apply steps_one, H. Qed.

Lemma sim_visit_var v : sim (visit_var v) [TVisitVar v].
Proof.
  intros st k. cbn [app]. unfold outcome.
  destruct (visit_var v st) as [[[] st']|] eqn:Hv.
  - apply steps_one. unfold step. cbn [fst snd]. by rewrite Hv.
  - exists (TVisitVar v :: k, st). split; [apply steps_refl|].
    split; [done|]. unfold step. cbn [fst snd]. by rewrite Hv.
Qed.

Lemma sim_for_each {A B} (f : A -> M B) (task : A -> list Task) xs :
  Forall (fun x => sim (f x) (task x)) xs ->
  sim (for_each f xs) (flat_map task xs).
Proof.
  induction 1 as [|x xs Hx _ IH]; cbn [for_each flat_map].
  - apply sim_ret.
  - apply sim_bind; [exact Hx|]. intros y.
    apply sim_bind_nil_r; [exact IH|]. intros ys. apply sim_ret.
Qed.

Lemma flat_map_singleton {A B} (f : A -> B) (xs : list A) :
  flat_map (fun x => [f x]) xs = map f xs.
Proof. induction xs as [|x xs IH]; [done|]. cbn. by rewrite IH. Qed.

Lemma sim_for_each_visit (f : Node -> M Node) xs :
  Forall (fun x => sim (f x) [TVisit x]) xs ->
  sim (for_each f xs) (map TVisit xs).
Proof.
  intros H. rewrite <- flat_map_singleton. by apply sim_for_each.
Qed.

Lemma initializer_tasks_flat_map (args : list Argument) :
  initializer_tasks args
    = flat_map (fun arg : Argument =>
                  match initializer arg with
                  | Some init => [TVisit init]
                  | None => []
                  end) args.
Proof.
  unfold initializer_tasks.
  induction args as [|arg args IH]; [done|].
  cbn. destruct (initializer arg); cbn; by rewrite IH.
Qed.

Section Simulation.
Local Abbreviation P := (fun n : Node => sim (visit n) [TVisit n]).
Local Abbreviation Q := (fun f : FuncItem => sim (visit_func f) [TVisitFunc f]).

Lemma sim_super_visit_decorator func var ds :
  Q func -> Forall P ds ->
  sim (super_visit_decorator visit visit_func func var ds)
      (super_visit_decorator_tasks func var ds).
Proof.
  intros Hf Hds. unfold super_visit_decorator, super_visit_decorator_tasks.
  change (TVisitFunc func :: TVisitVar var :: map TVisit ds)
    with ([TVisitFunc func] ++ [TVisitVar var] ++ map TVisit ds).
  apply sim_bind; [exact Hf|]. intros func'.
  apply sim_bind; [apply sim_visit_var|]. intros _.
  apply sim_bind_nil_r; [by apply sim_for_each_visit|]. intros ds'.
  apply sim_ret.
Qed.

Lemma visit_steps_both : (forall n, P n) /\ (forall f, Q f).
Proof.
  apply node_func_item_ind; cbn beta.
  - (* NameExpr *)
    intros name node st k. cbn [app visit]. unfold mbind, M_bind, outcome.
    destruct (visit_name_expr node st) as [[[] st']|] eqn:Hv; cbn.
    + apply steps_one. unfold step. cbn [fst snd]. by rewrite Hv.
    + exists (TVisit (NameExpr name node) :: k, st). split; [apply steps_refl|].
      split; [done|]. unfold step. cbn [fst snd]. by rewrite Hv.
  - (* MemberExpr *)
    intros e name node IH st k. cbn [app].
    eapply outcome_step; [reflexivity|].
    cbn [visit]. apply (sim_bind_nil_r _ _ [TVisit e]); [exact IH|].
    intros e'. apply sim_ret.
  - (* CallExpr *)
    intros callee args IHc IHa st k. cbn [app].
    eapply outcome_step; [reflexivity|]. cbn [visit].
    change (map TVisit args ++ TVisit callee :: k)
      with (map TVisit args ++ [TVisit callee] ++ k).
    rewrite app_assoc.
    apply (sim_bind _ _ (map TVisit args) [TVisit callee]);
      [by apply sim_for_each_visit|].
    intros args'. apply sim_bind_nil_r; [exact IHc|].
    intros callee'. apply sim_ret.
  - (* FuncDef *)
    intros item IH st k. cbn [app].
    eapply outcome_step; [reflexivity|]. cbn [visit].
    apply (sim_bind_nil_r _ _ [TVisitFunc item]); [exact IH|].
    intros item'. apply sim_ret.
  - (* LambdaExpr *)
    intros item IH st k. cbn [app].
    eapply outcome_step; [reflexivity|]. cbn [visit].
    apply (sim_bind_nil_r _ _ [TVisitFunc item]); [exact IH|].
    intros item'. apply sim_ret.
  - (* Decorator *)
    intros func var ds IHf IHds st k. cbn [app].
    rewrite visit_Decorator. unfold visit_decorator.
    destruct ds as [|d0 ds'].
    { eapply outcome_step; [reflexivity|].
      by apply sim_super_visit_decorator. }
    destruct (is_setter d0) eqn:Hd0.
    { eapply outcome_step.
      { unfold step. cbn [fst snd]. rewrite Hd0. reflexivity. }
      unfold mbind, M_bind, modify.
      by apply sim_super_visit_decorator. }
    pose proof (remaining_decorators func (d0 :: ds') (singledispatch_impls st))
      as Hrem.
    destruct (register_loop func 0 (d0 :: ds') (singledispatch_impls st) [])
      as [impls removed] eqn:Hloop.
    cbn [snd] in Hrem.
    destruct (delete_reversed removed (d0 :: ds')) as [|r rs] eqn:Hdel.
    { cbn. apply steps_one. unfold step. cbn [fst snd].
      rewrite Hd0, Hloop, Hdel. reflexivity. }
    eapply outcome_step.
    { unfold step. cbn [fst snd]. rewrite Hd0, Hloop, Hdel. reflexivity. }
    apply sim_super_visit_decorator; [exact IHf|].
    rewrite Hrem. apply Forall_forall. intros d Hd.
    apply list_elem_of_filter in Hd as [_ Hd].
    revert d Hd. by apply Forall_forall.
  - (* OtherNode *)
    intros children IH st k. cbn [app].
    eapply outcome_step; [reflexivity|]. cbn [visit].
    apply sim_bind_nil_r; [by apply sim_for_each_visit|].
    intros children'. apply sim_ret.
  - (* mkFuncItem *)
    intros id args stmts IHargs IHbody st k. cbn [app].
    eapply outcome_step; [reflexivity|]. cbn [visit_func arguments body func_id].
    unfold mbind at 1, M_bind at 1, modify at 1.
    change (TPop :: k) with ([TPop] ++ k).
    rewrite !app_assoc, <- (app_assoc _ _ [TPop]), <- (app_assoc _ _ (_ ++ [TPop])).
    apply sim_bind.
    { rewrite initializer_tasks_flat_map. apply sim_for_each.
      eapply Forall_impl; [exact IHargs|]. intros arg Harg. cbn beta in *.
      destruct (initializer arg) as [init|].
      - apply sim_bind_nil_r; [by apply Harg|]. intros init'. apply sim_ret.
      - apply sim_ret. }
    intros args'. apply sim_bind.
    { rewrite <- flat_map_singleton. apply sim_for_each.
      apply Forall_forall. intros arg _. apply sim_visit_var. }
    intros _. apply sim_bind; [by apply sim_for_each_visit|].
    intros body'. apply sim_bind_nil_r.
    { apply sim_modify. reflexivity. }
    intros _. apply sim_ret.
Qed.
End Simulation.

(** Whatever work [k] is left: when [visit n] returns from the state
    [st] with the state [st'], the machine gets from [TVisit n :: k] and
    [st] to [k] and [st']; when it does not return, the machine gets
    stuck. *)
Lemma visit_steps n st k : outcome (visit n st) (TVisit n :: k, st) k.
Proof. exact (proj1 visit_steps_both n st k). Qed.

(** ** is_parent on a map whose links go down in rank *)

Section Ranked.
Variable nested : gmap ident ident.
Variable rank : ident -> nat.
Hypothesis links_decrease :
  forall child parent, nested !! child = Some parent -> rank parent < rank child.





End Ranked.

(** When [is_parent] returns, its answer is the ancestor relation. *)
Lemma is_parent_fuel_ancestor nested F fuel G b :
  is_parent_fuel fuel nested F G = Some b -> (b = true <-> ancestor nested F G).
Proof.
  revert G. induction fuel as [|fuel IH]; intros G; [discriminate|].
  cbn [is_parent_fuel]. destruct (nested !! G) as [p|] eqn:HG.
  - destruct (decide (p = F)) as [->|Hne].
    + intros [= <-]. split; [intros _; by apply ancestor_parent | done].
    + intros Hrec. specialize (IH _ Hrec). rewrite IH. split.
      * intros H. by eapply ancestor_link.
      * inversion 1 as [G' HG' | G' p' HG' Hanc]; subst; congruence.
  - intros [= <-]. split; [discriminate|].
    inversion 1; congruence.
Qed.

(** More fuel does not change an answer. *)
Lemma is_parent_fuel_mono nested F fuel fuel' G b :
  is_parent_fuel fuel nested F G = Some b -> fuel <= fuel' ->
  is_parent_fuel fuel' nested F G = Some b.
Proof.
  revert fuel' G. induction fuel as [|fuel IH]; intros fuel' G; [discriminate|].
  intros H Hle. destruct fuel' as [|fuel']; [lia|].
  cbn [is_parent_fuel] in *. destruct (nested !! G) as [p|]; [|done].
  destruct (decide (p = F)); [done|]. apply IH; [done | lia].
Qed.

(** ** What the symbol methods leave alone *)

Lemma visit_symbol_node_frame symbol st u st' :
  visit_symbol_node symbol st = Some (u, st') ->
  funcs st' = funcs st /\ nested_funcs st' = nested_funcs st
  /\ encapsulating_funcs st' = encapsulating_funcs st
  /\ funcs_to_decorators st' = funcs_to_decorators st
  /\ singledispatch_impls st' = singledispatch_impls st
  /\ prop_setters st' = prop_setters st.
Proof.
  unfold visit_symbol_node, add_free_variable.
  destruct (last (funcs st)) as [top|]; [|by intros [= _ <-]].
  destruct (symbols_to_funcs st !! symbol) as [orig|] eqn:Horig;
    [|by intros [= _ <-]].
  destruct (is_parent st top orig) as [[|]|]; [by intros [= _ <-]| |done].
  destruct (is_parent st orig top) as [[|]|]; [| |done]; by intros [= _ <-].
Qed.

Lemma visit_name_expr_frame node st u st' :
  visit_name_expr node st = Some (u, st') ->
  funcs st' = funcs st /\ nested_funcs st' = nested_funcs st
  /\ encapsulating_funcs st' = encapsulating_funcs st
  /\ funcs_to_decorators st' = funcs_to_decorators st
  /\ singledispatch_impls st' = singledispatch_impls st
  /\ prop_setters st' = prop_setters st.
Proof.
  destruct node as [[v|f|f|t|]|]; cbn;
    first [apply visit_symbol_node_frame | by intros [= _ <-]].
Qed.



(** ** The invariant of the traversal *)

Lemma pending_app k1 k2 : pending (k1 ++ k2) = pending k1 ++ pending k2.
Proof. unfold pending. apply flat_map_app. Qed.

Lemma pending_visits l : pending (map TVisit l) = flat_map func_ids l.
Proof.
  unfold pending. induction l as [|x l IH]; [done|]. cbn. by rewrite IH.
Qed.

Lemma pending_vars (args : list Argument) :
  pending (map (fun arg : Argument => TVisitVar (variable arg)) args) = [].
Proof. unfold pending. induction args as [|a args IH]; [done|]. cbn. exact IH. Qed.

Lemma pending_initializers (args : list Argument) :
  pending (initializer_tasks args)
    = flat_map (fun arg : Argument =>
                  match initializer arg with
                  | Some init => func_ids init
                  | None => []
                  end) args.
Proof.
  rewrite initializer_tasks_flat_map. unfold pending.
  induction args as [|a args IH]; [done|].
  cbn [flat_map]. rewrite flat_map_app, IH.
  destruct (initializer a); cbn; by rewrite ?app_nil_r.
Qed.

Lemma flat_map_sublist {A B} (f : A -> list B) (l1 l2 : list A) :
  l1 `sublist_of` l2 -> flat_map f l1 `sublist_of` flat_map f l2.
Proof.
  induction 1 as [|x l1 l2 _ IH|x l1 l2 _ IH]; cbn.
  - constructor.
  - by apply sublist_app.
  - by apply sublist_inserts_l.
Qed.

Lemma invariant_initial unit : NoDup (func_ids unit) -> invariant (initial unit).
Proof.
  intros Hnd. exists ∅, (fun _ => 0). split; cbn.
  - by rewrite app_nil_r.
  - intros f _. set_solver.
  - intros f Hf. by apply elem_of_nil in Hf.
  - intros ch p H. by rewrite lookup_empty in H.
Qed.

(** A move that leaves [funcs] and [nested_funcs] alone and schedules
    functions that were pending already keeps the invariant. *)
Lemma invariant_frame k st k' st' :
  invariant (k, st) ->
  pending k' `sublist_of` pending k ->
  funcs st' = funcs st -> nested_funcs st' = nested_funcs st ->
  invariant (k', st').
Proof.
  intros (entered & rank & [Hnd Hfresh Hfuncs Hlinks]) Hsub Hf Hn.
  exists entered, rank. cbn in *. split; cbn.
  - by eapply sublist_NoDup.
  - intros f Hin. apply Hfresh. by eapply elem_of_sublist.
  - by rewrite Hf.
  - by rewrite Hn.
Qed.

Lemma elem_of_removelast {A} (l : list A) x : x ∈ removelast l -> x ∈ l.
Proof.
  induction l as [|y [|z l] IH]; cbn; [done| |].
  - intros H. by apply elem_of_nil in H.
  - intros [->|H]%elem_of_cons; [left | right; by apply IH].
Qed.

Lemma invariant_step c c' : invariant c -> step c = Some c' -> invariant c'.
Proof.
  destruct c as [k st]. intros Hinv Hstep.
  unfold step in Hstep. cbn [fst snd] in Hstep.
  destruct k as [|[n|f|v|] k]; [done| | | |].
  - (* TVisit *)
    destruct n as [name node|e name node|callee args|item|item|func var ds|children].
    + destruct (visit_name_expr node st) as [[[] st1]|] eqn:Hv; [|done].
      injection Hstep as <-.
      apply visit_name_expr_frame in Hv as (Hf & Hn & _).
      by eapply invariant_frame.
    + injection Hstep as <-. by eapply invariant_frame.
    + injection Hstep as <-. eapply invariant_frame; [done| |done|done].
      change (TVisit callee :: k) with ([TVisit callee] ++ k).
      rewrite !pending_app, pending_visits. cbn. by rewrite app_nil_r, app_assoc.
    + injection Hstep as <-. by eapply invariant_frame.
    + injection Hstep as <-. by eapply invariant_frame.
    + assert (Hsuper : forall ds', ds' `sublist_of` ds ->
        pending (super_visit_decorator_tasks func var ds' ++ k)
          `sublist_of` pending (TVisit (Decorator func var ds) :: k)).
      { intros ds' Hsub. unfold super_visit_decorator_tasks.
        change (pending (TVisit (Decorator func var ds) :: k))
          with ((func_ids_of func ++ flat_map func_ids ds) ++ pending k).
        change ((TVisitFunc func :: TVisitVar var :: map TVisit ds') ++ k)
          with ([TVisitFunc func] ++ [TVisitVar var] ++ map TVisit ds' ++ k).
        rewrite !pending_app, pending_visits. cbn. rewrite app_nil_r, app_assoc.
        apply sublist_app; [|done]. apply sublist_app; [done|].
        by apply flat_map_sublist. }
      destruct ds as [|d0 ds'].
      { injection Hstep as <-. eapply invariant_frame; [done| |done|done].
        by apply (Hsuper []). }
      destruct (is_setter d0).
      { injection Hstep as <-. eapply invariant_frame; [done| |done|done].
        by apply (Hsuper (d0 :: ds')). }
      pose proof (remaining_decorators func (d0 :: ds') (singledispatch_impls st))
        as Hrem.
      destruct (register_loop func 0 (d0 :: ds') (singledispatch_impls st) [])
        as [impls removed].
      cbn [snd] in Hrem.
      destruct (delete_reversed removed (d0 :: ds')) as [|r rs] eqn:Hdel.
      { injection Hstep as <-. eapply invariant_frame; [done| |done|done].
        change (TVisit ?n :: k) with ([TVisit n] ++ k).
        rewrite pending_app. by apply sublist_inserts_l. }
      injection Hstep as <-. eapply invariant_frame; [done| |done|done].
      apply (Hsuper (r :: rs)). rewrite Hrem. apply sublist_filter.
    + injection Hstep as <-. eapply invariant_frame; [done| |done|done].
      rewrite pending_app, pending_visits. done.
  - (* TVisitFunc *)
    injection Hstep as <-.
    destruct Hinv as (entered & rank & [Hnd Hfresh Hfuncs Hlinks]).
    destruct f as [id args stmts]. cbn [fst snd arguments body func_id] in *.
    change (pending (TVisitFunc (mkFuncItem id args stmts) :: k))
      with ((id :: flat_map (fun arg : Argument =>
                               match initializer arg with
                               | Some init => func_ids init
                               | None => []
                               end) args ++ flat_map func_ids stmts) ++ pending k)
      in Hnd, Hfresh.
    assert (Hpend : pending (initializer_tasks args
                      ++ map (fun arg : Argument => TVisitVar (variable arg)) args
                      ++ map TVisit stmts ++ TPop :: k)
                    = (flat_map (fun arg : Argument =>
                                   match initializer arg with
                                   | Some init => func_ids init
                                   | None => []
                                   end) args ++ flat_map func_ids stmts) ++ pending k).
    { change (TPop :: k) with ([TPop] ++ k).
      rewrite !pending_app, pending_initializers, pending_vars, pending_visits.
      cbn. by rewrite <- app_assoc. }
    cbn [app] in Hnd, Hfresh. apply NoDup_cons in Hnd as [Hid Hnd].
    assert (Hid_fresh : id ∉ entered) by (apply Hfresh; left).
    set (top_rank := match last (funcs st) with
                     | Some top => S (rank top)
                     | None => 0
                     end).
    exists ({[id]} ∪ entered), (fun f => if decide (f = id) then top_rank else rank f).
    split; cbn [fst snd].
    + by rewrite Hpend.
    + rewrite Hpend. intros f Hf.
      apply not_elem_of_union. split.
      * apply not_elem_of_singleton. intros ->. done.
      * apply Hfresh. by right.
    + intros f. unfold enter_func.
      destruct (last (funcs st)); cbn;
        (intros [Hf| ->%list_elem_of_singleton]%elem_of_app;
           [apply elem_of_union_r; by apply Hfuncs | by apply elem_of_union_l, elem_of_singleton]).
    + intros child parent. unfold enter_func.
      destruct (last (funcs st)) as [top|] eqn:Htop; cbn.
      * assert (Htop_in : top ∈ entered).
        { apply Hfuncs. apply last_Some in Htop as [l' ->].
          apply elem_of_app. right. by apply list_elem_of_singleton. }
        destruct (decide (child = id)) as [->|Hne].
        -- rewrite lookup_insert_eq. intros [= <-].
           split; [by apply elem_of_union_l, elem_of_singleton|].
           split; [by apply elem_of_union_r|].
           rewrite decide_False by (intros ->; done). subst top_rank. lia.
        -- rewrite lookup_insert_ne by done. intros H.
           apply Hlinks in H as (Hc & Hp & Hlt).
           split; [by apply elem_of_union_r|]. split; [by apply elem_of_union_r|].
           rewrite decide_False by (intros ->; done). done.
      * intros H. apply Hlinks in H as (Hc & Hp & Hlt).
        split; [by apply elem_of_union_r|]. split; [by apply elem_of_union_r|].
        rewrite !decide_False by (intros ->; done). done.
  - (* TVisitVar *)
    destruct (visit_var v st) as [[[] st1]|] eqn:Hv; [|done].
    injection Hstep as <-.
    apply visit_symbol_node_frame in Hv as (Hf & Hn & _).
    by eapply invariant_frame.
  - (* TPop *)
    injection Hstep as <-.
    destruct Hinv as (entered & rank & [Hnd Hfresh Hfuncs Hlinks]).
    exists entered, rank. split; cbn in *; [done|done| |done].
    intros f Hf. apply Hfuncs. by apply elem_of_removelast.
Qed.


(** ** Termination of is_parent during the pass (C9) *)






(** ** What a visit does to the tree and to the state *)

Lemma bind_Some {A B} (m : M A) (f : A -> M B) st r :
  (m ≫= f) st = Some r -> exists a st1, m st = Some (a, st1) /\ f a st1 = Some r.
Proof.
  unfold mbind, M_bind. destruct (m st) as [[a st1]|]; [eauto | done].
Qed.

Lemma map_unless_filter {A B} (f : A -> B) (skip : A -> bool) xs :
  map_unless f skip xs = map f (filter (fun x => skip x = false) xs).
Proof.
  induction xs as [|x xs IH]; [done|]. cbn [map_unless].
  destruct (skip x) eqn:Hx.
  - by rewrite filter_cons_False by (rewrite Hx; discriminate).
  - rewrite filter_cons_True by done. cbn. by rewrite IH.
Qed.

Lemma impls_extend_refl m : impls_extend m m.
Proof. intros key l H. exists []. by rewrite app_nil_r. Qed.

Lemma impls_extend_trans m1 m2 m3 :
  impls_extend m1 m2 -> impls_extend m2 m3 -> impls_extend m1 m3.
Proof.
  intros H12 H23 key l H. destruct (H12 _ _ H) as [l1 H1].
  destruct (H23 _ _ H1) as [l2 H2]. exists (l1 ++ l2). by rewrite app_assoc.
Qed.

Lemma impls_extend_append key (x : ident * ident) m :
  impls_extend m (setdefault_append key x m).
Proof.
  intros key' l H. unfold setdefault_append.
  destruct (decide (key = key')) as [<-|Hne].
  - rewrite lookup_insert_eq, H. cbn. eauto.
  - rewrite lookup_insert_ne by done. exists []. by rewrite app_nil_r.
Qed.

(** The loop of [visit_decorator] records every registration it meets. *)
Lemma register_loop_extend func i ds impls removed :
  impls_extend impls (register_loop func i ds impls removed).1.
Proof.
  revert i impls removed. induction ds as [|d ds IH]; intros i impls removed.
  - apply impls_extend_refl.
  - cbn [register_loop].
    destruct (get_singledispatch_register_call_info d func) as [impl|]; [|apply IH].
    eapply impls_extend_trans; [apply impls_extend_append | apply IH].
Qed.

Lemma register_loop_records func i ds impls removed d impl :
  d ∈ ds ->
  get_singledispatch_register_call_info d func = Some impl ->
  exists l, (register_loop func i ds impls removed).1 !! singledispatch_func impl = Some l
            /\ (dispatch_type impl, func_id func) ∈ l.
Proof.
  revert i impls removed. induction ds as [|d' ds IH]; intros i impls removed Hin Hd.
  - by apply elem_of_nil in Hin.
  - cbn [register_loop]. apply elem_of_cons in Hin as [<-|Hin].
    + rewrite Hd.
      destruct (register_loop_extend func (S i) ds
                  (setdefault_append (singledispatch_func impl)
                     (dispatch_type impl, func_id func) impls) (removed ++ [i])
                  (singledispatch_func impl)
                  (default [] (impls !! singledispatch_func impl)
                     ++ [(dispatch_type impl, func_id func)])) as [l' Hl'].
      { unfold setdefault_append. by rewrite lookup_insert_eq. }
      eexists. split; [exact Hl'|].
      apply elem_of_app. left. apply elem_of_app. right. by apply list_elem_of_singleton.
    + destruct (get_singledispatch_register_call_info d' func); by apply IH.
Qed.

Lemma unchanged_refl ids st : unchanged_outside ids st st.
Proof. split; [done|]. split; [apply impls_extend_refl | done]. Qed.

Lemma unchanged_trans ids1 ids2 st1 st2 st3 :
  unchanged_outside ids1 st1 st2 -> unchanged_outside ids2 st2 st3 ->
  unchanged_outside (ids1 ++ ids2) st1 st3.
Proof.
  intros (Hf1 & Hi1 & Hd1) (Hf2 & Hi2 & Hd2). split; [congruence|].
  split; [by eapply impls_extend_trans|].
  intros f0 Hf0. apply not_elem_of_app in Hf0 as [H1 H2].
  by rewrite Hd2, Hd1.
Qed.

Lemma unchanged_weaken ids ids' st st' :
  (forall f0, f0 ∈ ids -> f0 ∈ ids') ->
  unchanged_outside ids st st' -> unchanged_outside ids' st st'.
Proof.
  intros Hsub (Hf & Hi & Hd). split; [done|]. split; [done|].
  intros f0 Hf0. apply Hd. intros H. apply Hf0. by apply Hsub.
Qed.

Lemma visit_var_unchanged v st u st' :
  visit_var v st = Some (u, st') -> unchanged_outside [] st st'.
Proof.
  intros H. apply visit_symbol_node_frame in H as (Hf & _ & _ & Hd & Hi & _).
  split; [done|]. split; [rewrite Hi; apply impls_extend_refl|].
  intros f0 _. by rewrite Hd.
Qed.

Lemma for_each_facts {A B} (f : A -> M B) (g : A -> B) (ids : A -> list ident) xs :
  Forall (fun x => forall st y st',
            f x st = Some (y, st') -> y = g x /\ unchanged_outside (ids x) st st') xs ->
  forall st ys st',
    for_each f xs st = Some (ys, st') ->
    ys = map g xs /\ unchanged_outside (flat_map ids xs) st st'.
Proof.
  induction 1 as [|x xs Hx _ IH]; intros st ys st' Hrun; cbn [for_each] in Hrun.
  - injection Hrun as <- <-. split; [done | apply unchanged_refl].
  - apply bind_Some in Hrun as (y & st1 & Hy & Hrun).
    apply bind_Some in Hrun as (ys' & st2 & Hys & Hrun).
    injection Hrun as <- <-.
    destruct (Hx _ _ _ Hy) as [-> H1]. destruct (IH _ _ _ Hys) as [-> H2].
    split; [done|]. cbn [flat_map]. by eapply unchanged_trans.
Qed.

Lemma funcs_enter_leave id st st' :
  funcs st' = funcs (enter_func id st) -> funcs (leave_func st') = funcs st.
Proof.
  unfold leave_func. cbn. intros ->. unfold enter_func.
  destruct (last (funcs st)); cbn; apply removelast_last.
Qed.

Lemma enter_func_impls id st :
  singledispatch_impls (enter_func id st) = singledispatch_impls st
  /\ funcs_to_decorators (enter_func id st) = funcs_to_decorators st.
Proof. unfold enter_func. by destruct (last (funcs st)). Qed.

Section VisitFacts.
Local Abbreviation P := (fun n : Node =>
  forall st n' st', visit n st = Some (n', st') ->
    n' = after_pass n /\ unchanged_outside (func_ids n) st st').
Local Abbreviation Q := (fun f : FuncItem =>
  forall st f' st', visit_func f st = Some (f', st') ->
    f' = after_pass_func f /\ unchanged_outside (tail (func_ids_of f)) st st').

Lemma for_each_visit_facts xs :
  Forall P xs ->
  forall st ys st',
    for_each visit xs st = Some (ys, st') ->
    ys = map after_pass xs /\ unchanged_outside (flat_map func_ids xs) st st'.
Proof. apply for_each_facts. Qed.

Lemma super_visit_decorator_facts func var ds :
  Q func -> Forall P ds ->
  forall st n' st',
    super_visit_decorator visit visit_func func var ds st = Some (n', st') ->
    n' = Decorator (after_pass_func func) var (map after_pass ds)
    /\ unchanged_outside (tail (func_ids_of func) ++ flat_map func_ids ds) st st'.
Proof.
  intros Hf Hds st n' st' Hrun. unfold super_visit_decorator in Hrun.
  apply bind_Some in Hrun as (func' & st1 & Hfunc & Hrun).
  apply bind_Some in Hrun as ([] & st2 & Hvar & Hrun).
  apply bind_Some in Hrun as (ds' & st3 & Hdecs & Hrun).
  injection Hrun as <- <-.
  destruct (Hf _ _ _ Hfunc) as [-> H1].
  apply visit_var_unchanged in Hvar.
  destruct (for_each_visit_facts _ Hds _ _ _ Hdecs) as [-> H3].
  split; [done|].
  eapply unchanged_trans; [exact H1|].
  by eapply (unchanged_trans []).
Qed.

Lemma visit_facts_both : (forall n, P n) /\ (forall f, Q f).
Proof.
  apply node_func_item_ind; cbn beta.
  - (* NameExpr *)
    intros name node st n' st' Hrun. cbn [visit] in Hrun.
    apply bind_Some in Hrun as ([] & st1 & Hv & Hrun). injection Hrun as <- <-.
    split; [done|].
    apply visit_name_expr_frame in Hv as (Hf & _ & _ & Hd & Hi & _).
    split; [done|]. split; [rewrite Hi; apply impls_extend_refl|].
    intros f0 _. by rewrite Hd.
  - (* MemberExpr *)
    intros e name node IH st n' st' Hrun. cbn [visit] in Hrun.
    apply bind_Some in Hrun as (e' & st1 & He & Hrun). injection Hrun as <- <-.
    destruct (IH _ _ _ He) as [-> H1]. done.
  - (* CallExpr *)
    intros callee args IHc IHa st n' st' Hrun. cbn [visit] in Hrun.
    apply bind_Some in Hrun as (args' & st1 & Ha & Hrun).
    apply bind_Some in Hrun as (callee' & st2 & Hc & Hrun).
    injection Hrun as <- <-.
    destruct (for_each_visit_facts _ IHa _ _ _ Ha) as [-> H1].
    destruct (IHc _ _ _ Hc) as [-> H2].
    split; [done|]. cbn [func_ids]. by eapply unchanged_trans.
  - (* FuncDef *)
    intros item IH st n' st' Hrun. cbn [visit] in Hrun.
    apply bind_Some in Hrun as (item' & st1 & Hi & Hrun). injection Hrun as <- <-.
    destruct (IH _ _ _ Hi) as [-> H1]. split; [done|].
    eapply unchanged_weaken; [|exact H1].
    intros f0 H. destruct item; cbn in *. by right.
  - (* LambdaExpr *)
    intros item IH st n' st' Hrun. cbn [visit] in Hrun.
    apply bind_Some in Hrun as (item' & st1 & Hi & Hrun). injection Hrun as <- <-.
    destruct (IH _ _ _ Hi) as [-> H1]. split; [done|].
    eapply unchanged_weaken; [|exact H1].
    intros f0 H. destruct item; cbn in *. by right.
  - (* Decorator *)
    intros func var ds IHf IHds st n' st' Hrun.
    rewrite visit_Decorator in Hrun. unfold visit_decorator in Hrun.
    assert (Hweak : forall ds' st1 st2,
      (forall d, d ∈ ds' -> d ∈ ds) ->
      unchanged_outside (tail (func_ids_of func) ++ flat_map func_ids ds') st1 st2 ->
      unchanged_outside (func_ids (Decorator func var ds)) st1 st2).
    { intros ds' st1 st2 Hsub. apply unchanged_weaken. intros f0 Hf0.
      cbn [func_ids]. apply elem_of_app in Hf0 as [Hf0|Hf0]; apply elem_of_app.
      - left. destruct func; cbn in *. by right.
      - right. apply list_elem_of_In, in_flat_map in Hf0 as (d & Hd & Hf0).
        apply list_elem_of_In, in_flat_map. exists d.
        split; [|done]. apply list_elem_of_In, Hsub. by apply list_elem_of_In. }
    destruct ds as [|d0 ds'].
    { destruct (super_visit_decorator_facts _ _ _ IHf IHds _ _ _ Hrun) as [-> H1].
      split; [done|]. by apply (Hweak []). }
    cbn [after_pass].
    destruct (is_setter d0) eqn:Hd0.
    { apply bind_Some in Hrun as ([] & st1 & Hmod & Hrun).
      injection Hmod as <-.
      destruct (super_visit_decorator_facts _ _ _ IHf IHds _ _ _ Hrun) as [-> H1].
      split; [done|]. apply (Hweak (d0 :: ds')) in H1; [|done].
      destruct H1 as (Hf & Hi & Hd). split; [done|]. split; done. }
    pose proof (remaining_decorators func (d0 :: ds') (singledispatch_impls st))
      as Hrem.
    pose proof (register_loop_extend func 0 (d0 :: ds') (singledispatch_impls st) [])
      as Hext.
    destruct (register_loop func 0 (d0 :: ds') (singledispatch_impls st) [])
      as [impls removed].
    cbn [fst snd] in Hrem, Hext. rewrite Hrem in Hrun.
    destruct (filter (not_register func) (d0 :: ds')) as [|r rs] eqn:Hfilter.
    { injection Hrun as <- <-. split; [done|].
      split; [done|]. split; [done|]. done. }
    assert (Hsub : forall d, d ∈ r :: rs -> d ∈ d0 :: ds').
    { intros d Hd. rewrite <- Hfilter in Hd.
      by apply list_elem_of_filter in Hd as [_ ?]. }
    assert (IHrem : Forall P (r :: rs)).
    { apply Forall_forall. intros d Hd. apply Hsub in Hd.
      exact (proj1 (Forall_forall _ _) IHds d Hd). }
    destruct (super_visit_decorator_facts _ _ _ IHf IHrem _ _ _ Hrun) as [-> H1].
    split.
    { rewrite map_unless_filter, Hfilter. done. }
    apply (Hweak (r :: rs)) in H1; [|done].
    destruct H1 as (Hf & Hi & Hd). split; [done|]. split.
    { eapply impls_extend_trans; [exact Hext | exact Hi]. }
    intros f0 Hf0. rewrite (Hd _ Hf0). cbn.
    apply lookup_insert_ne. intros <-. apply Hf0.
    cbn [func_ids]. apply elem_of_app. left. destruct func; cbn. by left.
  - (* OtherNode *)
    intros children IH st n' st' Hrun. cbn [visit] in Hrun.
    apply bind_Some in Hrun as (children' & st1 & Hc & Hrun).
    injection Hrun as <- <-.
    destruct (for_each_visit_facts _ IH _ _ _ Hc) as [-> H1]. done.
  - (* mkFuncItem *)
    intros id args stmts IHargs IHbody st f' st' Hrun. cbn [visit_func] in Hrun.
    apply bind_Some in Hrun as ([] & st0 & Henter & Hrun). injection Henter as <-.
    apply bind_Some in Hrun as (args' & st1 & Hargs & Hrun).
    apply bind_Some in Hrun as (us & st2 & Hvars & Hrun).
    apply bind_Some in Hrun as (body' & st3 & Hbody & Hrun).
    apply bind_Some in Hrun as ([] & st4 & Hleave & Hrun).
    injection Hleave as <-. injection Hrun as <- <-.
    eapply (for_each_facts _
              (fun arg : Argument =>
                 match initializer arg with
                 | Some init => mkArgument (variable arg) (Some (after_pass init))
                 | None => arg
                 end)
              (fun arg : Argument =>
                 match initializer arg with
                 | Some init => func_ids init
                 | None => []
                 end)) in Hargs as [-> H1].
    2:{ eapply Forall_impl; [exact IHargs|]. intros arg Harg st5 y st6 Hy.
        cbn beta in *. destruct (initializer arg) as [init|].
        - apply bind_Some in Hy as (init' & st7 & Hinit & Hy). injection Hy as <- <-.
          destruct (Harg init eq_refl _ _ _ Hinit) as [-> H]. done.
        - injection Hy as <- <-. split; [done | apply unchanged_refl]. }
    eapply (for_each_facts _ (fun _ => tt) (fun _ => [])) in Hvars as [_ H2].
    2:{ apply Forall_forall. intros arg _ st5 [] st6 Hy. split; [done|].
        by eapply visit_var_unchanged. }
    destruct (for_each_visit_facts _ IHbody _ _ _ Hbody) as [-> H3].
    split; [done|].
    pose proof (unchanged_trans _ _ _ _ _ H1 (unchanged_trans _ _ _ _ _ H2 H3))
      as (Hf & Hi & Hd).
    destruct (enter_func_impls id st) as [Hei Hed].
    split; [by apply (funcs_enter_leave id)|]. split.
    { cbn. by rewrite <- Hei. }
    intros f0 Hf0. cbn. rewrite <- Hed. apply Hd.
    cbn [func_ids_of tail] in Hf0.
    intros H. apply Hf0.
    apply elem_of_app in H as [H|H]; apply elem_of_app; [by left|right].
    apply elem_of_app in H as [H|H]; [|done].
    exfalso. clear -H. induction args as [|a args IH]; cbn in H;
      [by apply elem_of_nil in H | done].
Qed.
End VisitFacts.

(** The node [visit] returns is [after_pass] of the node it was given. *)
Lemma visit_after_pass n st n' st' :
  visit n st = Some (n', st') -> n' = after_pass n.
Proof. intros H. by apply (proj1 visit_facts_both) in H as [? _]. Qed.

(** A tree without registration decorators is a fixed point of
    [after_pass]. *)
Lemma map_id_Forall {A} (f : A -> A) (P : A -> Prop) (b : A -> bool) xs :
  Forall (fun x => b x = false -> f x = x) xs ->
  existsb b xs = false -> map f xs = xs.
Proof.
  induction 1 as [|x xs Hx _ IH]; [done|]. cbn [existsb map].
  intros [Hb Hbs]%orb_false_elim. by rewrite Hx, IH.
Qed.

Lemma filter_no_register func ds :
  existsb (is_register func) ds = false -> filter (not_register func) ds = ds.
Proof.
  induction ds as [|d ds IH]; [done|]. cbn [existsb].
  intros [Hd Hds]%orb_false_elim.
  rewrite filter_cons_True by done. by rewrite IH.
Qed.

Lemma after_pass_id_both :
  (forall n, has_registration n = false -> after_pass n = n)
  /\ (forall f, has_registration_func f = false -> after_pass_func f = f).
Proof.
  apply node_func_item_ind; cbn [has_registration has_registration_func after_pass
                                   after_pass_func].
  - done.
  - intros e name node IH H. by rewrite IH.
  - intros callee args IHc IHa [Hc Ha]%orb_false_elim.
    by rewrite IHc, (map_id_Forall _ (fun _ => True) _ _ IHa Ha).
  - intros item IH H. by rewrite IH.
  - intros item IH H. by rewrite IH.
  - intros func var ds IHf IHds [[Hreg Hfunc]%orb_false_elim Hds]%orb_false_elim.
    pose proof (map_id_Forall _ (fun _ => True) _ _ IHds Hds) as Hmap.
    destruct ds as [|d0 ds']; [by rewrite IHf|].
    destruct (is_setter d0); [by rewrite IHf, Hmap|].
    rewrite map_unless_filter, (filter_no_register _ _ Hreg), Hmap.
    by rewrite IHf.
  - intros children IH H.
    by rewrite (map_id_Forall _ (fun _ => True) _ _ IH H).
  - intros id args stmts IHargs IHbody [Hargs Hbody]%orb_false_elim.
    rewrite (map_id_Forall _ (fun _ => True) _ _ IHbody Hbody). f_equal.
    clear -IHargs Hargs. induction IHargs as [|arg args Harg _ IH]; [done|].
    cbn [existsb map] in *. apply orb_false_elim in Hargs as [Ha Has].
    rewrite (IH Has). f_equal.
    destruct arg as [v [init|]]; cbn in *; [|done].
    by rewrite (Harg init eq_refl Ha).
Qed.

(** ** Closure capture in the unit of the spec's example *)

(** In the unit [def outer(): x = 1; def inner(): return x] the pass
    returns with [x] in [free_variables[outer]], with [outer] as the parent
    of [inner] in [nested_funcs], and with [inner] among the functions
    nested in [outer] in [encapsulating_funcs]. The module
    [PreBuildClosure] has the same for every unit. *)
Lemma closure_unit_capture outer inner x :
  outer ≠ inner ->
  exists unit' st,
    analyze (closure_unit outer inner x) = Some (unit', st)
    /\ (exists vars, free_variables st !! outer = Some vars /\ VarSym x ∈ vars)
    /\ nested_funcs st !! inner = Some outer
    /\ (exists children, encapsulating_funcs st !! outer = Some children
                         /\ inner ∈ children).
Proof.
  intros Hne. unfold analyze, closure_unit.
  cbn -[visit_symbol_node].
  unfold mbind, M_bind, modify, mret, M_ret. cbn -[visit_symbol_node].
  unfold visit_symbol_node at 1.
  cbn [funcs enter_func __init__ set_funcs app last symbols_to_funcs].
  rewrite lookup_empty. cbn -[visit_symbol_node].
  unfold visit_symbol_node. cbn -[is_parent lookup insert].
  rewrite lookup_insert_eq.
  unfold is_parent. cbn -[lookup insert size].
  rewrite lookup_insert_ne, lookup_empty by done.
  rewrite lookup_insert_eq, decide_True by done.
  unfold add_free_variable. cbn -[lookup insert size].
  rewrite lookup_insert_eq.
  eexists _, _. split; [reflexivity|].
  cbn -[lookup insert size setdefault_add setdefault_append].
  unfold setdefault_add, setdefault_append.
  split; [|split].
  - eexists. split; [apply lookup_insert_eq|]. set_solver.
  - apply lookup_insert_eq.
  - eexists. split; [apply lookup_insert_eq|].
    rewrite lookup_empty. cbn. by apply list_elem_of_singleton.
Qed.

(** ** Stripping of registration decorators (C7) *)

(** C7: for a decorated function whose decorator list is not headed by a
    setter (and whose functions are distinct objects), once the visit has
    returned: the decorator list of the node holds the decorators that are
    not registrations, in their order; every registration is recorded in
    [singledispatch_impls] under its dispatcher with this function; when
    decorators remain, they are the function's entry in
    [funcs_to_decorators]; when none remains, the visit has not touched the
    function's entry (it records none). *)
Theorem C7_registrations_stripped func var decorators st n' st' :
  match decorators with
  | d0 :: _ => is_setter d0 = false
  | [] => True
  end ->
  NoDup (func_ids (Decorator func var decorators)) ->
  visit (Decorator func var decorators) st = Some (n', st') ->
  let kept := filter (not_register func) decorators in
  (exists func', n' = Decorator func' var (map after_pass kept))
  /\ (Forall (fun d => has_registration d = false) kept ->
      exists func', n' = Decorator func' var kept)
  /\ (forall d impl,
        d ∈ decorators ->
        get_singledispatch_register_call_info d func = Some impl ->
        exists l, singledispatch_impls st' !! singledispatch_func impl = Some l
                  /\ (dispatch_type impl, func_id func) ∈ l)
  /\ (kept ≠ [] -> funcs_to_decorators st' !! func_id func = Some kept)
  /\ (kept = [] ->
      funcs_to_decorators st' !! func_id func
        = funcs_to_decorators st !! func_id func).
Proof.
  intros Hsetter Hnd Hrun kept.
  destruct visit_facts_both as [HP HQ].
  assert (Hshape : exists func', n' = Decorator func' var (map after_pass kept)).
  { rewrite (visit_after_pass _ _ _ _ Hrun). cbn [after_pass]. subst kept.
    destruct decorators as [|d0 ds']; [by eexists|].
    rewrite Hsetter.
    destruct (filter (not_register func) (d0 :: ds')) as [|r rs] eqn:Hf;
      [by eexists|].
    rewrite map_unless_filter, Hf. by eexists. }
  split; [exact Hshape|].
  split.
  { intros Hnone. destruct Hshape as [func' ->]. exists func'. f_equal.
    clear -Hnone. induction Hnone as [|d ds Hd _ IH]; [done|].
    cbn. by rewrite (proj1 after_pass_id_both d Hd), IH. }
  assert (Hfresh : func_id func ∉ tail (func_ids_of func) ++ flat_map func_ids decorators).
  { cbn [func_ids] in Hnd. destruct func as [id args stmts].
    cbn [func_ids_of tail func_id app] in *.
    by apply NoDup_cons in Hnd as [? _]. }
  rewrite visit_Decorator in Hrun. unfold visit_decorator in Hrun.
  destruct decorators as [|d0 ds'].
  { (* no decorator at all *)
    destruct (super_visit_decorator_facts func var [] (HQ func) (Forall_nil_2 _)
                _ _ _ Hrun) as [_ (_ & _ & Hd)].
    split; [intros d impl Hin; by apply elem_of_nil in Hin|].
    split; [done|]. intros _. by apply Hd. }
  rewrite Hsetter in Hrun.
  pose proof (remaining_decorators func (d0 :: ds') (singledispatch_impls st)) as Hrem.
  assert (Hrec : forall d impl,
    d ∈ d0 :: ds' ->
    get_singledispatch_register_call_info d func = Some impl ->
    exists l,
      (register_loop func 0 (d0 :: ds') (singledispatch_impls st) []).1
        !! singledispatch_func impl = Some l
      /\ (dispatch_type impl, func_id func) ∈ l)
    by (intros d impl; apply register_loop_records).
  destruct (register_loop func 0 (d0 :: ds') (singledispatch_impls st) [])
    as [impls removed].
  cbn [fst snd] in Hrem, Hrec. rewrite Hrem in Hrun. fold kept in Hrun.
  destruct kept as [|r rs] eqn:Hkept.
  { injection Hrun as <- <-. cbn. split; [exact Hrec|]. done. }
  assert (Hsub : forall d, d ∈ r :: rs -> d ∈ d0 :: ds').
  { intros d Hd. rewrite <- Hkept in Hd. subst kept.
    by apply list_elem_of_filter in Hd as [_ ?]. }
  destruct (super_visit_decorator_facts func var (r :: rs) (HQ func)
              (proj2 (Forall_forall _ _) (fun d _ => HP d)) _ _ _ Hrun)
    as [_ (_ & Hi & Hd)].
  cbn [singledispatch_impls funcs_to_decorators set_funcs_to_decorators
       set_singledispatch_impls] in Hi, Hd.
  split.
  { intros d impl Hin Hinfo. destruct (Hrec d impl Hin Hinfo) as (l & Hl & Hmem).
    destruct (Hi _ _ Hl) as [l' Hl']. exists (l ++ l'). split; [done|].
    apply elem_of_app. by left. }
  split; [|done]. intros _. rewrite Hd.
  - apply lookup_insert_eq.
  - intros Hin. apply Hfresh.
    apply elem_of_app in Hin as [Hin|Hin]; apply elem_of_app; [by left|right].
    apply list_elem_of_In, in_flat_map in Hin as (d & Hdin & Hin).
    apply list_elem_of_In, in_flat_map. exists d. split; [|done].
    apply list_elem_of_In, Hsub. by apply list_elem_of_In.
Qed.

(** ** The pass and its input tree (C8) *)

(** C8, as amended: the pass changes its input tree in decorator lists
    only. The tree it leaves is [after_pass] of the tree it was given: a
    visited decorator list that is not headed by a setter has lost its
    registration decorators, and nothing else has changed. A tree in which
    no decorator is a registration is left as it was. *)
Theorem C8_pass_only_deletes_registrations n st n' st' :
  visit n st = Some (n', st') ->
  n' = after_pass n /\ (has_registration n = false -> n' = n).
Proof.
  intros Hrun. pose proof (visit_after_pass _ _ _ _ Hrun) as ->.
  split; [done|]. apply after_pass_id_both.
Qed.

(** ** Decorated functions whose decorators are all registrations (C10) *)

(** A registration decorator is never a [setter] member access: the
    member name it requires is [register]. *)
Lemma register_not_setter func d :
  is_register func d = true -> is_setter d = false.
Proof.
  unfold is_register, is_setter. intros H. apply bool_decide_eq_true_1 in H.
  destruct H as [impl H].
  destruct d as [| e name node | | | | |]; try reflexivity.
  apply bool_decide_eq_false_2. intros ->.
  cbn in H. destruct (arguments func) as [|arg0 ?]; [discriminate|].
  destruct (var_type (variable arg0)) as [[info|]|]; try discriminate.
  destruct e as [n [[| |f| |]|]| | | | | |]; discriminate.
Qed.

Lemma all_register_remaining func ds :
  Forall (fun d => is_register func d = true) ds ->
  filter (not_register func) ds = [].
Proof.
  induction 1 as [|d ds Hd _ IH]; [reflexivity|].
  rewrite filter_cons_False by (rewrite Hd; discriminate). exact IH.
Qed.

(** C10: when the decorator list is not empty and every decorator in it is
    a single-dispatch registration, the visit of the decorated function
    returns at once: the node is left with an empty decorator list, and
    the state differs from the one before only in [singledispatch_impls].
    The function is not pushed on [funcs]; it gets no entry in
    [nested_funcs] or [encapsulating_funcs], whatever functions are open;
    no symbol of its body is given an owner or made a free variable; the
    machine moves on to the work that was left without a task for the
    function. *)
Theorem C10_only_registrations_skips_function func var decorators st :
  decorators ≠ [] ->
  Forall (fun d => is_register func d = true) decorators ->
  let st' :=
    set_singledispatch_impls
      (register_loop func 0 decorators (singledispatch_impls st) []).1 st in
  visit (Decorator func var decorators) st = Some (Decorator func var [], st')
  /\ (forall k, step (TVisit (Decorator func var decorators) :: k, st) = Some (k, st'))
  /\ funcs st' = funcs st
  /\ nested_funcs st' = nested_funcs st
  /\ encapsulating_funcs st' = encapsulating_funcs st
  /\ symbols_to_funcs st' = symbols_to_funcs st
  /\ free_variables st' = free_variables st
  /\ funcs_to_decorators st' = funcs_to_decorators st
  /\ prop_setters st' = prop_setters st.
Proof.
  intros Hne Hall st'.
  pose proof (remaining_decorators func decorators (singledispatch_impls st)) as Hrem.
  rewrite (all_register_remaining _ _ Hall) in Hrem.
  destruct decorators as [|d0 ds]; [congruence|].
  assert (Hd0 : is_setter d0 = false).
  { apply (register_not_setter func). by inversion Hall. }
  split; [|split; [|repeat split]].
  - rewrite visit_Decorator. unfold visit_decorator. rewrite Hd0.
    subst st'.
    destruct (register_loop func 0 (d0 :: ds) (singledispatch_impls st) [])
      as [impls removed].
    cbn [fst snd] in *. rewrite Hrem. reflexivity.
  - intros k. unfold step. cbn [fst snd]. rewrite Hd0.
    subst st'.
    destruct (register_loop func 0 (d0 :: ds) (singledispatch_impls st) [])
      as [impls removed].
    cbn [fst snd] in *. rewrite Hrem. reflexivity.
Qed.

(** ** Closed instances *)

(** Witness of C7: [@d1 @f.register(int) def g(arg)] keeps [d1] alone. *)
Lemma C7_registrations_stripped_witness :
  exists n' st',
    visit (decorated_g [NameExpr "d1" None; register_call]) __init__ = Some (n', st')
    /\ funcs_to_decorators st' !! 2%positive = Some [NameExpr "d1" None]
    /\ (exists l, singledispatch_impls st' !! 1%positive = Some l
                  /\ (7%positive, 2%positive) ∈ l).
Proof.
  destruct (visit (decorated_g [NameExpr "d1" None; register_call]) __init__)
    as [[n' st']|] eqn:Hrun; [|vm_compute in Hrun; discriminate].
  exists n', st'. split; [reflexivity|].
  assert (Hnd : NoDup (func_ids (decorated_g [NameExpr "d1" None; register_call]))).
  { vm_compute. apply NoDup_singleton. }
  destruct (C7_registrations_stripped
              (mkFuncItem 2 [mkArgument (mkVar 20 None) None] []) (mkVar 21 None)
              [NameExpr "d1" None; register_call] __init__ n' st' eq_refl Hnd Hrun)
    as (_ & _ & Hrec & Hkept & _).
  split.
  - apply Hkept. vm_compute. discriminate.
  - apply (Hrec register_call (mkRegisteredImpl 1 7)).
    + apply elem_of_cons. right. apply elem_of_cons. by left.
    + reflexivity.
Defined.

(** C8 as stated fails: the pass over [registered_unit] deletes the
    registration decorator from the decorator list of [g]. *)
Lemma C8_counterexample :
  ¬ (forall unit unit' st, analyze unit = Some (unit', st) -> unit' = unit).
Proof.
  intros H.
  destruct (analyze registered_unit) as [[unit' st]|] eqn:Hrun;
    [|vm_compute in Hrun; discriminate].
  pose proof (visit_after_pass _ _ _ _ Hrun) as Hafter.
  rewrite (H _ _ _ Hrun) in Hafter. vm_compute in Hafter. discriminate.
Qed.

(** Witness of C8: the pass over [registered_unit]. *)
Lemma C8_pass_only_deletes_registrations_witness :
  exists st',
    visit registered_unit __init__
      = Some (OtherNode [decorated_g [NameExpr "d1" None]], st').
Proof.
  destruct (visit registered_unit __init__) as [[n' st']|] eqn:Hrun;
    [|vm_compute in Hrun; discriminate].
  exists st'. f_equal. f_equal.
  exact (proj1 (C8_pass_only_deletes_registrations _ _ _ _ Hrun)).
Defined.


(** Witness of C10: [@f.register(int) def g(arg)] visited inside the open
    function 5. *)
Lemma C10_only_registrations_skips_function_witness :
  visit (decorated_g [register_call]) (set_funcs [5%positive] __init__)
    = Some (decorated_g [],
            set_singledispatch_impls {[1%positive := [(7%positive, 2%positive)]]}
              (set_funcs [5%positive] __init__)).
Proof.
  refine (eq_trans
    (proj1 (C10_only_registrations_skips_function _ _ [register_call]
              (set_funcs [5%positive] __init__) _ _)) _).
  - discriminate.
  - apply Forall_cons. split; [reflexivity | apply Forall_nil_2].
  - vm_compute. reflexivity.
Defined.

(** The pass over [nested_registered_unit]: [g], whose only decorator is a
    registration, is nested in [h] and yet gets no parent, no decorator
    entry, and [h] no nested function; the registration is recorded. *)
Example nested_registered_function_not_entered :
  exists unit' st,
    analyze nested_registered_unit = Some (unit', st)
    /\ nested_funcs st !! 2%positive = None
    /\ encapsulating_funcs st !! 5%positive = None
    /\ funcs_to_decorators st !! 2%positive = None
    /\ singledispatch_impls st !! 1%positive = Some [(7%positive, 2%positive)].
Proof.
  destruct (analyze nested_registered_unit) as [[unit' st]|] eqn:Hrun;
    [|vm_compute in Hrun; discriminate].
  exists unit', st. split; [reflexivity|].
  vm_compute in Hrun. injection Hrun as _ <-.
  repeat split; vm_compute; reflexivity.
Qed.

End PreBuildFacts.

(* ===================================================================== *)
(** * Further facts about the translator                                  *)
(* ===================================================================== *)

Module ExprToTypeExtra.
Import ExprToType ExprToTypeFacts.
Local Open Scope list_scope.

(** ** Induction on expressions *)

Section ExprInduction.
Variable P : Expression -> Prop.
Hypothesis Hleaf : forall e, leaf e = true -> P e.
Hypothesis HMember : forall c e name fn, P e -> P (MemberExpr c e name fn).
Hypothesis HIndex : forall c base index,
  P base -> P index -> Forall P (index_args index) -> P (IndexExpr c base index).
Hypothesis HTuple : forall c items, Forall P items -> P (TupleExpr c items).
Hypothesis HList : forall c items, Forall P items -> P (ListExpr c items).
Hypothesis HCall : forall c callee args arg_names,
  P callee -> Forall P args -> P (CallExpr c callee args arg_names).
Hypothesis HOp : forall c op l r, P l -> P r -> P (OpExpr c op l r).
Hypothesis HUnary : forall c op e, P e -> P (UnaryExpr c op e).

Fixpoint expr_ind_args (e : Expression) : P e /\ Forall P (index_args e) :=
  let all := fix all (l : list Expression) : Forall P l :=
    match l with
    | [] => List.Forall_nil P
    | x :: l' => List.Forall_cons P x l' (proj1 (expr_ind_args x)) (all l')
    end in
  let one (e : Expression) (H : P e) : P e /\ Forall P [e] :=
    conj H (List.Forall_cons P e [] H (List.Forall_nil P)) in
  match e with
  | MemberExpr c e' name fn =>
      one (MemberExpr c e' name fn) (HMember c e' name fn (proj1 (expr_ind_args e')))
  | IndexExpr c base index =>
      one (IndexExpr c base index)
        (HIndex c base index (proj1 (expr_ind_args base))
           (proj1 (expr_ind_args index)) (proj2 (expr_ind_args index)))
  | TupleExpr c items => conj (HTuple c items (all items)) (all items)
  | ListExpr c items => one (ListExpr c items) (HList c items (all items))
  | CallExpr c callee args arg_names =>
      one (CallExpr c callee args arg_names)
        (HCall c callee args arg_names (proj1 (expr_ind_args callee)) (all args))
  | OpExpr c op l r =>
      one (OpExpr c op l r)
        (HOp c op l r (proj1 (expr_ind_args l)) (proj1 (expr_ind_args r)))
  | UnaryExpr c op e' =>
      one (UnaryExpr c op e') (HUnary c op e' (proj1 (expr_ind_args e')))
  | NameExpr c n fn => one (NameExpr c n fn) (Hleaf (NameExpr c n fn) eq_refl)
  | IntExpr c v => one (IntExpr c v) (Hleaf (IntExpr c v) eq_refl)
  | FloatExpr c => one (FloatExpr c) (Hleaf (FloatExpr c) eq_refl)
  | ComplexExpr c => one (ComplexExpr c) (Hleaf (ComplexExpr c) eq_refl)
  | StrExpr c v b => one (StrExpr c v b) (Hleaf (StrExpr c v b) eq_refl)
  | BytesExpr c v => one (BytesExpr c v) (Hleaf (BytesExpr c v) eq_refl)
  | UnicodeExpr c v => one (UnicodeExpr c v) (Hleaf (UnicodeExpr c v) eq_refl)
  | EllipsisExpr c => one (EllipsisExpr c) (Hleaf (EllipsisExpr c) eq_refl)
  | OtherExpr c => one (OtherExpr c) (Hleaf (OtherExpr c) eq_refl)
  end.

Lemma expr_ind_all e : P e.
Proof. exact (proj1 (expr_ind_args e)). Qed.
End ExprInduction.

(** ** Loops over lists of expressions *)

Lemma map_result_ext {A B} (f g : A -> result B) xs :
  Forall (fun x => f x = g x) xs -> map_result f xs = map_result g xs.
Proof.
  induction 1 as [|x xs Hx _ IH]; [done|]. cbn [map_result]. by rewrite Hx, IH.
Qed.

Lemma map_result_Ok {A B} (f : A -> result B) xs ys :
  map_result f xs = Ok ys <-> Forall2 (fun x y => f x = Ok y) xs ys.
Proof.
  revert ys. induction xs as [|x xs IH]; intros ys; cbn [map_result].
  - split; [intros [= <-]; constructor | by inversion 1].
  - destruct (f x) as [y|e] eqn:Hx; cbn.
    + destruct (map_result f xs) as [ys'|e] eqn:Hxs; cbn.
      * split.
        -- intros [= <-]. constructor; [done | by apply IH].
        -- inversion 1 as [|? y' ? ys'' Hy Hys]; subst.
           apply IH in Hys. congruence.
      * split; [done|]. inversion 1 as [|? y' ? ys'' Hy Hys]; subst.
        apply IH in Hys. congruence.
    + split; [done|]. inversion 1; congruence.
Qed.

Lemma map_result_Raise {A B} (f : A -> result B) xs e :
  map_result f xs = Raise e <->
  exists pre x post,
    xs = pre ++ x :: post /\ Forall (fun y => succeeds (f y)) pre /\ f x = Raise e.
Proof.
  induction xs as [|x xs IH]; cbn [map_result].
  - split; [done|]. intros (pre & y & post & H & _). by destruct pre.
  - destruct (f x) as [y|e'] eqn:Hx; cbn.
    + destruct (map_result f xs) as [ys'|e'] eqn:Hxs; cbn.
      * split; [done|]. intros (pre & z & post & Heq & Hpre & Hz).
        destruct pre as [|p0 pre]; cbn in Heq; injection Heq as <- ->; [congruence|].
        assert (Raise e = @Ok (list B) ys') as Habs; [|done].
        symmetry. apply IH. exists pre, z, post. split; [done|].
        split; [by inversion Hpre | done].
      * split.
        -- intros [= ->]. destruct (proj1 IH eq_refl) as (pre & z & post & -> & Hpre & Hz).
           exists (x :: pre), z, post. split; [done|]. split; [|done].
           constructor; [by eexists | done].
        -- intros (pre & z & post & Heq & Hpre & Hz).
           destruct pre as [|p0 pre]; cbn in Heq; injection Heq as <- ->; [congruence|].
           f_equal. assert (Raise e' = @Raise (list B) e) as [= ->]; [|done].
           apply IH. exists pre, z, post. split; [done|].
           split; [by inversion Hpre | done].
    + split.
      * intros [= ->]. exists [], x, xs. split; [done|]. split; [constructor | done].
      * intros (pre & z & post & Heq & Hpre & Hz).
        destruct pre as [|p0 pre]; cbn in Heq; injection Heq as <- ->; [congruence|].
        inversion Hpre as [|? ? [a Ha] _]; subst. congruence.
Qed.

Lemma at_least_refl {A} (r : result A) : at_least r r.
Proof. by intros a. Qed.

Lemma at_least_bind {A B} (m1 m2 : result A) (k1 k2 : A -> result B) :
  at_least m1 m2 -> (forall a, at_least (k1 a) (k2 a)) ->
  at_least (m1 ≫= k1) (m2 ≫= k2).
Proof.
  intros Hm Hk b. unfold mbind, result_bind.
  destruct m1 as [a|e]; [|done]. rewrite (Hm a eq_refl). apply Hk.
Qed.

Lemma map_result_at_least {A B} (f g : A -> result B) xs :
  Forall (fun x => at_least (f x) (g x)) xs ->
  at_least (map_result f xs) (map_result g xs).
Proof.
  induction 1 as [|x xs Hx _ IH]; [apply at_least_refl|]. cbn [map_result].
  apply at_least_bind; [done|]. intros y.
  apply at_least_bind; [done|]. intros ys. apply at_least_refl.
Qed.

Lemma loop_ext (f g : Expression -> result ProperType) arg_names args :
  Forall (fun a => f a = g a) args ->
  forall i name typ,
    callable_argument_loop f arg_names i args name typ
      = callable_argument_loop g arg_names i args name typ.
Proof.
  induction 1 as [|a args Ha _ IH]; intros i name typ; [done|].
  cbn [callable_argument_loop]. rewrite Ha.
  destruct (arg_names !! i) as [[kw|]|]; [| |done].
  - destruct (decide (kw = "name")).
    { destruct name; [done|]. destruct (_extract_argument_name a); cbn; [apply IH | done]. }
    destruct (decide (kw = "type")); [|done].
    destruct typ; [done|]. destruct (g a); cbn; [apply IH | done].
  - destruct i as [|[|i]]; [| |done].
    + destruct (g a); cbn; [apply IH | done].
    + destruct (_extract_argument_name a); cbn; [apply IH | done].
Qed.

Lemma loop_at_least (f g : Expression -> result ProperType) arg_names args :
  Forall (fun a => at_least (f a) (g a)) args ->
  forall i name typ,
    at_least (callable_argument_loop f arg_names i args name typ)
             (callable_argument_loop g arg_names i args name typ).
Proof.
  induction 1 as [|a args Ha _ IH]; intros i name typ; [apply at_least_refl|].
  cbn [callable_argument_loop].
  destruct (arg_names !! i) as [[kw|]|]; [| |apply at_least_refl].
  - destruct (decide (kw = "name")).
    { destruct name; [apply at_least_refl|].
      apply at_least_bind; [apply at_least_refl|]. intros n. apply IH. }
    destruct (decide (kw = "type")); [|apply at_least_refl].
    destruct typ; [apply at_least_refl|].
    apply at_least_bind; [done|]. intros t. apply IH.
  - destruct i as [|[|i]]; [| |apply at_least_refl].
    + apply at_least_bind; [done|]. intros t. apply IH.
    + apply at_least_bind; [apply at_least_refl|]. intros n. apply IH.
Qed.

Section Extra.
Variable parse_type_string : string -> string -> Z -> Z -> bool -> ProperType.

Abbreviation translate := (expr_to_unanalyzed_type parse_type_string).

(** The parent is looked at for [CallExpr] nodes only, and only for
    whether it is a list literal. *)
Lemma parent_irrelevant e options p1 p2 :
  is_ListExpr p1 = is_ListExpr p2 ->
  translate e options p1 = translate e options p2.
Proof.
  intros H. destruct e; try reflexivity.
  cbn [expr_to_unanalyzed_type]. by rewrite H.
Qed.

(** ** List literals *)

(** X1: a list literal translates exactly when all its items do, to the
    [TypeList] of their translations, in order; otherwise it raises what
    its first failing item raises. *)
Theorem X1_list_literal_elementwise c items options parent :
  (forall t,
     expr_to_unanalyzed_type parse_type_string (ListExpr c items) options parent = Ok t
     <-> exists ts,
           t = TypeList ts (line c) (column c)
           /\ Forall2 (fun item ty =>
                         translate item options (Some (ListExpr c items)) = Ok ty)
                      items ts)
  /\ (forall x,
        expr_to_unanalyzed_type parse_type_string (ListExpr c items) options parent
          = Raise x
        <-> exists pre item post,
              items = pre ++ item :: post
              /\ Forall (fun y => succeeds (translate y options (Some (ListExpr c items))))
                        pre
              /\ translate item options (Some (ListExpr c items)) = Raise x).
Proof.
  cbn [expr_to_unanalyzed_type].
  set (f := fun t => translate t options (Some (ListExpr c items))).
  split.
  - intros t. destruct (map_result f items) as [ts|e] eqn:Hmap; cbn.
    + apply map_result_Ok in Hmap. split.
      * intros [= <-]. by exists ts.
      * intros (ts' & -> & H). apply (map_result_Ok f) in H.
        apply map_result_Ok in Hmap. congruence.
    + split; [done|]. intros (ts' & -> & H). apply (map_result_Ok f) in H. congruence.
  - intros x. etransitivity; [|exact (map_result_Raise f items x)].
    destruct (map_result f items) as [ts|e]; cbn; [done|]. split; congruence.
Qed.

(** ** Subscription *)

Lemma translate_IndexExpr_unsubscripted c base index options parent
    bname bline bcol bempty :
  translate base options (Some (IndexExpr c base index))
    = Ok (UnboundType bname [] bline bcol bempty) ->
  translate (IndexExpr c base index) options parent =
    if is_annotated_ref base then
      match index_args index with
      | [] => Raise IndexError
      | a :: _ => translate a options (Some (IndexExpr c base index))
      end
    else
      new_args ← map_result
                   (fun a => translate a options (Some (IndexExpr c base index)))
                   (index_args index);
      Ok (UnboundType bname new_args bline bcol
            (if bool_decide (new_args = []) then true else bempty)).
Proof.
  intros Hbase. rewrite translate_IndexExpr, Hbase. cbn [mbind result_bind].
  by rewrite bool_decide_eq_false_2 by (intros H; by apply H).
Qed.

(** X2: when the subscripted object is a reference resolved to the
    Annotated marker, the result is the translation of the first index
    element alone: the other elements are not translated at all, so the
    result is the same whatever they are. An empty tuple index raises
    [IndexError], not [TypeTranslationError]. *)
Theorem X2_annotated_first_element_only c base options parent bname bline bcol bempty :
  is_annotated_ref base = true ->
  (forall p, translate base options p = Ok (UnboundType bname [] bline bcol bempty)) ->
  (forall c1 a rest,
     translate (IndexExpr c base (TupleExpr c1 (a :: rest))) options parent
       = translate a options None)
  /\ (forall c1 c2 a rest rest',
        translate (IndexExpr c base (TupleExpr c1 (a :: rest))) options parent
          = translate (IndexExpr c base (TupleExpr c2 (a :: rest'))) options parent)
  /\ (forall c1,
        translate (IndexExpr c base (TupleExpr c1 [])) options parent = Raise IndexError)
  /\ (forall index,
        is_TupleExpr index = false ->
        translate (IndexExpr c base index) options parent = translate index options None).
Proof.
  intros Hann Hbase.
  assert (Hfirst : forall c1 a rest,
    translate (IndexExpr c base (TupleExpr c1 (a :: rest))) options parent
      = translate a options None).
  { intros c1 a rest.
    rewrite (translate_IndexExpr_unsubscripted _ _ _ _ _ _ _ _ _ (Hbase _)), Hann.
    cbn [index_args]. by apply parent_irrelevant. }
  split; [exact Hfirst|]. split; [|split].
  - intros c1 c2 a rest rest'. by rewrite !Hfirst.
  - intros c1.
    by rewrite (translate_IndexExpr_unsubscripted _ _ _ _ _ _ _ _ _ (Hbase _)), Hann.
  - intros index Hindex.
    rewrite (translate_IndexExpr_unsubscripted _ _ _ _ _ _ _ _ _ (Hbase _)), Hann.
    replace (index_args index) with [index] by (by destruct index).
    by apply parent_irrelevant.
Qed.

(** X3: an unsubscripted descriptor indexed by anything but a tuple
    literal (and not the Annotated marker) gets the translation of the
    index as its one argument; the other fields of the descriptor are
    those of the base. *)
Theorem X3_single_index_one_argument c base index options parent
    bname bline bcol bempty :
  is_annotated_ref base = false ->
  is_TupleExpr index = false ->
  translate base options (Some (IndexExpr c base index))
    = Ok (UnboundType bname [] bline bcol bempty) ->
  translate (IndexExpr c base index) options parent =
    (t ← translate index options None;
     Ok (UnboundType bname [t] bline bcol bempty)).
Proof.
  intros Hann Hindex Hbase.
  rewrite (translate_IndexExpr_unsubscripted _ _ _ _ _ _ _ _ _ Hbase), Hann.
  replace (index_args index) with [index] by (by destruct index).
  cbn [map_result].
  rewrite (parent_irrelevant index options (Some (IndexExpr c base index)) None)
    by reflexivity.
  by destruct (translate index options None).
Qed.

(** X4: a subscription whose base does not translate to an [UnboundType]
    raises [TypeTranslationError], whatever the index is; an exception of
    the base propagates. So the literal names [True] and [False], numbers,
    lists and unions cannot be subscripted. *)
Theorem X4_subscript_of_non_unbound_raises c base index options parent :
  (forall t,
     translate base options (Some (IndexExpr c base index)) = Ok t ->
     is_UnboundType t = false ->
     translate (IndexExpr c base index) options parent = Raise TypeTranslationError)
  /\ (forall x,
        translate base options (Some (IndexExpr c base index)) = Raise x ->
        translate (IndexExpr c base index) options parent = Raise x)
  /\ (forall c0 name fn,
        base = NameExpr c0 name fn -> name = "True" \/ name = "False" ->
        translate (IndexExpr c base index) options parent = Raise TypeTranslationError).
Proof.
  split; [|split].
  - intros t Hbase Ht. rewrite translate_IndexExpr, Hbase. by destruct t.
  - intros x Hbase. by rewrite translate_IndexExpr, Hbase.
  - intros c0 name fn -> [-> | ->]; reflexivity.
Qed.

(** ** Where a CallableArgument can come from *)

(** X5: provided the string sub-parser returns no [CallableArgument], the
    translator returns one only for a [CallExpr] whose parent is a list
    literal: never for a call in another position, and never through a
    subscription, a union, a negation or the Annotated marker. *)
Theorem X5_callable_argument_only_in_list e options parent t :
  (forall s fallback l c b,
     is_CallableArgument (parse_type_string s fallback l c b) = false) ->
  expr_to_unanalyzed_type parse_type_string e options parent = Ok t ->
  is_CallableArgument t = true ->
  is_ListExpr parent = true
  /\ exists c callee args arg_names, e = CallExpr c callee args arg_names.
Proof.
  intros Hpts. revert options parent t.
  induction e as [e Hleaf | c e name fn _ | c base index _ _ IHargs | c items _
                  | c items _ | c callee args arg_names _ _ | c op l r _ _
                  | c op e _] using expr_ind_all;
    intros options parent t Hrun Ht.
  - destruct e; try discriminate; cbn in Hrun;
      repeat case_decide; simplify_eq; try discriminate;
      by rewrite Hpts in Ht.
  - cbn [expr_to_unanalyzed_type] in Hrun.
    destruct (get_member_expr_fullname _); [|done].
    case_decide; simplify_eq; try discriminate.
  - rewrite translate_IndexExpr in Hrun.
    destruct (translate base options _) as [b|x]; [|done]. cbn in Hrun.
    destruct b as [bn bargs bl bc be| | | | | |]; try done.
    case_bool_decide; [done|].
    destruct (is_annotated_ref base).
    + destruct (index_args index) as [|a rest]; [done|].
      inversion IHargs as [|? ? IHa _]; subst.
      by destruct (IHa _ _ _ Hrun Ht) as [? _].
    + destruct (map_result _ _); cbn in Hrun; simplify_eq; try discriminate.
  - done.
  - cbn in Hrun. destruct (map_result _ _); cbn in Hrun; simplify_eq; try discriminate.
  - cbn [expr_to_unanalyzed_type] in Hrun.
    destruct (is_ListExpr parent); [|done]. split; [done|]. by eexists _, _, _, _.
  - cbn [expr_to_unanalyzed_type] in Hrun.
    destruct (_ && _); [|done].
    destruct (translate l options None); [|done].
    destruct (translate r options None); [|done].
    cbn in Hrun. simplify_eq; try discriminate.
  - rewrite translate_UnaryExpr in Hrun.
    destruct (translate e options None) as [ty|]; [|done]. cbn in Hrun.
    destruct ty; try done. destruct (_ && _); simplify_eq; try discriminate.
Qed.

(** ** The language version *)

(** X6: the options matter only through the test [python_version >= (3,
    10)]: two options that agree on it give the same result, value or
    exception, for every expression. *)
Theorem X6_options_matter_through_version_gate e o1 o2 parent :
  union_syntax_enabled o1 = union_syntax_enabled o2 ->
  expr_to_unanalyzed_type parse_type_string e o1 parent
    = expr_to_unanalyzed_type parse_type_string e o2 parent.
Proof.
  intros Hgate. revert parent.
  induction e as [e Hleaf | c e name fn _ | c base index IHbase _ IHargs | c items _
                  | c items IH | c callee args arg_names _ IH | c op l r IHl IHr
                  | c op e IH] using expr_ind_all;
    intros parent.
  - by destruct e.
  - done.
  - rewrite !translate_IndexExpr, IHbase.
    destruct (translate base o2 _) as [b|x]; [|done]. cbn [mbind result_bind].
    destruct b as [bn bargs bl bc be| | | | | |]; try done.
    case_bool_decide; [done|].
    destruct (is_annotated_ref base).
    + destruct (index_args index) as [|a rest]; [done|].
      inversion IHargs as [|? ? IHa _]; subst. apply IHa.
    + rewrite (map_result_ext
                 (fun a => translate a o1 (Some (IndexExpr c base index)))
                 (fun a => translate a o2 (Some (IndexExpr c base index)))); [done|].
      eapply Forall_impl; [exact IHargs|]. intros ? Hx; apply Hx.
  - done.
  - cbn [expr_to_unanalyzed_type].
    rewrite (map_result_ext
               (fun t => translate t o1 (Some (ListExpr c items)))
               (fun t => translate t o2 (Some (ListExpr c items)))); [done|].
    eapply Forall_impl; [exact IH|]. intros ? Hx; apply Hx.
  - cbn [expr_to_unanalyzed_type].
    destruct (is_ListExpr parent); [|done].
    destruct (callee_names callee); [|done]. cbn [mbind result_bind].
    rewrite (loop_ext
               (fun a => translate a o1 (Some (CallExpr c callee args arg_names)))
               (fun a => translate a o2 (Some (CallExpr c callee args arg_names))));
      [done|].
    eapply Forall_impl; [exact IH|]. intros ? Hx; apply Hx.
  - cbn [expr_to_unanalyzed_type]. by rewrite Hgate, IHl, IHr.
  - rewrite !translate_UnaryExpr. by rewrite IH.
Qed.

(** X7: a translation that succeeds keeps its value when the union syntax
    is switched on: supplying a version, or a newer one, never breaks an
    annotation and never changes its descriptor. *)
Theorem X7_enabling_union_syntax_preserves_results e o o' parent t :
  (union_syntax_enabled o = true -> union_syntax_enabled o' = true) ->
  expr_to_unanalyzed_type parse_type_string e o parent = Ok t ->
  expr_to_unanalyzed_type parse_type_string e o' parent = Ok t.
Proof.
  intros Hgate. revert parent t.
  change (forall parent, at_least (translate e o parent) (translate e o' parent)).
  induction e as [e Hleaf | c e name fn _ | c base index IHbase _ IHargs | c items _
                  | c items IH | c callee args arg_names _ IH | c op l r IHl IHr
                  | c op e IH] using expr_ind_all;
    intros parent.
  - destruct e; try discriminate; apply at_least_refl.
  - apply at_least_refl.
  - rewrite !translate_IndexExpr. apply at_least_bind; [apply IHbase|].
    intros b. destruct b as [bn bargs bl bc be| | | | | |]; try apply at_least_refl.
    case_bool_decide; [apply at_least_refl|].
    destruct (is_annotated_ref base).
    + destruct (index_args index) as [|a rest]; [apply at_least_refl|].
      inversion IHargs as [|? ? IHa _]; subst. apply IHa.
    + apply at_least_bind; [|intros; apply at_least_refl].
      apply map_result_at_least.
      eapply Forall_impl; [exact IHargs|]. intros ? Hx; apply Hx.
  - apply at_least_refl.
  - cbn [expr_to_unanalyzed_type].
    apply at_least_bind; [|intros; apply at_least_refl].
    apply map_result_at_least.
    eapply Forall_impl; [exact IH|]. intros ? Hx; apply Hx.
  - cbn [expr_to_unanalyzed_type].
    destruct (is_ListExpr parent); [|apply at_least_refl].
    apply at_least_bind; [apply at_least_refl|]. intros names.
    apply at_least_bind; [|intros; apply at_least_refl].
    apply loop_at_least.
    eapply Forall_impl; [exact IH|]. intros ? Hx; apply Hx.
  - cbn [expr_to_unanalyzed_type].
    destruct (bool_decide (op = "|")); cbn [andb]; [|apply at_least_refl].
    destruct (union_syntax_enabled o); [|by intros a].
    rewrite Hgate by done.
    apply at_least_bind; [apply IHl|]. intros tl.
    apply at_least_bind; [apply IHr|]. intros tr. apply at_least_refl.
  - rewrite !translate_UnaryExpr.
    apply at_least_bind; [apply IH|]. intros ty. apply at_least_refl.
Qed.

(** ** CallableArgument construction *)

Lemma translate_CallExpr_in_list c callee args arg_names options parent names :
  is_ListExpr parent = true ->
  callee_names callee = Ok names ->
  translate (CallExpr c callee args arg_names) options parent =
    (nt ← callable_argument_loop (fun a => translate a options None)
            arg_names 0 args None None;
     Ok (CallableArgument (default (AnyType unannotated) nt.2) nt.1
           (join_dot (rev names)) (line c) (column c))).
Proof.
  intros Hparent Hcallee. cbn [expr_to_unanalyzed_type].
  rewrite Hparent, Hcallee. cbn [mbind result_bind].
  rewrite (loop_ext
             (fun a => translate a options (Some (CallExpr c callee args arg_names)))
             (fun a => translate a options None)); [done|].
  apply Forall_forall. intros a _. by apply parent_irrelevant.
Qed.

(** X8: for a call in a list literal whose callee is a dotted name, the
    type and the name may be given by position ([Arg(T, n)]), by keyword
    in either order, or by a mix, with the same result; a type that is
    left out is [AnyType(unannotated)], a name that is left out is absent;
    the constructor name is the dotted name of the callee. *)
Theorem X8_callable_argument_forms_agree c callee names T N tT name options parent :
  is_ListExpr parent = true ->
  callee_names callee = Ok names ->
  translate T options None = Ok tT ->
  _extract_argument_name N = Ok name ->
  let call args arg_names :=
    expr_to_unanalyzed_type parse_type_string (CallExpr c callee args arg_names)
      options parent in
  let arg ty nm :=
    Ok (CallableArgument ty nm (join_dot (rev names)) (line c) (column c)) in
  call [T; N] [None; None] = arg tT name
  /\ call [T; N] [Some "type"; Some "name"] = arg tT name
  /\ call [N; T] [Some "name"; Some "type"] = arg tT name
  /\ call [T; N] [None; Some "name"] = arg tT name
  /\ call [T] [None] = arg tT None
  /\ call [T] [Some "type"] = arg tT None
  /\ call [N] [Some "name"] = arg (AnyType unannotated) name
  /\ call [] [] = arg (AnyType unannotated) None.
Proof.
  intros Hparent Hcallee HT HN call arg. subst call arg. cbn beta.
  rewrite !(translate_CallExpr_in_list _ _ _ _ _ _ _ Hparent Hcallee).
  cbn [callable_argument_loop lookup list_lookup].
  repeat (rewrite ?decide_True, ?decide_False by done).
  rewrite HT, HN. cbn [mbind result_bind].
  repeat (rewrite ?decide_True, ?decide_False by done).
  rewrite ?HT, ?HN. cbn [mbind result_bind].
  destruct name; repeat split; reflexivity.
Qed.

End Extra.

(** ** Closed instances *)

Lemma X2_annotated_first_element_only_witness :
  expr_to_unanalyzed_type parse_type_string_raw
    (IndexExpr (at_ 1 0) (NameExpr (at_ 1 0) "Annotated" (Some "typing.Annotated"))
       (TupleExpr (at_ 1 10)
          [NameExpr (at_ 1 10) "int" None; TupleExpr (at_ 1 15) []])) None None
  = Ok (UnboundType "int" [] 1 10 false).
Proof.
  refine (eq_trans
    (proj1 (X2_annotated_first_element_only parse_type_string_raw (at_ 1 0)
              (NameExpr (at_ 1 0) "Annotated" (Some "typing.Annotated")) None None
              "Annotated" 1 0 false _ _) (at_ 1 10) (NameExpr (at_ 1 10) "int" None)
              [TupleExpr (at_ 1 15) []]) _);
    [reflexivity | intros p; reflexivity | reflexivity].
Defined.

Lemma X3_single_index_one_argument_witness :
  expr_to_unanalyzed_type parse_type_string_raw
    (IndexExpr (at_ 1 0) (NameExpr (at_ 1 0) "List" None) (NameExpr (at_ 1 5) "int" None))
    None None
  = Ok (UnboundType "List" [UnboundType "int" [] 1 5 false] 1 0 false).
Proof.
  refine (eq_trans
    (X3_single_index_one_argument parse_type_string_raw (at_ 1 0)
       (NameExpr (at_ 1 0) "List" None) (NameExpr (at_ 1 5) "int" None) None None
       "List" 1 0 false _ _ _) _); reflexivity.
Defined.

Lemma X4_subscript_of_non_unbound_raises_witness :
  expr_to_unanalyzed_type parse_type_string_raw
    (IndexExpr (at_ 1 0) (IntExpr (at_ 1 0) 3) (NameExpr (at_ 1 2) "int" None)) None None
  = Raise TypeTranslationError.
Proof.
  refine (proj1 (X4_subscript_of_non_unbound_raises parse_type_string_raw (at_ 1 0)
                   (IntExpr (at_ 1 0) 3) (NameExpr (at_ 1 2) "int" None) None None)
            (RawExpressionType (Some (LitInt 3)) "builtins.int" 1 0) _ _);
    reflexivity.
Defined.

Lemma X5_callable_argument_only_in_list_witness :
  is_ListExpr (Some (ListExpr (at_ 1 0) [])) = true
  /\ exists c callee args arg_names,
       CallExpr (at_ 1 1) (NameExpr (at_ 1 1) "Arg" None) [] []
         = CallExpr c callee args arg_names.
Proof.
  refine (X5_callable_argument_only_in_list parse_type_string_raw
            (CallExpr (at_ 1 1) (NameExpr (at_ 1 1) "Arg" None) [] []) None
            (Some (ListExpr (at_ 1 0) []))
            (CallableArgument (AnyType unannotated) None "Arg" 1 1) _ _ _);
    [intros; reflexivity | reflexivity | reflexivity].
Defined.

Lemma X6_options_matter_through_version_gate_witness :
  expr_to_unanalyzed_type parse_type_string_raw
    (OpExpr (at_ 1 0) "|" (NameExpr (at_ 1 0) "int" None) (NameExpr (at_ 1 6) "str" None))
    (Some (mkOptions (3, 10)%Z)) None
  = expr_to_unanalyzed_type parse_type_string_raw
      (OpExpr (at_ 1 0) "|" (NameExpr (at_ 1 0) "int" None) (NameExpr (at_ 1 6) "str" None))
      (Some (mkOptions (4, 0)%Z)) None.
Proof.
  apply (X6_options_matter_through_version_gate parse_type_string_raw). reflexivity.
Defined.

Lemma X7_enabling_union_syntax_preserves_results_witness :
  expr_to_unanalyzed_type parse_type_string_raw
    (IndexExpr (at_ 1 0) (NameExpr (at_ 1 0) "List" None) (NameExpr (at_ 1 5) "int" None))
    (Some (mkOptions (3, 10)%Z)) None
  = Ok (UnboundType "List" [UnboundType "int" [] 1 5 false] 1 0 false).
Proof.
  apply (X7_enabling_union_syntax_preserves_results parse_type_string_raw _
           (Some (mkOptions (3, 9)%Z))).
  - discriminate.
  - reflexivity.
Defined.

Lemma X8_callable_argument_forms_agree_witness :
  expr_to_unanalyzed_type parse_type_string_raw
    (CallExpr (at_ 1 1)
       (MemberExpr (at_ 1 1) (NameExpr (at_ 1 1) "mypy_extensions" None) "Arg" None)
       [StrExpr (at_ 1 20) "x" true; NameExpr (at_ 1 30) "int" None]
       [Some "name"; Some "type"])
    None (Some (ListExpr (at_ 1 0) []))
  = Ok (CallableArgument (UnboundType "int" [] 1 30 false) (Some "x")
          "mypy_extensions.Arg" 1 1).
Proof.
  refine (proj1 (proj2 (proj2
    (X8_callable_argument_forms_agree parse_type_string_raw (at_ 1 1)
       (MemberExpr (at_ 1 1) (NameExpr (at_ 1 1) "mypy_extensions" None) "Arg" None)
       ["Arg"; "mypy_extensions"] (NameExpr (at_ 1 30) "int" None)
       (StrExpr (at_ 1 20) "x" true) (UnboundType "int" [] 1 30 false) (Some "x")
       None (Some (ListExpr (at_ 1 0) [])) _ _ _ _)))); reflexivity.
Defined.

End ExprToTypeExtra.

(* ===================================================================== *)
(** * Further facts about the pre-build visitor                           *)
(* ===================================================================== *)

Module PreBuildExtra.
Import PreBuild PreBuildFacts.
Local Open Scope list_scope.

(** ** Recognised registrations *)

(** X9: a decorator is recognised as a registration in exactly two
    shapes: a call [f.register(T)] with one argument, a reference that
    resolves to a class [T]; or the bare member [f.register] over a
    function whose first parameter is annotated with an instance of a
    class [T]. In both, [f] is a name that resolves to a decorated
    function, which is the dispatcher recorded with [T]. *)
Theorem X9_recognised_registration_shapes decorator func impl :
  get_singledispatch_register_call_info decorator func = Some impl <->
  (exists f_name f nd arg T,
     decorator = CallExpr (MemberExpr (NameExpr f_name (Some (DecoratorSym f)))
                             "register" nd) [arg]
     /\ ref_node arg = Some (Some (TypeInfoSym T))
     /\ impl = mkRegisteredImpl f T)
  \/ (exists f_name f nd arg0 rest T,
        decorator = MemberExpr (NameExpr f_name (Some (DecoratorSym f))) "register" nd
        /\ arguments func = arg0 :: rest
        /\ var_type (variable arg0) = Some (Instance T)
        /\ impl = mkRegisteredImpl f T).
Proof.
  split.
  - intros H. destruct decorator as [|e name nd|callee args| | | |]; try done.
    + right. cbn in H.
      destruct (arguments func) as [|arg0 rest] eqn:Hargs; [done|].
      destruct (var_type (variable arg0)) as [[T|]|] eqn:Hty; try done.
      destruct e as [f_name [[| |f| |]|]| | | | | |]; try done.
      destruct (decide (name = "register")) as [->|]; [|done].
      injection H as <-. by eexists f_name, f, nd, arg0, rest, T.
    + left. cbn in H. destruct args as [|arg [|? ?]]; try done.
      destruct (ref_node arg) as [[[| | |T|]|]|] eqn:Harg; try done.
      destruct callee as [|e name nd| | | | |]; try done. cbn in H.
      destruct e as [f_name [[| |f| |]|]| | | | | |]; try done.
      destruct (decide (name = "register")) as [->|]; [|done].
      injection H as <-. by eexists f_name, f, nd, arg, T.
  - intros [(f_name & f & nd & arg & T & -> & Harg & ->)
           |(f_name & f & nd & arg0 & rest & T & -> & Hargs & Hty & ->)]; cbn.
    + by rewrite Harg.
    + by rewrite Hargs, Hty.
Qed.

(** X10: the pairs the loop of [visit_decorator] leaves under a
    dispatcher are those that were there, followed by the registrations
    for that dispatcher among the decorators, in the order of the
    decorators; other dispatchers are not touched. *)
Theorem X10_registrations_appended_in_order func i ds impls removed key :
  default [] ((register_loop func i ds impls removed).1 !! key)
    = default [] (impls !! key) ++ registrations func key ds.
Proof.
  revert i impls removed. induction ds as [|d ds IH]; intros i impls removed.
  - cbn. by rewrite app_nil_r.
  - cbn [register_loop registrations omap list_omap].
    fold (registrations func key ds).
    destruct (get_singledispatch_register_call_info d func) as [impl|]; [|apply IH].
    rewrite IH. unfold setdefault_append.
    destruct (decide (singledispatch_func impl = key)) as [->|Hne].
    + rewrite lookup_insert_eq. cbn. by rewrite <- app_assoc.
    + by rewrite lookup_insert_ne.
Qed.

(** ** What every visit preserves *)

(** A relation between states that holds across each elementary update of
    the visitor holds across every visit. *)
Section Preserves.
Variable R : PreBuildVisitor -> PreBuildVisitor -> Prop.
Hypothesis R_refl : forall st, R st st.
Hypothesis R_trans : forall st1 st2 st3, R st1 st2 -> R st2 st3 -> R st1 st3.
Hypothesis R_symbol : forall symbol st u st',
  visit_symbol_node symbol st = Some (u, st') -> R st st'.
Hypothesis R_enter : forall id st, R st (enter_func id st).
Hypothesis R_leave : forall st, R st (leave_func st).
Hypothesis R_setter : forall id st,
  R st (set_prop_setters (prop_setters st ∪ {[id]}) st).
Hypothesis R_impls : forall v st, R st (set_singledispatch_impls v st).
Hypothesis R_decorators : forall v st, R st (set_funcs_to_decorators v st).

Lemma for_each_preserves {A B} (f : A -> M B) xs :
  Forall (fun x => forall st y st', f x st = Some (y, st') -> R st st') xs ->
  forall st ys st', for_each f xs st = Some (ys, st') -> R st st'.
Proof.
  induction 1 as [|x xs Hx _ IH]; intros st ys st' Hrun; cbn [for_each] in Hrun.
  - injection Hrun as _ <-. apply R_refl.
  - apply bind_Some in Hrun as (y & st1 & Hy & Hrun).
    apply bind_Some in Hrun as (ys' & st2 & Hys & Hrun).
    injection Hrun as _ <-. eapply R_trans; eauto.
Qed.

Lemma super_visit_decorator_preserves func var ds :
  (forall st f' st', visit_func func st = Some (f', st') -> R st st') ->
  Forall (fun d => forall st d' st', visit d st = Some (d', st') -> R st st') ds ->
  forall st n' st',
    super_visit_decorator visit visit_func func var ds st = Some (n', st') ->
    R st st'.
Proof.
  intros Hf Hds st n' st' Hrun. unfold super_visit_decorator in Hrun.
  apply bind_Some in Hrun as (func' & st1 & Hfunc & Hrun).
  apply bind_Some in Hrun as ([] & st2 & Hvar & Hrun).
  apply bind_Some in Hrun as (ds' & st3 & Hdecs & Hrun).
  injection Hrun as _ <-.
  eapply R_trans; [by eapply Hf|].
  eapply R_trans; [by eapply R_symbol|].
  by eapply for_each_preserves.
Qed.

Lemma visit_preserves_both :
  (forall n st n' st', visit n st = Some (n', st') -> R st st')
  /\ (forall f st f' st', visit_func f st = Some (f', st') -> R st st').
Proof.
  apply node_func_item_ind.
  - intros name node st n' st' Hrun. cbn [visit] in Hrun.
    apply bind_Some in Hrun as ([] & st1 & Hv & Hrun). injection Hrun as _ <-.
    destruct node as [[v|f|f|t|]|]; cbn in Hv;
      first [by eapply R_symbol | injection Hv as <-; apply R_refl].
  - intros e name node IH st n' st' Hrun. cbn [visit] in Hrun.
    apply bind_Some in Hrun as (e' & st1 & He & Hrun). injection Hrun as _ <-.
    by eapply IH.
  - intros callee args IHc IHa st n' st' Hrun. cbn [visit] in Hrun.
    apply bind_Some in Hrun as (args' & st1 & Ha & Hrun).
    apply bind_Some in Hrun as (callee' & st2 & Hc & Hrun).
    injection Hrun as _ <-.
    eapply R_trans; [by eapply for_each_preserves | by eapply IHc].
  - intros item IH st n' st' Hrun. cbn [visit] in Hrun.
    apply bind_Some in Hrun as (item' & st1 & Hi & Hrun). injection Hrun as _ <-.
    by eapply IH.
  - intros item IH st n' st' Hrun. cbn [visit] in Hrun.
    apply bind_Some in Hrun as (item' & st1 & Hi & Hrun). injection Hrun as _ <-.
    by eapply IH.
  - intros func var ds IHf IHds st n' st' Hrun.
    rewrite visit_Decorator in Hrun. unfold visit_decorator in Hrun.
    destruct ds as [|d0 ds'].
    { by eapply super_visit_decorator_preserves. }
    destruct (is_setter d0).
    { apply bind_Some in Hrun as ([] & st1 & Hmod & Hrun). injection Hmod as <-.
      eapply R_trans; [apply R_setter|].
      by eapply super_visit_decorator_preserves. }
    pose proof (remaining_decorators func (d0 :: ds') (singledispatch_impls st))
      as Hrem.
    destruct (register_loop func 0 (d0 :: ds') (singledispatch_impls st) [])
      as [impls removed].
    cbn [snd] in Hrem. rewrite Hrem in Hrun.
    destruct (filter (not_register func) (d0 :: ds')) as [|r rs] eqn:Hfilter.
    { injection Hrun as _ <-. apply R_impls. }
    eapply R_trans; [apply R_impls|]. eapply R_trans; [apply R_decorators|].
    eapply super_visit_decorator_preserves; [exact IHf| |exact Hrun].
    apply Forall_forall. intros d Hd. rewrite <- Hfilter in Hd.
    apply list_elem_of_filter in Hd as [_ Hd].
    exact (proj1 (Forall_forall _ _) IHds d Hd).
  - intros children IH st n' st' Hrun. cbn [visit] in Hrun.
    apply bind_Some in Hrun as (children' & st1 & Hc & Hrun).
    injection Hrun as _ <-. by eapply for_each_preserves.
  - intros id args stmts IHargs IHbody st f' st' Hrun. cbn [visit_func] in Hrun.
    apply bind_Some in Hrun as ([] & st0 & Henter & Hrun). injection Henter as <-.
    apply bind_Some in Hrun as (args' & st1 & Hargs & Hrun).
    apply bind_Some in Hrun as (us & st2 & Hvars & Hrun).
    apply bind_Some in Hrun as (body' & st3 & Hbody & Hrun).
    apply bind_Some in Hrun as ([] & st4 & Hleave & Hrun).
    injection Hleave as <-. injection Hrun as _ <-.
    eapply R_trans; [apply R_enter|].
    eapply R_trans.
    { eapply for_each_preserves; [|exact Hargs].
      eapply Forall_impl; [exact IHargs|]. intros arg Harg st5 y st6 Hy.
      cbn beta in *. destruct (initializer arg) as [init|].
      - apply bind_Some in Hy as (init' & st7 & Hinit & Hy). injection Hy as _ <-.
        by eapply Harg.
      - injection Hy as _ <-. apply R_refl. }
    eapply R_trans.
    { eapply for_each_preserves; [|exact Hvars].
      apply Forall_forall. intros arg _ st5 y st6 Hy. by eapply R_symbol. }
    eapply R_trans; [by eapply for_each_preserves|]. apply R_leave.
Qed.
End Preserves.

(** ** The stack of open functions *)

(** X11: every visit that returns leaves the stack of open functions as
    it found it, so each push of [visit_func] is matched by its pop; the
    pass over a unit ends with no function open. *)
Theorem X11_stack_restored n st n' st' :
  visit n st = Some (n', st') ->
  funcs st' = funcs st /\ (st = __init__ -> funcs st' = []).
Proof.
  intros Hrun. apply (proj1 visit_facts_both) in Hrun as (_ & Hfuncs & _).
  split; [done|]. intros ->. by rewrite Hfuncs.
Qed.

(** ** Units without functions *)

Lemma for_each_unchanged (st : PreBuildVisitor) (xs : list Node) :
  Forall (fun x => visit x st = Some (x, st)) xs ->
  for_each visit xs st = Some (xs, st).
Proof.
  induction 1 as [|x xs Hx _ IH]; [done|]. cbn [for_each].
  unfold mbind, M_bind. by rewrite Hx, IH.
Qed.

Lemma flat_map_nil_inv {A B} (f : A -> list B) xs :
  flat_map f xs = [] -> Forall (fun x => f x = []) xs.
Proof.
  induction xs as [|x xs IH]; [constructor|]. cbn.
  intros [Hx Hxs]%app_eq_nil. constructor; [done | by apply IH].
Qed.

(** X12: outside any function the visitor records nothing: the pass over
    a tree that holds no function, lambda or decorated function, started
    with no function open, returns the tree and the state it was given,
    whatever names the tree refers to. *)
Theorem X12_module_level_code_ignored n st :
  func_ids n = [] -> funcs st = [] -> visit n st = Some (n, st).
Proof.
  intros Hids Hfuncs. revert n Hids.
  refine (proj1 (node_func_item_ind
    (fun n => func_ids n = [] -> visit n st = Some (n, st)) (fun _ => True)
    _ _ _ _ _ _ _ _)).
  - intros name node _. cbn [visit]. unfold mbind, M_bind.
    assert (Hv : visit_name_expr node st = Some (tt, st)).
    { destruct node as [[v|f|f|t|]|]; cbn; try done;
        unfold visit_symbol_node; by rewrite Hfuncs. }
    by rewrite Hv.
  - intros e name node IH Hids. cbn [visit]. unfold mbind, M_bind.
    by rewrite (IH Hids).
  - intros callee args IHc IHa Hids. cbn [func_ids] in Hids.
    apply app_eq_nil in Hids as [Hargs Hcallee].
    cbn [visit]. unfold mbind, M_bind.
    rewrite (for_each_unchanged st args), (IHc Hcallee); [done|].
    apply flat_map_nil_inv in Hargs.
    apply Forall_forall. intros x Hx.
    exact (proj1 (Forall_forall _ _) IHa x Hx (proj1 (Forall_forall _ _) Hargs x Hx)).
  - intros [id args stmts] _ Hids. done.
  - intros [id args stmts] _ Hids. done.
  - intros [id args stmts] var ds _ _ Hids. done.
  - intros children IH Hids. cbn [func_ids] in Hids.
    cbn [visit]. unfold mbind, M_bind.
    rewrite (for_each_unchanged st children); [done|].
    apply flat_map_nil_inv in Hids.
    apply Forall_forall. intros x Hx.
    exact (proj1 (Forall_forall _ _) IH x Hx (proj1 (Forall_forall _ _) Hids x Hx)).
  - done.
Qed.

(** ** Property setters *)

Lemma prop_setters_grow_both :
  (forall n st n' st',
     visit n st = Some (n', st') -> prop_setters st ⊆ prop_setters st')
  /\ (forall f st f' st',
        visit_func f st = Some (f', st') -> prop_setters st ⊆ prop_setters st').
Proof.
  apply (visit_preserves_both (fun a b => prop_setters a ⊆ prop_setters b)).
  - done.
  - intros a b c Hab Hbc. set_solver.
  - intros symbol a u b H.
    by apply visit_symbol_node_frame in H as (_ & _ & _ & _ & _ & ->).
  - intros id a. unfold enter_func. by destruct (last (funcs a)).
  - done.
  - intros id a. cbn. set_solver.
  - done.
  - done.
Qed.

Lemma register_loop_no_register func i ds impls removed :
  existsb (is_register func) ds = false ->
  (register_loop func i ds impls removed).1 = impls.
Proof.
  revert i removed. induction ds as [|d ds IH]; intros i removed; [done|].
  cbn [existsb register_loop]. intros [Hd Hds]%orb_false_elim.
  destruct (get_singledispatch_register_call_info d func) as [impl|] eqn:Hinfo.
  - by rewrite (is_register_Some _ _ _ Hinfo) in Hd.
  - by apply IH.
Qed.

Lemma for_each_impls {A B} (f : A -> M B) (ok : A -> bool) xs :
  Forall (fun x => forall st y st',
            ok x = false -> f x st = Some (y, st') ->
            singledispatch_impls st' = singledispatch_impls st) xs ->
  existsb ok xs = false ->
  forall st ys st',
    for_each f xs st = Some (ys, st') ->
    singledispatch_impls st' = singledispatch_impls st.
Proof.
  induction 1 as [|x xs Hx _ IH]; intros Hok st ys st' Hrun; cbn [for_each] in Hrun.
  - by injection Hrun as _ <-.
  - cbn [existsb] in Hok. apply orb_false_elim in Hok as [Hokx Hokxs].
    apply bind_Some in Hrun as (y & st1 & Hy & Hrun).
    apply bind_Some in Hrun as (ys' & st2 & Hys & Hrun).
    injection Hrun as _ <-.
    rewrite (IH Hokxs _ _ _ Hys). by eapply Hx.
Qed.

(** A tree without registration decorators leaves [singledispatch_impls]
    as it was. *)
Lemma impls_unchanged_both :
  (forall n st n' st',
     has_registration n = false -> visit n st = Some (n', st') ->
     singledispatch_impls st' = singledispatch_impls st)
  /\ (forall f st f' st',
        has_registration_func f = false -> visit_func f st = Some (f', st') ->
        singledispatch_impls st' = singledispatch_impls st).
Proof.
  assert (Hsuper : forall func var ds,
    (forall st f' st',
       visit_func func st = Some (f', st') ->
       singledispatch_impls st' = singledispatch_impls st) ->
    (forall st ds' st',
       for_each visit ds st = Some (ds', st') ->
       singledispatch_impls st' = singledispatch_impls st) ->
    forall st n' st',
      super_visit_decorator visit visit_func func var ds st = Some (n', st') ->
      singledispatch_impls st' = singledispatch_impls st).
  { intros func var ds Hf Hds st n' st' Hrun. unfold super_visit_decorator in Hrun.
    apply bind_Some in Hrun as (func' & st1 & Hfunc & Hrun).
    apply bind_Some in Hrun as ([] & st2 & Hvar & Hrun).
    apply bind_Some in Hrun as (ds' & st3 & Hdecs & Hrun).
    injection Hrun as _ <-.
    rewrite (Hds _ _ _ Hdecs).
    apply visit_symbol_node_frame in Hvar as (_ & _ & _ & _ & -> & _).
    by eapply Hf. }
  apply node_func_item_ind.
  - intros name node st n' st' _ Hrun. cbn [visit] in Hrun.
    apply bind_Some in Hrun as ([] & st1 & Hv & Hrun). injection Hrun as _ <-.
    by apply visit_name_expr_frame in Hv as (_ & _ & _ & _ & -> & _).
  - intros e name node IH st n' st' Hreg Hrun. cbn [visit] in Hrun.
    apply bind_Some in Hrun as (e' & st1 & He & Hrun). injection Hrun as _ <-.
    by eapply IH.
  - intros callee args IHc IHa st n' st' Hreg Hrun.
    cbn [has_registration] in Hreg. apply orb_false_elim in Hreg as [Hc Ha].
    cbn [visit] in Hrun.
    apply bind_Some in Hrun as (args' & st1 & Hargs & Hrun).
    apply bind_Some in Hrun as (callee' & st2 & Hcallee & Hrun).
    injection Hrun as _ <-.
    rewrite (IHc _ _ _ Hc Hcallee).
    eapply (for_each_impls visit has_registration); [|exact Ha|exact Hargs].
    eapply Forall_impl; [exact IHa|]. intros x Hx st3 y st4 Hok Hy. by eapply Hx.
  - intros item IH st n' st' Hreg Hrun. cbn [visit] in Hrun.
    apply bind_Some in Hrun as (item' & st1 & Hi & Hrun). injection Hrun as _ <-.
    by eapply IH.
  - intros item IH st n' st' Hreg Hrun. cbn [visit] in Hrun.
    apply bind_Some in Hrun as (item' & st1 & Hi & Hrun). injection Hrun as _ <-.
    by eapply IH.
  - intros func var ds IHf IHds st n' st' Hreg Hrun.
    cbn [has_registration] in Hreg.
    apply orb_false_elim in Hreg as [[Hown Hfunc]%orb_false_elim Hds].
    assert (Hdecs : forall ds0, ds0 ⊆ ds -> forall st0 ds' st1,
              for_each visit ds0 st0 = Some (ds', st1) ->
              singledispatch_impls st1 = singledispatch_impls st0).
    { intros ds0 Hsub. apply (for_each_impls visit has_registration).
      - apply Forall_forall. intros d Hd st3 y st4 Hok Hy.
        exact (proj1 (Forall_forall _ _) IHds d (Hsub _ Hd) _ _ _ Hok Hy).
      - apply not_true_is_false. intros [d [Hd Hd']]%existsb_exists.
        apply list_elem_of_In, Hsub, list_elem_of_In in Hd.
        assert (existsb has_registration ds = true)
          by (apply existsb_exists; eauto).
        congruence. }
    rewrite visit_Decorator in Hrun. unfold visit_decorator in Hrun.
    destruct ds as [|d0 ds'].
    { eapply Hsuper; [|by apply Hdecs|exact Hrun]. intros. by eapply IHf. }
    destruct (is_setter d0).
    { apply bind_Some in Hrun as ([] & st1 & Hmod & Hrun). injection Hmod as <-.
      eapply (Hsuper func var (d0 :: ds')) in Hrun;
        [exact Hrun | intros; by eapply IHf | by apply Hdecs]. }
    pose proof (remaining_decorators func (d0 :: ds') (singledispatch_impls st))
      as Hrem.
    pose proof (register_loop_no_register func 0 (d0 :: ds') (singledispatch_impls st)
                  [] Hown) as Hsame.
    destruct (register_loop func 0 (d0 :: ds') (singledispatch_impls st) [])
      as [impls removed].
    cbn [fst snd] in Hrem, Hsame. subst impls. rewrite Hrem in Hrun.
    destruct (filter (not_register func) (d0 :: ds')) as [|r rs] eqn:Hfilter.
    { by injection Hrun as _ <-. }
    eapply (Hsuper func var (r :: rs)) in Hrun;
      [exact Hrun | intros; by eapply IHf |].
    apply Hdecs. rewrite <- Hfilter. intros d Hd.
    by apply list_elem_of_filter in Hd as [_ Hd].
  - intros children IH st n' st' Hreg Hrun. cbn [has_registration] in Hreg.
    cbn [visit] in Hrun.
    apply bind_Some in Hrun as (children' & st1 & Hc & Hrun).
    injection Hrun as _ <-.
    eapply (for_each_impls visit has_registration); [|exact Hreg|exact Hc].
    eapply Forall_impl; [exact IH|]. intros x Hx st3 y st4 Hok Hy. by eapply Hx.
  - intros id args stmts IHargs IHbody st f' st' Hreg Hrun.
    cbn [has_registration_func] in Hreg.
    apply orb_false_elim in Hreg as [Hargs_ok Hbody_ok].
    cbn [visit_func] in Hrun.
    apply bind_Some in Hrun as ([] & st0 & Henter & Hrun). injection Henter as <-.
    apply bind_Some in Hrun as (args' & st1 & Hargs & Hrun).
    apply bind_Some in Hrun as (us & st2 & Hvars & Hrun).
    apply bind_Some in Hrun as (body' & st3 & Hbody & Hrun).
    apply bind_Some in Hrun as ([] & st4 & Hleave & Hrun).
    injection Hleave as <-. injection Hrun as _ <-.
    change (singledispatch_impls (leave_func st3)) with (singledispatch_impls st3).
    transitivity (singledispatch_impls st2).
    { eapply (for_each_impls visit has_registration); [|exact Hbody_ok|exact Hbody].
      eapply Forall_impl; [exact IHbody|]. intros x Hx st5 y st6 Hok Hy. by eapply Hx. }
    transitivity (singledispatch_impls st1).
    { eapply (for_each_impls _ (fun _ => false)); [| |exact Hvars].
      - apply Forall_forall. intros arg _ st5 y st6 _ Hy.
        by apply visit_symbol_node_frame in Hy as (_ & _ & _ & _ & -> & _).
      - clear. by induction args. }
    transitivity (singledispatch_impls (enter_func id st)).
    { eapply (for_each_impls _ (fun arg : Argument =>
                 match initializer arg with
                 | Some init => has_registration init
                 | None => false
                 end)); [|exact Hargs_ok|exact Hargs].
      eapply Forall_impl; [exact IHargs|]. intros arg Harg st5 y st6 Hok Hy.
      cbn beta in *. destruct (initializer arg) as [init|].
      - apply bind_Some in Hy as (init' & st7 & Hinit & Hy). injection Hy as _ <-.
        by eapply Harg.
      - by injection Hy as _ <-. }
    unfold enter_func. by destruct (last (funcs st)).
Qed.

(** X13: a decorated function whose first decorator is a [setter] member
    access is put in [prop_setters] and stays there. The visit is then the
    base traversal, from the state in which only [prop_setters] has
    changed: the function is walked, then the variable, then all the
    decorators. So the visit gives the function no entry in
    [funcs_to_decorators] and deletes nothing from its decorator list; and
    the registrations in that list are not recorded: when neither the
    function nor any decorator holds a decorated function with a
    registration of its own, [singledispatch_impls] is after the visit
    what it was before. *)
Theorem X13_setter_recorded_not_decorated func var d0 ds st n' st' :
  is_setter d0 = true ->
  NoDup (func_ids (Decorator func var (d0 :: ds))) ->
  visit (Decorator func var (d0 :: ds)) st = Some (n', st') ->
  func_id func ∈ prop_setters st'
  /\ funcs_to_decorators st' !! func_id func = funcs_to_decorators st !! func_id func
  /\ n' = Decorator (after_pass_func func) var (map after_pass (d0 :: ds))
  /\ (exists st1 st2,
        visit_func func (set_prop_setters (prop_setters st ∪ {[func_id func]}) st)
          = Some (after_pass_func func, st1)
        /\ visit_var var st1 = Some (tt, st2)
        /\ for_each visit (d0 :: ds) st2 = Some (map after_pass (d0 :: ds), st'))
  /\ (has_registration_func func = false ->
      existsb has_registration (d0 :: ds) = false ->
      singledispatch_impls st' = singledispatch_impls st).
Proof.
  intros Hsetter Hnd Hrun.
  destruct visit_facts_both as [HP HQ].
  destruct prop_setters_grow_both as [GP GQ].
  destruct impls_unchanged_both as [IP IQ].
  assert (Hfresh : func_id func ∉ tail (func_ids_of func) ++ flat_map func_ids (d0 :: ds)).
  { cbn [func_ids] in Hnd. destruct func as [id args stmts].
    cbn [func_ids_of tail func_id app] in *.
    by apply NoDup_cons in Hnd as [? _]. }
  rewrite visit_Decorator in Hrun. unfold visit_decorator in Hrun.
  rewrite Hsetter in Hrun.
  apply bind_Some in Hrun as ([] & st1 & Hmod & Hrun). injection Hmod as <-.
  pose proof Hrun as Hrun'.
  apply (super_visit_decorator_facts func var (d0 :: ds) (HQ func)
           (proj2 (Forall_forall _ _) (fun d _ => HP d))) in Hrun
    as [Hn' (_ & _ & Hd)].
  unfold super_visit_decorator in Hrun'.
  apply bind_Some in Hrun' as (func' & st2 & Hfunc & Hrun').
  apply bind_Some in Hrun' as ([] & st3 & Hvar & Hrun').
  apply bind_Some in Hrun' as (ds' & st4 & Hdecs & Hrun').
  injection Hrun' as Hds' <-.
  destruct (HQ _ _ _ _ Hfunc) as [-> _].
  assert (ds' = map after_pass (d0 :: ds)) as ->.
  { rewrite Hn' in Hds'. by injection Hds'. }
  split.
  { apply GQ in Hfunc as Hg1.
    apply visit_symbol_node_frame in Hvar as (_ & _ & _ & _ & _ & Hg2).
    assert (Hg3 : prop_setters st3 ⊆ prop_setters st4).
    { eapply (for_each_preserves (fun a b => prop_setters a ⊆ prop_setters b));
        [done | | |exact Hdecs].
      - intros a b c Hab Hbc. by etransitivity.
      - apply Forall_forall. intros d _ a d' b H. by eapply GP. }
    apply Hg3. rewrite Hg2. apply Hg1. cbn.
    apply elem_of_union_r. by apply elem_of_singleton. }
  split; [by rewrite (Hd _ Hfresh)|]. split; [done|].
  split; [by exists st2, st3|].
  intros Hfunc_ok Hds_ok.
  transitivity (singledispatch_impls st3).
  { eapply (for_each_impls visit has_registration); [|exact Hds_ok|exact Hdecs].
    apply Forall_forall. intros d _ st5 y st6 Hok Hy. by eapply IP. }
  apply visit_symbol_node_frame in Hvar as (_ & _ & _ & _ & -> & _).
  by rewrite (IQ _ _ _ _ Hfunc_ok Hfunc).
Qed.

(** ** The rule for symbols *)

Lemma is_parent_ancestor st F G b :
  is_parent st F G = Some b -> (b = true <-> ancestor (nested_funcs st) F G).
Proof. apply is_parent_fuel_ancestor. Qed.


(** ** Free variables and owners only accumulate *)

Lemma setdefault_add_grow k x (d : gmap ident (gset SymbolNode)) F vars :
  d !! F = Some vars ->
  exists vars', setdefault_add k x d !! F = Some vars' /\ vars ⊆ vars'.
Proof.
  intros H. unfold setdefault_add. destruct (decide (k = F)) as [->|Hne].
  - rewrite lookup_insert_eq, H. eexists. split; [done|]. cbn. set_solver.
  - rewrite lookup_insert_ne by done. eauto.
Qed.

Lemma symbols_grow_refl st : symbols_grow st st.
Proof. split; [intros F vars H; eauto | done]. Qed.

Lemma symbols_grow_trans st1 st2 st3 :
  symbols_grow st1 st2 -> symbols_grow st2 st3 -> symbols_grow st1 st3.
Proof.
  intros [Hf1 Ho1] [Hf2 Ho2]. split.
  - intros F vars H. destruct (Hf1 _ _ H) as (v1 & H1 & Hs1).
    destruct (Hf2 _ _ H1) as (v2 & H2 & Hs2). exists v2. split; [done | set_solver].
  - intros symbol H. by apply Ho2, Ho1.
Qed.

Lemma symbols_grow_same st st' :
  free_variables st' = free_variables st ->
  symbols_to_funcs st' = symbols_to_funcs st -> symbols_grow st st'.
Proof. intros Hf Ho. split; rewrite ?Hf, ?Ho; [intros F vars H; eauto | done]. Qed.

Lemma is_Some_insert_keep {V} (m : gmap SymbolNode V) k v s :
  is_Some (m !! s) -> is_Some (<[k := v]> m !! s).
Proof.
  intros H. destruct (decide (k = s)) as [->|Hne].
  - rewrite lookup_insert_eq. eauto.
  - by rewrite lookup_insert_ne.
Qed.

Lemma visit_symbol_node_grow symbol st u st' :
  visit_symbol_node symbol st = Some (u, st') -> symbols_grow st st'.
Proof.
  unfold visit_symbol_node, add_free_variable.
  destruct (last (funcs st)) as [top|];
    [|intros [= _ <-]; apply symbols_grow_refl].
  destruct (symbols_to_funcs st !! symbol) as [orig|] eqn:Horig.
  - destruct (is_parent st top orig) as [[|]|]; [| |done].
    + intros [= _ <-]. split; cbn.
      * intros F vars H. by apply setdefault_add_grow.
      * intros s H. by apply is_Some_insert_keep.
    + destruct (is_parent st orig top) as [[|]|]; [| |done].
      * intros [= _ <-]. split; cbn; [|done].
        intros F vars H. by apply setdefault_add_grow.
      * intros [= _ <-]. apply symbols_grow_refl.
  - intros [= _ <-]. split; cbn.
    + intros F vars H. eauto.
    + intros s H. by apply is_Some_insert_keep.
Qed.

(** X15: across any visit the free variables recorded for a function are
    never taken back, and a symbol that has an owner keeps having one: in
    particular, when the owner of a symbol is corrected to an outer
    function, the symbol stays a free variable of the former owner. *)
Theorem X15_free_variables_only_grow n st n' st' :
  visit n st = Some (n', st') -> symbols_grow st st'.
Proof.
  refine (proj1 (visit_preserves_both symbols_grow _ _ _ _ _ _ _ _) n st n' st').
  - apply symbols_grow_refl.
  - apply symbols_grow_trans.
  - apply visit_symbol_node_grow.
  - intros id a. apply symbols_grow_same; unfold enter_func;
      by destruct (last (funcs a)).
  - intros a. by apply symbols_grow_same.
  - intros id a. by apply symbols_grow_same.
  - intros v a. by apply symbols_grow_same.
  - intros v a. by apply symbols_grow_same.
Qed.

(** ** Invariants of the state at every point of the pass *)

Lemma step_effect k st c' : step (k, st) = Some c' -> effect k st c'.2.
Proof.
  intros Hstep. unfold step in Hstep. cbn [fst snd] in Hstep.
  destruct k as [|[n|f|v|] k]; [done| | | |].
  - destruct n as [name node|e name node|callee args|item|item|func var ds|children];
      try (injection Hstep as <-; by apply effect_other).
    + destruct (visit_name_expr node st) as [[[] st1]|] eqn:Hv; [|done].
      injection Hstep as <-. cbn [snd].
      destruct node as [[v|f|f|t|]|]; cbn in Hv;
        first [by eapply effect_symbol
              | injection Hv as <-; by apply effect_other].
    + destruct ds as [|d0 ds']; [injection Hstep as <-; by apply effect_other|].
      destruct (is_setter d0); [injection Hstep as <-; by apply effect_other|].
      destruct (register_loop func 0 (d0 :: ds') (singledispatch_impls st) [])
        as [impls removed].
      destruct (delete_reversed removed (d0 :: ds'));
        injection Hstep as <-; by apply effect_other.
  - injection Hstep as <-. by eapply effect_enter.
  - destruct (visit_var v st) as [[[] st1]|] eqn:Hv; [|done].
    injection Hstep as <-. by eapply effect_symbol.
  - injection Hstep as <-. by apply effect_leave.
Qed.

(** A function about to be entered has no link yet, is not open, and is
    no parent. *)
Lemma enter_fresh f k st :
  invariant (TVisitFunc f :: k, st) ->
  nested_funcs st !! func_id f = None
  /\ (func_id f ∉ funcs st)
  /\ (forall child, nested_funcs st !! child ≠ Some (func_id f)).
Proof.
  intros (entered & rank & [Hnd Hfresh Hfuncs Hlinks]). cbn [fst snd] in *.
  assert (Hid : func_id f ∉ entered).
  { apply Hfresh. destruct f; cbn. by left. }
  split; [|split].
  - destruct (nested_funcs st !! func_id f) as [p|] eqn:H; [|done].
    by apply Hlinks in H as (? & _).
  - intros H. by apply Hfuncs in H.
  - intros child H. by apply Hlinks in H as (_ & ? & _).
Qed.

(** A property of states that holds at the start and across every move
    from a configuration satisfying the invariant of the traversal holds
    at every point of the pass. *)
Lemma reachable_invariant (I : PreBuildVisitor -> Prop) :
  I __init__ ->
  (forall k st c', invariant (k, st) -> I st -> step (k, st) = Some c' -> I c'.2) ->
  forall unit k st,
    NoDup (func_ids unit) -> steps (initial unit) (k, st) -> I st.
Proof.
  intros Hinit Hstep unit k st Hnd Hsteps.
  assert (Hgen : forall c c', steps c c' -> invariant c -> I c.2 -> I c'.2).
  { induction 1 as [|[k1 st1] c1 c2 Hs _ IH]; [done|]. intros Hinv HI.
    apply IH; [by eapply invariant_step | by eapply Hstep]. }
  apply (Hgen _ _ Hsteps); [by apply invariant_initial | done].
Qed.

(** The state the pass returns is the last point of the pass. *)
Lemma analyze_reachable unit unit' st :
  analyze unit = Some (unit', st) -> steps (initial unit) ([], st).
Proof.
  intros H. pose proof (visit_steps unit __init__ []) as Hout.
  unfold analyze in H. by rewrite H in Hout.
Qed.

Lemma enter_func_fields id st :
  free_variables (enter_func id st) = free_variables st
  /\ symbols_to_funcs (enter_func id st) = symbols_to_funcs st
  /\ funcs (enter_func id st) = funcs st ++ [id].
Proof. unfold enter_func. by destruct (last (funcs st)). Qed.

Lemma enter_func_links id st :
  match last (funcs st) with
  | Some top =>
      nested_funcs (enter_func id st) = <[id:=top]> (nested_funcs st)
      /\ encapsulating_funcs (enter_func id st)
         = <[top:=default [] (encapsulating_funcs st !! top) ++ [id]]>
             (encapsulating_funcs st)
  | None =>
      nested_funcs (enter_func id st) = nested_funcs st
      /\ encapsulating_funcs (enter_func id st) = encapsulating_funcs st
  end.
Proof. unfold enter_func. by destruct (last (funcs st)). Qed.

(** X16: at every point of the pass [encapsulating_funcs] is the inverse
    of [nested_funcs]: a function is in the list of another exactly when
    that one is its parent, and it is in the list once. *)
Theorem X16_children_inverse_of_parent unit k st :
  NoDup (func_ids unit) -> steps (initial unit) (k, st) -> children_inverse st.
Proof.
  apply (reachable_invariant children_inverse).
  { unfold children_inverse, __init__.
    cbn [nested_funcs encapsulating_funcs]. split.
    - intros c p. split.
      + intros H. by apply lookup_empty_Some in H.
      + intros (l & H & _). by apply lookup_empty_Some in H.
    - intros p l H. by apply lookup_empty_Some in H. }
  clear. intros k st c' Hinv [Hiff Hnd] Hstep.
  destruct (step_effect _ _ _ Hstep) as [s u Hv | f k' -> -> | -> | Hf Hn He _ _].
  - apply visit_symbol_node_frame in Hv as (_ & Hn & He & _).
    unfold children_inverse. by rewrite Hn, He.
  - destruct (enter_fresh _ _ _ Hinv) as (Hnone & _ & Hnoparent).
    pose proof (enter_func_links (func_id f) st) as Hlinks.
    unfold children_inverse.
    destruct (last (funcs st)) as [top|]; destruct Hlinks as [-> ->]; [|done].
    assert (Hnotin : forall p l, encapsulating_funcs st !! p = Some l -> func_id f ∉ l).
    { intros p l Hl Hin.
      assert (nested_funcs st !! func_id f = Some p) by (apply Hiff; eauto).
      congruence. }
    split.
    + intros c p. destruct (decide (func_id f = c)) as [<-|Hc].
      * rewrite lookup_insert_eq. split.
        -- intros [= <-]. rewrite lookup_insert_eq. eexists. split; [done|].
           apply elem_of_app. right. by apply list_elem_of_singleton.
        -- intros (l & Hl & Hin). destruct (decide (top = p)) as [<-|Hp]; [done|].
           rewrite lookup_insert_ne in Hl by done. by destruct (Hnotin _ _ Hl).
      * rewrite lookup_insert_ne by done. rewrite Hiff.
        destruct (decide (top = p)) as [<-|Hp].
        -- rewrite lookup_insert_eq. split.
           ++ intros (l & Hl & Hin). rewrite Hl. eexists. split; [done|].
              apply elem_of_app. by left.
           ++ intros (l & [= <-] & Hin).
              apply elem_of_app in Hin as [Hin|Hin%list_elem_of_singleton]; [|done].
              destruct (encapsulating_funcs st !! top) as [l0|] eqn:Hl0; [eauto|].
              by apply elem_of_nil in Hin.
        -- by rewrite lookup_insert_ne.
    + intros p l. destruct (decide (top = p)) as [<-|Hp].
      * rewrite lookup_insert_eq. intros [= <-].
        destruct (encapsulating_funcs st !! top) as [l0|] eqn:Hl0; cbn.
        -- apply NoDup_app. split; [by eapply Hnd|]. split; [|apply NoDup_singleton].
           intros x Hx ->%list_elem_of_singleton. by eapply Hnotin.
        -- apply NoDup_singleton.
      * rewrite lookup_insert_ne by done. apply Hnd.
  - done.
  - unfold children_inverse. by rewrite Hn, He.
Qed.

Lemma removelast_lookup {A} (l : list A) i x :
  removelast l !! i = Some x -> l !! i = Some x.
Proof.
  destruct l as [|y l] using rev_ind; [done|].
  rewrite removelast_last. apply lookup_app_l_Some.
Qed.

Lemma removelast_NoDup {A} (l : list A) : NoDup l -> NoDup (removelast l).
Proof.
  destruct l as [|y l _] using rev_ind; [done|].
  rewrite removelast_last. by intros [? _]%NoDup_app.
Qed.

Lemma stack_chain_initial : stack_chain __init__.
Proof.
  unfold stack_chain, __init__. cbn [funcs nested_funcs].
  split; [apply NoDup_nil_2|]. split; by intros.
Qed.

(** Every move keeps the stack a chain of parents. *)
Lemma stack_chain_step k st c' :
  invariant (k, st) -> stack_chain st -> step (k, st) = Some c' -> stack_chain c'.2.
Proof.
  intros Hinv (Hnd & Hbottom & Hchain) Hstep.
  destruct (step_effect _ _ _ Hstep) as [s u Hv | f k' -> -> | -> | Hf Hn _ _ _].
  - apply visit_symbol_node_frame in Hv as (Hf & Hn & _).
    unfold stack_chain. by rewrite Hf, Hn.
  - destruct (enter_fresh _ _ _ Hinv) as (Hnone & Hnotin & _).
    pose proof (enter_func_links (func_id f) st) as Hlinks.
    destruct (enter_func_fields (func_id f) st) as (_ & _ & Hfuncs).
    unfold stack_chain. rewrite Hfuncs.
    assert (Hold : forall i g, funcs st !! i = Some g -> g ≠ func_id f).
    { intros i g Hg ->. apply Hnotin. by eapply list_elem_of_lookup_2. }
    assert (Hkeep : forall g, g ≠ func_id f ->
              nested_funcs (enter_func (func_id f) st) !! g = nested_funcs st !! g).
    { intros g Hg. destruct (last (funcs st)); destruct Hlinks as [-> _]; [|done].
      by rewrite lookup_insert_ne. }
    assert (Hnew : nested_funcs (enter_func (func_id f) st) !! func_id f
                   = last (funcs st)).
    { destruct (last (funcs st)); destruct Hlinks as [-> _]; [|done].
      by rewrite lookup_insert_eq. }
    clear Hlinks. split; [|split].
    + apply NoDup_app. split; [done|]. split; [|apply NoDup_singleton].
      by intros x Hx ->%list_elem_of_singleton.
    + intros g Hg. destruct (funcs st) as [|g0 l] eqn:Hl.
      * cbn in Hg. injection Hg as <-. by rewrite Hnew.
      * cbn in Hg. injection Hg as <-.
        rewrite Hkeep by (by apply (Hold 0)). by apply Hbottom.
    + intros i parent child Hp Hc.
      apply lookup_app_Some in Hc as [Hc|[Hlen Hc]].
      * apply lookup_app_Some in Hp as [Hp|[Hlen _]];
          [|apply lookup_lt_Some in Hc; lia].
        rewrite Hkeep by (by eapply Hold). by eapply Hchain.
      * apply list_lookup_singleton_Some in Hc as [Hi <-].
        apply lookup_app_Some in Hp as [Hp|[Hlen' _]]; [|lia].
        assert (i = pred (length (funcs st))) as -> by lia.
        by rewrite Hnew, last_lookup.
  - unfold stack_chain, leave_func. cbn [funcs nested_funcs set_funcs].
    split; [by apply removelast_NoDup|]. split.
    + intros g Hg%removelast_lookup. by apply Hbottom.
    + intros i p c Hp%removelast_lookup Hc%removelast_lookup. by eapply Hchain.
  - unfold stack_chain. by rewrite Hf, Hn.
Qed.

(** X17: at every point of the pass the stack [funcs] is a chain of
    parents: no function is open twice, the bottom one has no parent, and
    each other one has the one below it as its parent. *)
Theorem X17_stack_is_chain_of_parents unit k st :
  NoDup (func_ids unit) -> steps (initial unit) (k, st) -> stack_chain st.
Proof.
  apply (reachable_invariant stack_chain).
  - exact stack_chain_initial.
  - exact stack_chain_step.
Qed.

Lemma ancestor_has_child nested F G :
  ancestor nested F G -> exists child, nested !! child = Some F.
Proof. induction 1; eauto. Qed.

Lemma ancestor_trans nested A B C :
  ancestor nested A B -> ancestor nested B C -> ancestor nested A C.
Proof.
  intros HAB. induction 1 as [C H|C p H _ IH]; by eapply ancestor_link.
Qed.

Lemma ancestor_insert_fresh nested id top F G :
  nested !! id = None -> ancestor nested F G -> ancestor (<[id:=top]> nested) F G.
Proof.
  intros Hid. induction 1 as [G H|G p H _ IH].
  - apply ancestor_parent. rewrite lookup_insert_ne; [done|]. intros ->. congruence.
  - eapply ancestor_link; [|exact IH].
    rewrite lookup_insert_ne; [done|]. intros ->. congruence.
Qed.

Lemma setdefault_add_lookup k x (d : gmap ident (gset SymbolNode)) F vars :
  setdefault_add k x d !! F = Some vars ->
  (F = k /\ vars = default ∅ (d !! k) ∪ {[x]}) \/ (F ≠ k /\ d !! F = Some vars).
Proof.
  unfold setdefault_add. destruct (decide (k = F)) as [->|Hne].
  - rewrite lookup_insert_eq. intros [= <-]. by left.
  - rewrite lookup_insert_ne by done. right. split; [congruence|done].
Qed.

Lemma default_elem_of (d : gmap ident (gset SymbolNode)) k (s : SymbolNode) :
  s ∈ default ∅ (d !! k) -> exists vars, d !! k = Some vars /\ s ∈ vars.
Proof.
  destruct (d !! k) as [vars|]; cbn; [eauto|]. intros H. by apply elem_of_empty in H.
Qed.

Lemma visit_symbol_node_sound symbol st u st' :
  free_variables_sound st ->
  visit_symbol_node symbol st = Some (u, st') -> free_variables_sound st'.
Proof.
  intros HI. unfold visit_symbol_node, add_free_variable.
  destruct (last (funcs st)) as [top|]; [|by intros [= _ <-]].
  destruct (symbols_to_funcs st !! symbol) as [orig|] eqn:Horig.
  - destruct (is_parent st top orig) as [[|]|] eqn:H1; [| |done].
    + intros [= _ <-].
      assert (Hanc : ancestor (nested_funcs st) top orig)
        by (by apply (is_parent_ancestor _ _ _ _ H1)).
      intros F vars HF. cbn in HF |- *.
      assert (Hsym : forall vars0, free_variables st !! F = Some vars0 ->
                symbol ∈ vars0 -> top = F \/ ancestor (nested_funcs st) top F).
      { intros vars0 H0 Hin. destruct (HI _ _ H0) as [_ Hown].
        destruct (Hown _ Hin) as (o & Ho & Hrel). rewrite Horig in Ho.
        injection Ho as <-. right. destruct Hrel as [<-|Hrel]; [done|].
        by eapply ancestor_trans. }
      assert (Hold : forall vars0, free_variables st !! F = Some vars0 ->
                forall s, s ∈ vars0 ->
                  exists owner, <[symbol:=top]> (symbols_to_funcs st) !! s = Some owner
                    /\ (owner = F \/ ancestor (nested_funcs st) owner F)).
      { intros vars0 H0 s Hin. destruct (decide (symbol = s)) as [<-|Hne].
        - rewrite lookup_insert_eq. eexists. split; [done|]. by eapply Hsym.
        - rewrite lookup_insert_ne by done. by eapply HI. }
      apply setdefault_add_lookup in HF as [[-> ->]|[Hne HF]].
      * split; [by eapply ancestor_has_child|].
        intros s [Hin|Hin%elem_of_singleton]%elem_of_union.
        -- apply default_elem_of in Hin as (vars0 & H0 & Hin). by eapply Hold.
        -- subst s. rewrite lookup_insert_eq. eexists. split; [done|]. by left.
      * split; [by eapply HI|]. by apply Hold.
    + destruct (is_parent st orig top) as [[|]|] eqn:H2; [| |done].
      * intros [= _ <-].
        assert (Hanc : ancestor (nested_funcs st) orig top)
          by (by apply (is_parent_ancestor _ _ _ _ H2)).
        intros F vars HF. cbn in HF |- *.
        apply setdefault_add_lookup in HF as [[-> ->]|[Hne HF]]; [|by apply HI].
        split; [by eapply ancestor_has_child|].
        intros s [Hin|Hin%elem_of_singleton]%elem_of_union.
        -- apply default_elem_of in Hin as (vars0 & H0 & Hin). by eapply HI.
        -- subst s. eexists. split; [done|]. by left.
      * by intros [= _ <-].
  - intros [= _ <-]. intros F vars HF. cbn in HF |- *.
    destruct (HI _ _ HF) as [Hchild Hown]. split; [done|].
    intros s Hin. destruct (Hown _ Hin) as (o & Ho & Hrel).
    exists o. split; [|done]. rewrite lookup_insert_ne; [done|]. intros ->. congruence.
Qed.

(** X18: at every point of the pass, a function with recorded free
    variables has a function nested in it, and each of its free variables
    is owned by the function itself or by a function that encloses it. *)
Theorem X18_free_variables_owned_by_enclosing unit k st :
  NoDup (func_ids unit) -> steps (initial unit) (k, st) -> free_variables_sound st.
Proof.
  apply (reachable_invariant free_variables_sound).
  { unfold free_variables_sound, __init__. cbn [free_variables].
    intros F vars H. by apply lookup_empty_Some in H. }
  clear. intros k st c' Hinv HI Hstep.
  destruct (step_effect _ _ _ Hstep) as [s u Hv | f k' -> -> | -> | _ Hn _ Hfv Hs].
  - by eapply visit_symbol_node_sound.
  - destruct (enter_fresh _ _ _ Hinv) as (Hnone & _ & _).
    pose proof (enter_func_links (func_id f) st) as Hlinks.
    destruct (enter_func_fields (func_id f) st) as (Hfv & Hs & _).
    unfold free_variables_sound. rewrite Hfv, Hs.
    destruct (last (funcs st)) as [top|]; destruct Hlinks as [-> _]; [|done].
    intros F vars HF. destruct (HI _ _ HF) as [[child Hchild] Hown]. split.
    + exists child. rewrite lookup_insert_ne; [done|]. intros <-. congruence.
    + intros s Hin. destruct (Hown _ Hin) as (o & Ho & Hrel).
      exists o. split; [done|]. destruct Hrel as [->|Hrel]; [by left|].
      right. by apply ancestor_insert_fresh.
  - done.
  - unfold free_variables_sound. by rewrite Hfv, Hs, Hn.
Qed.

(** ** The further facts on examples *)

Lemma closure_unit_NoDup : NoDup (func_ids (closure_unit 1 2 10)).
Proof.
  vm_compute. apply NoDup_cons. split.
  - intros [H|H]%elem_of_cons; [discriminate | by apply elem_of_nil in H].
  - apply NoDup_singleton.
Qed.

(** Witness of X11: the pass over the unit of C1 ends with no function
    open. *)
Lemma X11_stack_restored_witness :
  exists n' st',
    visit (closure_unit 1 2 10) __init__ = Some (n', st') /\ funcs st' = [].
Proof.
  destruct (visit (closure_unit 1 2 10) __init__) as [[n' st']|] eqn:Hrun;
    [|vm_compute in Hrun; discriminate].
  exists n', st'. split; [reflexivity|].
  exact (proj2 (X11_stack_restored (closure_unit 1 2 10) __init__ n' st' Hrun) eq_refl).
Defined.

(** Witness of X12: [x; f(x)] at module level. *)
Lemma X12_module_level_code_ignored_witness :
  visit (OtherNode [NameExpr "x" (Some (VarSym 10));
                    CallExpr (NameExpr "f" (Some (FuncDefSym 1)))
                             [NameExpr "x" (Some (VarSym 10))]]) __init__
  = Some (OtherNode [NameExpr "x" (Some (VarSym 10));
                     CallExpr (NameExpr "f" (Some (FuncDefSym 1)))
                              [NameExpr "x" (Some (VarSym 10))]], __init__).
Proof.
  apply X12_module_level_code_ignored; reflexivity.
Defined.

(** Witness of X13: [@x.setter @f.register(int) def g(arg)]. The second
    decorator is a registration, and nothing is recorded for it. *)
Lemma X13_setter_recorded_not_decorated_witness :
  is_register (mkFuncItem 2 [mkArgument (mkVar 20 None) None] []) register_call = true
  /\ exists n' st',
       visit (decorated_g [setter_access; register_call]) __init__ = Some (n', st')
       /\ 2%positive ∈ prop_setters st'
       /\ funcs_to_decorators st' !! 2%positive = None
       /\ n' = decorated_g [setter_access; register_call]
       /\ singledispatch_impls st' = ∅.
Proof.
  split; [reflexivity|].
  destruct (visit (decorated_g [setter_access; register_call]) __init__)
    as [[n' st']|] eqn:Hrun; [|vm_compute in Hrun; discriminate].
  exists n', st'. split; [reflexivity|].
  assert (Hnd : NoDup (func_ids (decorated_g [setter_access; register_call]))).
  { vm_compute. apply NoDup_singleton. }
  destruct (X13_setter_recorded_not_decorated
              (mkFuncItem 2 [mkArgument (mkVar 20 None) None] []) (mkVar 21 None)
              setter_access [register_call] __init__ n' st' eq_refl Hnd Hrun)
    as (Hin & Hdec & Hn' & _ & Himpls).
  split; [exact Hin|]. split; [exact Hdec|]. split; [exact Hn'|].
  exact (Himpls eq_refl eq_refl).
Defined.


(** Witness of X15: the visit of the name of X14. *)
Lemma X15_free_variables_only_grow_witness :
  exists n' st',
    visit (NameExpr "x" (Some (VarSym 10))) inner_open_state = Some (n', st')
    /\ symbols_grow inner_open_state st'.
Proof.
  destruct (visit (NameExpr "x" (Some (VarSym 10))) inner_open_state)
    as [[n' st']|] eqn:Hrun; [|vm_compute in Hrun; discriminate].
  exists n', st'. split; [reflexivity|].
  exact (X15_free_variables_only_grow _ _ _ _ Hrun).
Defined.

(** Witness of X16: the state the pass over the unit of C1 returns. *)
Lemma X16_children_inverse_of_parent_witness :
  exists unit' st,
    analyze (closure_unit 1 2 10) = Some (unit', st) /\ children_inverse st.
Proof.
  destruct (analyze (closure_unit 1 2 10)) as [[unit' st]|] eqn:Hrun;
    [|vm_compute in Hrun; discriminate].
  exists unit', st. split; [reflexivity|].
  exact (X16_children_inverse_of_parent (closure_unit 1 2 10) [] st
           closure_unit_NoDup (analyze_reachable _ _ _ Hrun)).
Defined.

Lemma run_steps n c c' : run n c = Some c' -> steps c c'.
Proof.
  revert c. induction n as [|n IH]; intros c; cbn [run].
  - intros [= <-]. apply steps_refl.
  - destruct (step c) as [c1|] eqn:Hstep; [|done].
    intros H. eapply steps_step; [exact Hstep | by apply IH].
Qed.

(** Witness of X17: the point of the pass over the unit of C1, eight
    moves in, at which [inner] has just been entered: both functions are
    open. *)
Lemma X17_stack_is_chain_of_parents_witness :
  exists k st,
    run 8 (initial (closure_unit 1 2 10)) = Some (k, st)
    /\ funcs st = [1%positive; 2%positive]
    /\ stack_chain st.
Proof.
  destruct (run 8 (initial (closure_unit 1 2 10))) as [[k st]|] eqn:Hrun;
    [|vm_compute in Hrun; discriminate].
  exists k, st. split; [reflexivity|].
  pose proof (X17_stack_is_chain_of_parents (closure_unit 1 2 10) k st
                closure_unit_NoDup (run_steps _ _ _ Hrun)) as Hchain.
  split; [|exact Hchain].
  vm_compute in Hrun. injection Hrun as _ <-. reflexivity.
Defined.

(** Witness of X18: the state the pass over the unit of C1 returns. *)
Lemma X18_free_variables_owned_by_enclosing_witness :
  exists unit' st,
    analyze (closure_unit 1 2 10) = Some (unit', st) /\ free_variables_sound st.
Proof.
  destruct (analyze (closure_unit 1 2 10)) as [[unit' st]|] eqn:Hrun;
    [|vm_compute in Hrun; discriminate].
  exists unit', st. split; [reflexivity|].
  exact (X18_free_variables_owned_by_enclosing (closure_unit 1 2 10) [] st
           closure_unit_NoDup (analyze_reachable _ _ _ Hrun)).
Defined.

End PreBuildExtra.

(** * Closure capture in any source unit (C1) *)

Module PreBuildClosure.
Import PreBuild PreBuildFacts PreBuildExtra.
Local Open Scope list_scope.

(** ** The run of the machine is one line *)




(** ** The pass returns, and so does every visit it makes *)







(** ** Getting to a part of a tree *)







(** ** What a visit of a symbol does to another symbol, and to itself *)





(** ** The functions still to be entered *)




(** ** The open functions above an open function are nested in it *)




(** ** While a function is open *)

Section Open.
Variables (O : ident) (symbol : SymbolNode).



End Open.

(** ** What is never taken back *)






(** ** A symbol that the unit names inside one function only *)

Section Unseen.
Variables (O : ident) (symbol : SymbolNode).








End Unseen.

(** ** Closure capture *)





(** ** Closed instances *)



End PreBuildClosure.
